(** * CAVI engines for sparse multi-outcome fine mapping

    A shallow embedding of the two coordinate-ascent engines of the
    repository ([coloc/cafeh2.py], [coloc/independent_model2.py]) and of the
    reporting helper [compute_pip] ([coloc/misc.py]).

    Number model.  numpy's float64 arrays are embedded over exact real
    arithmetic: rounding is not modelled.  The covariance-based engine never
    inspects NaN and is embedded over [R]; the sample-based engine masks the
    NaN entries of [Y], so its arrays hold [option R] where [None] stands for
    a non-finite entry (NaN).  Arrays are nested lists indexed from 0.  Shape
    errors raised by numpy are outside the model except where a function
    returns [option]; theorems assume the shapes recorded in [dims]. *)

From Stdlib Require Import Reals Lra Lia List Bool Arith.
Import ListNotations.
Open Scope R_scope.

Set Implicit Arguments.

(* ================================================================== *)
(** * Arrays over the reals *)
(* ================================================================== *)

Abbreviation vec := (list R).
Abbreviation mat := (list (list R)).
Abbreviation ten := (list (list (list R))).

(** [tab n f] is the array [[f 0; ...; f (n-1)]]. *)
Definition tab (A : Type) (n : nat) (f : nat -> A) : list A := map f (seq 0 n).

(** [sumn n f] is the finite sum of [f i] for [i < n] (numpy's [sum],
    [@] and [einsum] contractions). *)
Fixpoint sumn (n : nat) (f : nat -> R) : R :=
  match n with
  | O => 0
  | S p => sumn p f + f p
  end.

Definition Rsum (v : vec) : R := fold_right Rplus 0 v.

Definition vget (v : vec) (i : nat) : R := nth i v 0.
Definition mget (m : mat) (i j : nat) : R := nth j (nth i m []) 0.
Definition tget (a : ten) (i j k : nat) : R := nth k (nth j (nth i a []) []) 0.

(** [upd i x l] is [l] after the in-place store [l[i] = x]. *)
Fixpoint upd (A : Type) (i : nat) (x : A) (l : list A) : list A :=
  match l, i with
  | [], _ => []
  | _ :: t, O => x :: t
  | h :: t, S j => h :: upd j x t
  end.

(** [mapi f l] maps over [l] with the index of each element. *)
Definition mapi (A B : Type) (f : nat -> A -> B) (l : list A) : list B :=
  map (fun p => f (fst p) (snd p)) (combine (seq 0 (length l)) l).

(** In-place [a += b] and [a -= b] on matrices: the target keeps its shape. *)
Definition madd (a b : mat) : mat :=
  mapi (fun i row => mapi (fun j x => x + mget b i j) row) a.
Definition msub (a b : mat) : mat :=
  mapi (fun i row => mapi (fun j x => x - mget b i j) row) a.

Definition zeros_like (a : mat) : mat := map (map (fun _ => 0)) a.

(** [np.clip(x, lo, hi)]. *)
Definition clip (x lo hi : R) : R := Rmin (Rmax x lo) hi.

(** [v.max()] of a non-empty vector. *)
Definition vmax (v : vec) : R := fold_right Rmax (hd 0 v) v.

Definition vec_eq_dec : forall a b : vec, {a = b} + {a <> b} :=
  list_eq_dec Req_dec_T.

(* ------------------------------------------------------------------ *)
(** ** Basic facts about the array primitives *)

Lemma length_tab (A : Type) n (f : nat -> A) : length (tab n f) = n.
Proof. unfold tab. now rewrite length_map, length_seq. Qed.

Lemma nth_tab (A : Type) n (f : nat -> A) i d :
  (i < n)%nat -> nth i (tab n f) d = f i.
Proof.
  intros Hi. unfold tab.
  rewrite (nth_indep _ d (f 0%nat)) by now rewrite length_map, length_seq.
  rewrite map_nth, seq_nth; auto.
Qed.

Lemma sumn_ext n f g :
  (forall i, (i < n)%nat -> f i = g i) -> sumn n f = sumn n g.
Proof.
  induction n as [|n IH]; intros H; simpl; auto.
  rewrite IH, H; auto.
Qed.

Lemma sumn_plus n f g :
  sumn n (fun i => f i + g i) = sumn n f + sumn n g.
Proof. induction n as [|n IH]; simpl; [lra | rewrite IH; lra]. Qed.

Lemma sumn_minus n f g :
  sumn n (fun i => f i - g i) = sumn n f - sumn n g.
Proof. induction n as [|n IH]; simpl; [lra | rewrite IH; lra]. Qed.

Lemma sumn_scal n c f :
  sumn n (fun i => c * f i) = c * sumn n f.
Proof. induction n as [|n IH]; simpl; [lra | rewrite IH; lra]. Qed.

Lemma sumn_scal_r n c f :
  sumn n (fun i => f i * c) = sumn n f * c.
Proof. induction n as [|n IH]; simpl; [lra | rewrite IH; lra]. Qed.

Lemma sumn_zero n : sumn n (fun _ => 0) = 0.
Proof. induction n as [|n IH]; simpl; [lra | rewrite IH; lra]. Qed.


Lemma sumn_nonneg n f :
  (forall i, (i < n)%nat -> 0 <= f i) -> 0 <= sumn n f.
Proof.
  induction n as [|n IH]; intros H; simpl; [lra|].
  assert (0 <= sumn n f) by (apply IH; auto).
  assert (0 <= f n) by (apply H; lia). lra.
Qed.

Lemma sumn_pos n f :
  (0 < n)%nat -> (forall i, (i < n)%nat -> 0 < f i) -> 0 < sumn n f.
Proof.
  intros Hn H. destruct n as [|n]; [lia|]. simpl.
  assert (0 <= sumn n f) by (apply sumn_nonneg; intros; apply Rlt_le, H; lia).
  assert (0 < f n) by (apply H; lia). lra.
Qed.

(** Exchange of two finite sums. *)
Lemma sumn_swap n m (f : nat -> nat -> R) :
  sumn n (fun i => sumn m (fun j => f i j)) =
  sumn m (fun j => sumn n (fun i => f i j)).
Proof.
  induction n as [|n IH]; simpl.
  - now rewrite sumn_zero.
  - rewrite IH, <- sumn_plus. reflexivity.
Qed.

Lemma sumn_shift n f : sumn (S n) f = f 0%nat + sumn n (fun i => f (S i)).
Proof.
  induction n as [|n IH]; [simpl; lra|].
  change (sumn (S (S n)) f) with (sumn (S n) f + f (S n)).
  rewrite IH. simpl. lra.
Qed.

Lemma Rsum_map_seq (f : nat -> R) k s :
  Rsum (map f (seq s k)) = sumn k (fun i => f (s + i)%nat).
Proof.
  revert s. induction k as [|k IH]; intros s; [reflexivity|].
  rewrite sumn_shift. cbn [seq map Rsum fold_right].
  fold (Rsum (map f (seq (S s) k))). rewrite IH, Nat.add_0_r.
  f_equal. apply sumn_ext. intros i _. f_equal. lia.
Qed.

Lemma Rsum_tab n f : Rsum (tab n f) = sumn n f.
Proof. unfold tab. rewrite Rsum_map_seq. now apply sumn_ext. Qed.

Lemma length_upd (A : Type) i (x : A) l : length (upd i x l) = length l.
Proof. revert i; induction l as [|h t IH]; intros [|i]; simpl; auto. Qed.

Lemma nth_upd_same (A : Type) i (x : A) l d :
  (i < length l)%nat -> nth i (upd i x l) d = x.
Proof.
  revert i; induction l as [|h t IH]; intros [|i] H; simpl in *; try lia; auto.
  apply IH; lia.
Qed.

Lemma nth_upd_other (A : Type) i j (x : A) l d :
  i <> j -> nth j (upd i x l) d = nth j l d.
Proof.
  revert i j; induction l as [|h t IH]; intros [|i] [|j] H; simpl; auto; try lia.
Qed.

Lemma length_mapi (A B : Type) (f : nat -> A -> B) l : length (mapi f l) = length l.
Proof.
  unfold mapi. rewrite length_map, length_combine, length_seq. lia.
Qed.

Lemma nth_mapi (A B : Type) (f : nat -> A -> B) l i da db :
  (i < length l)%nat -> nth i (mapi f l) db = f i (nth i l da).
Proof.
  intros Hi. unfold mapi.
  rewrite (nth_indep _ db (f 0%nat da))
    by (rewrite length_map, length_combine, length_seq; lia).
  change (f 0%nat da) with ((fun p => f (fst p) (snd p)) (0%nat, da)).
  rewrite map_nth, combine_nth by now rewrite length_seq.
  simpl. rewrite seq_nth; auto.
Qed.

Lemma clip_range x lo hi : lo <= hi -> lo <= clip x lo hi <= hi.
Proof.
  intros H. unfold clip, Rmin, Rmax.
  destruct (Rle_dec x lo); destruct (Rle_dec _ hi); lra.
Qed.

(* ================================================================== *)
(** * [functools.lru_cache] *)
(* ================================================================== *)

(** A memo table keyed by the call's arguments, most recently used entry
    first.  A hit returns the stored value and refreshes the entry; a miss
    runs the function body, stores the result and drops the least recently
    used entry once [maxsize] is exceeded. *)

Section LRU.

Variables Key Val : Type.
Hypothesis key_eq_dec : forall a b : Key, {a = b} + {a <> b}.

Definition lru := list (Key * Val).

Fixpoint lru_find (k : Key) (c : lru) : option Val :=
  match c with
  | [] => None
  | (k', v) :: c' => if key_eq_dec k k' then Some v else lru_find k c'
  end.

Fixpoint lru_remove (k : Key) (c : lru) : lru :=
  match c with
  | [] => []
  | (k', v) :: c' =>
      if key_eq_dec k k' then lru_remove k c' else (k', v) :: lru_remove k c'
  end.

Definition lru_call (maxsize : nat) (k : Key) (body : unit -> Val) (c : lru)
  : Val * lru :=
  match lru_find k c with
  | Some v => (v, (k, v) :: lru_remove k c)
  | None => let v := body tt in (v, firstn maxsize ((k, v) :: c))
  end.

Lemma In_firstn (A : Type) n (x : A) l : In x (firstn n l) -> In x l.
Proof.
  revert l; induction n as [|n IH]; intros [|h t]; simpl; try tauto.
  intros [H|H]; auto.
Qed.

(** [lru_all P c]: every stored entry satisfies [P]. *)
Definition lru_all (P : Key -> Val -> Prop) (c : lru) : Prop :=
  forall k v, In (k, v) c -> P k v.

Lemma lru_find_In k c v : lru_find k c = Some v -> In (k, v) c.
Proof.
  induction c as [|[k' v'] c IH]; simpl; [discriminate|].
  destruct (key_eq_dec k k') as [->|]; intros H.
  - injection H as ->. now left.
  - right. auto.
Qed.

Lemma lru_remove_In k c k' v : In (k', v) (lru_remove k c) -> In (k', v) c.
Proof.
  induction c as [|[k0 v0] c IH]; simpl; auto.
  destruct (key_eq_dec k k0); simpl; intuition.
Qed.

Lemma lru_call_miss maxsize k body c :
  lru_find k c = None -> fst (lru_call maxsize k body c) = body tt.
Proof. unfold lru_call. now intros ->. Qed.

Lemma lru_call_hit maxsize k body c v :
  lru_find k c = Some v -> fst (lru_call maxsize k body c) = v.
Proof. unfold lru_call. now intros ->. Qed.

(** A table whose entries all satisfy [P] answers every call with a value
    satisfying [P], and stays such a table. *)
Lemma lru_call_all (P : Key -> Val -> Prop) maxsize k body c :
  lru_all P c -> P k (body tt) ->
  P k (fst (lru_call maxsize k body c)) /\
  lru_all P (snd (lru_call maxsize k body c)).
Proof.
  intros Hc Hb. unfold lru_call.
  destruct (lru_find k c) as [v|] eqn:E; simpl.
  - pose proof (Hc _ _ (lru_find_In _ _ E)) as Hv. split; auto.
    intros k' v' [H|H]; [injection H as <- <-; auto|].
    eapply Hc, lru_remove_In, H.
  - split; auto. intros k' v' H.
    destruct maxsize as [|m]; simpl in H; [tauto|].
    destruct H as [H|H]; [injection H as <- <-; auto|].
    eapply Hc, In_firstn. eauto.
Qed.

End LRU.

(* ================================================================== *)
(** * The covariance-based engine ([coloc/cafeh2.py], class [CAFEH2]) *)
(* ================================================================== *)

Module CAFEH2.

(** [self.dims]: N variants, T outcome channels, K components. *)
Record dims_t := { dim_N : nat; dim_T : nat; dim_K : nat }.

(** The attributes of a [CAFEH2] object.  [R1], [R2] are two-dimensional
    (the case [np.ndim(self.R1) == 2], the one the update rules support);
    identifiers, [run_time] and the unused component-level Gamma
    hyper-parameters are left out. *)
Record model := {
  R1 : mat;                          (* N x N *)
  R2 : mat;                          (* N x N *)
  Y : mat;                           (* T x N *)
  dims : dims_t;
  prior_precision : mat;             (* T x K *)
  prior_component_precision : vec;   (* K *)
  prior_activity : vec;              (* K *)
  prior_pi : vec;                    (* N *)
  pi : mat;                          (* K x N *)
  weight_means : ten;                (* T x K x N *)
  weight_vars : ten;                 (* T x K x N *)
  active : mat;                      (* T x K *)
  elbos : list R;
  tolerance : R;
  alpha0 : R;
  beta0 : R;
  R2invR1 : mat;                     (* N x N *)
  R1R2invR1 : mat                    (* N x N *)
}.

Definition dN (s : model) : nat := dim_N (dims s).
Definition dT (s : model) : nat := dim_T (dims s).
Definition dK (s : model) : nat := dim_K (dims s).

(** Attribute stores. *)
Definition set_prior_precision (v : mat) (s : model) : model :=
  Build_model (R1 s) (R2 s) (Y s) (dims s) v (prior_component_precision s)
    (prior_activity s) (prior_pi s) (pi s) (weight_means s) (weight_vars s)
    (active s) (elbos s) (tolerance s) (alpha0 s) (beta0 s) (R2invR1 s)
    (R1R2invR1 s).

Definition set_pi (v : mat) (s : model) : model :=
  Build_model (R1 s) (R2 s) (Y s) (dims s) (prior_precision s)
    (prior_component_precision s) (prior_activity s) (prior_pi s) v
    (weight_means s) (weight_vars s) (active s) (elbos s) (tolerance s)
    (alpha0 s) (beta0 s) (R2invR1 s) (R1R2invR1 s).

Definition set_weight_means (v : ten) (s : model) : model :=
  Build_model (R1 s) (R2 s) (Y s) (dims s) (prior_precision s)
    (prior_component_precision s) (prior_activity s) (prior_pi s) (pi s) v
    (weight_vars s) (active s) (elbos s) (tolerance s) (alpha0 s) (beta0 s)
    (R2invR1 s) (R1R2invR1 s).

Definition set_weight_vars (v : ten) (s : model) : model :=
  Build_model (R1 s) (R2 s) (Y s) (dims s) (prior_precision s)
    (prior_component_precision s) (prior_activity s) (prior_pi s) (pi s)
    (weight_means s) v (active s) (elbos s) (tolerance s) (alpha0 s) (beta0 s)
    (R2invR1 s) (R1R2invR1 s).

Definition set_active (v : mat) (s : model) : model :=
  Build_model (R1 s) (R2 s) (Y s) (dims s) (prior_precision s)
    (prior_component_precision s) (prior_activity s) (prior_pi s) (pi s)
    (weight_means s) (weight_vars s) v (elbos s) (tolerance s) (alpha0 s)
    (beta0 s) (R2invR1 s) (R1R2invR1 s).

(** [prior_variance(self)]: [1 / (prior_precision * prior_component_precision)],
    the second factor broadcast along the T axis. *)
Definition prior_variance (s : model) : mat :=
  mapi (fun _ row =>
          mapi (fun k x => 1 / (x * vget (prior_component_precision s) k)) row)
       (prior_precision s).

(** The body of [_compute_prediction_component_hash(self, k, hash)]:
    [active[:, None] * (pi * weights) @ self.R1], read from the attributes
    at the time of the call; the [hash] argument is not used by the body. *)
Definition _compute_prediction_component_hash (s : model) (k : nat) : mat :=
  tab (dT s) (fun t =>
    tab (dN s) (fun j =>
      sumn (dN s) (fun n =>
        mget (active s) t k * (mget (pi s) k n * tget (weight_means s) t k n)
        * mget (R1 s) n j))).

(** The cache key built by [compute_prediction_component]:
    [(self.pi[k] @ self.weight_means[:, k].T).tobytes()], one dot product
    per outcome channel.  Two byte strings are equal when the vectors are
    (signed zeros aside). *)
Definition fingerprint (s : model) (k : nat) : vec :=
  tab (dT s) (fun t =>
    sumn (dN s) (fun n => mget (pi s) k n * tget (weight_means s) t k n)).

Definition key_eq_dec : forall a b : nat * vec, {a = b} + {a <> b}.
Proof. decide equality; [apply vec_eq_dec | apply Nat.eq_dec]. Defined.

Definition arrays_eq_dec : forall a b : vec * vec * mat, {a = b} + {a <> b}.
Proof.
  decide equality; [apply (list_eq_dec vec_eq_dec)|].
  decide equality; apply vec_eq_dec.
Defined.

(** The object together with its two memo tables: [hash_cache] belongs to
    [_compute_prediction_component_hash] ([lru_cache(maxsize=128)]),
    [component_cache] to [_compute_prediction_component]
    ([np_cache_class(maxsize=128)], keyed by the arrays themselves). *)
Record world := {
  self : model;
  hash_cache : lru (nat * vec) mat;
  component_cache : lru (vec * vec * mat) mat
}.

Definition with_self (s : model) (w : world) : world :=
  Build_world s (hash_cache w) (component_cache w).

(** [compute_prediction_component(self, k)]. *)
Definition compute_prediction_component (k : nat) (w : world) : mat * world :=
  let h := fingerprint (self w) k in
  let r := lru_call key_eq_dec 128 (k, h)
             (fun _ => _compute_prediction_component_hash (self w) k)
             (hash_cache w) in
  (fst r, Build_world (self w) (snd r) (component_cache w)).

(** The accumulation loop [for l in ...: prediction += ...(l)]. *)
Fixpoint add_components (ls : list nat) (prediction : mat) (w : world)
  : mat * world :=
  match ls with
  | [] => (prediction, w)
  | l :: ls' =>
      let (c, w') := compute_prediction_component l w in
      add_components ls' (madd prediction c) w'
  end.

(** [compute_prediction(self, k=None)]. *)
Definition compute_prediction (k : option nat) (w : world) : mat * world :=
  let (prediction, w1) :=
    add_components (seq 0 (dK (self w))) (zeros_like (Y (self w))) w in
  match k with
  | None => (prediction, w1)
  | Some k =>
      let (c, w2) := compute_prediction_component k w1 in
      (msub prediction c, w2)
  end.

(** [compute_residual(self, k=None)]. *)
Definition compute_residual (k : option nat) (w : world) : mat * world :=
  let (prediction, w') := compute_prediction k w in
  (msub (Y (self w)) prediction, w').

(** The ARD branch of [_update_weight_component]: the new column [k] of
    [prior_precision]. *)
Definition ARD_second_moment (s : model) (k t : nat) : R :=
  sumn (dN s) (fun n =>
    (tget (weight_vars s) t k n + tget (weight_means s) t k n ^ 2)
    * mget (pi s) k n).

Definition ARD_alpha (s : model) : R := alpha0 s + 0.5.

Definition ARD_beta (s : model) (k t : nat) : R :=
  beta0 s + ARD_second_moment s k t / 2 * vget (prior_component_precision s) k.

Definition ARD_update (s : model) (k : nat) : model :=
  set_prior_precision
    (mapi (fun t row =>
             upd k (clip ((ARD_alpha s - 1) / ARD_beta s k t) 1e-10 1e5) row)
          (prior_precision s))
    s.

(** The per-tissue loop of [_update_weight_component]. *)
Definition weight_precision (s : model) (k t n : nat) : R :=
  mget (R1R2invR1 s) n n + 1 / mget (prior_variance s) t k.

Definition weight_variance (s : model) (k t : nat) : vec :=
  tab (dN s) (fun n => 1 / weight_precision s k t n).

Definition weight_mean (s : model) (r_k : mat) (k t : nat) : vec :=
  tab (dN s) (fun n =>
    sumn (dN s) (fun j => mget r_k t j * mget (R2invR1 s) j n)
    * (1 / weight_precision s k t n)).

Definition store_weights (s : model) (r_k : mat) (k : nat) : model :=
  set_weight_means
    (mapi (fun t rows => upd k (weight_mean s r_k k t) rows) (weight_means s))
    (set_weight_vars
       (mapi (fun t rows => upd k (weight_variance s k t) rows) (weight_vars s))
       s).

(** [_update_weight_component(self, k, ARD=False, residual=None)].
    [None] is an [IndexError]: [k] is not a component index.  (With no
    outcome channel, no ARD and a residual supplied, the source touches no
    array and returns.) *)
Definition _update_weight_component (k : nat) (ARD : bool)
  (residual : option mat) (w : world) : option world :=
  if (k <? dK (self w))%nat then
    let (r_k, w1) :=
      match residual with
      | None => compute_residual (Some k) w
      | Some r => (r, w)
      end in
    let s1 := if ARD then ARD_update (self w1) k else self w1 in
    Some (with_self (store_weights s1 r_k k) w1)
  else
    match residual with
    | Some _ => if negb ARD && (dT (self w) =? 0)%nat then Some w else None
    | None => None
    end.

(** [update_weights(self, components=None, ARD=False)]. *)
Fixpoint update_weights_loop (components : list nat) (ARD : bool) (w : world)
  : option world :=
  match components with
  | [] => Some w
  | k :: ks =>
      match _update_weight_component k ARD None w with
      | Some w' => update_weights_loop ks ARD w'
      | None => None
      end
  end.

Definition update_weights (components : option (list nat)) (ARD : bool)
  (w : world) : option world :=
  update_weights_loop
    (match components with Some c => c | None => seq 0 (dK (self w)) end)
    ARD w.

(** The normalisation at the end of [_update_pi_component]:
    [exp(x - x.max())] divided by its sum. *)
Definition softmax (x : vec) : vec :=
  let e := map (fun v => exp (v - vmax x)) x in
  map (fun v => v / Rsum e) e.

Section AssignmentUpdate.

(** [normal_kl(mu_q, var_q, mu_p, var_p)] of [coloc/kls.py], a file that is
    not part of the sources at hand: taken as a parameter. *)
Variable normal_kl : R -> R -> R -> R -> R.

(** The unnormalised log-score of variant [n] in outcome channel [t]. *)
Definition pi_score_tissue (s : model) (r_k : mat) (k t n : nat) : R :=
  sumn (dN s) (fun j => mget r_k t j * mget (R2invR1 s) j n)
  * tget (weight_means s) t k n
  - 0.5 * (tget (weight_means s) t k n ^ 2 + tget (weight_vars s) t k n)
    * mget (R1R2invR1 s) n n
  - normal_kl (tget (weight_means s) t k n) (tget (weight_vars s) t k n) 0
      (mget (prior_variance s) t k * 1).

(** [pi_k.T @ self.active[:, k]]. *)
Definition pi_score (s : model) (r_k : mat) (k : nat) : vec :=
  tab (dN s) (fun n =>
    sumn (dT s) (fun t => pi_score_tissue s r_k k t n * mget (active s) t k)).

(** [_update_pi_component(self, k, ARD=False, residual=None)].  [None] is an
    exception: an [IndexError] for a [k] that is no component index, the
    [ValueError] of [max()] on an empty score vector. *)
Definition _update_pi_component (k : nat) (residual : option mat) (w : world)
  : option world :=
  if (k <? dK (self w))%nat then
    let (r_k, w1) :=
      match residual with
      | None => compute_residual (Some k) w
      | Some r => (r, w)
      end in
    let s := self w1 in
    if (dN s =? 0)%nat then None
    else Some (with_self (set_pi (upd k (softmax (pi_score s r_k k)) (pi s)) s) w1)
  else None.

(** [update_pi(self, components=None)]. *)
Fixpoint update_pi_loop (components : list nat) (w : world) : option world :=
  match components with
  | [] => Some w
  | k :: ks =>
      match _update_pi_component k None w with
      | Some w' => update_pi_loop ks w'
      | None => None
      end
  end.

Definition update_pi (components : option (list nat)) (w : world)
  : option world :=
  update_pi_loop
    (match components with Some c => c | None => seq 0 (dK (self w)) end) w.

(** One pass of the inner loop of [fit] over [components] (the ELBO and the
    convergence test need [coloc/kls.py] and [coloc/model_queries.py] and
    are not part of this development).  The local [residual] is rebound to
    a fresh array before and after the updates of each component. *)
Definition fit_component (update_weights update_pi ARD_weights : bool)
  (l : nat) (rw : mat * world) : option (mat * world) :=
  let (residual, w) := rw in
  let (c, w1) := compute_prediction_component l w in
  let residual1 := madd residual c in
  match (if update_weights
         then _update_weight_component l ARD_weights (Some residual1) w1
         else Some w1) with
  | None => None
  | Some w2 =>
      match (if update_pi then _update_pi_component l (Some residual1) w2
             else Some w2) with
      | None => None
      | Some w3 =>
          let (c', w4) := compute_prediction_component l w3 in
          Some (msub residual1 c', w4)
      end
  end.

Fixpoint fit_sweep (update_weights update_pi ARD_weights : bool)
  (components : list nat) (rw : mat * world) : option (mat * world) :=
  match components with
  | [] => Some rw
  | l :: ls =>
      match fit_component update_weights update_pi ARD_weights l rw with
      | Some rw' => fit_sweep update_weights update_pi ARD_weights ls rw'
      | None => None
      end
  end.

End AssignmentUpdate.

(** Modelled from the spec: [get_expected_weights] lives in
    [coloc/model_queries.py], which is not part of the sources at hand.
    The expected weight of component [k] in outcome channel [t] is the
    assignment-weighted mean of its weights, [sum_n pi[k,n] * weight_means[t,k,n]]. *)
Definition get_expected_weights (s : model) : mat :=
  tab (dT s) (fun t =>
    tab (dK s) (fun k =>
      sumn (dN s) (fun n => tget (weight_means s) t k n * mget (pi s) k n))).

(** [np.abs(...).max(0)]: per component, the largest absolute expected
    weight over the outcome channels. *)
Definition importance (s : model) (k : nat) : R :=
  vmax (tab (dT s) (fun t => Rabs (mget (get_expected_weights s) t k))).

(** [np.argsort]: the indices [0..n-1] in ascending order of [key]
    (insertion sort; equal keys keep their index order). *)
Fixpoint insert_by (key : nat -> R) (i : nat) (l : list nat) : list nat :=
  match l with
  | [] => [i]
  | j :: l' =>
      if Rle_dec (key i) (key j) then i :: l else j :: insert_by key i l'
  end.

Definition argsort (key : nat -> R) (n : nat) : list nat :=
  fold_right (insert_by key) [] (seq 0 n).

(** [a[order]]: fancy indexing along the first axis. *)
Definition take (A : Type) (d : A) (order : list nat) (l : list A) : list A :=
  map (fun j => nth j l d) order.

(** [sort_components(self)].  The table that is cleared is the one of
    [_compute_prediction_component]; [hash_cache] is left as it is. *)
Definition sort_components (w : world) : world :=
  let s := self w in
  let order := rev (argsort (importance s) (dK s)) in
  let s1 := set_weight_means (map (take [] order) (weight_means s)) s in
  let s2 := set_active (map (take 0 order) (active s)) s1 in
  let s3 := set_pi (take [] order (pi s)) s2 in
  Build_world s3 (hash_cache w) [].

(** [A @ B] for two matrices; [None] is the [ValueError] of mismatched
    inner dimensions. *)
Definition matmul (A B : mat) : option mat :=
  if (length (hd [] A) =? length B)%nat then
    Some (tab (length A) (fun i =>
            tab (length (hd [] B)) (fun j =>
              sumn (length B) (fun n => mget A i n * mget B n j))))
  else None.

Section Construction.

(** [np.linalg.solve(A, B)]; [None] is the [LinAlgError] numpy raises for a
    matrix [A] that is not square, is singular, or does not fit [B]. *)
Variable solve : mat -> mat -> option mat.

(** [CAFEH2.__init__(R1, R2, Y, K, prior_activity, prior_variance, prior_pi,
    tolerance)] for two-dimensional [R1], [R2], [Y].  [None] is an
    exception; the only statements that can raise are the last two. *)
Definition __init__ (R1 R2 Y : mat) (K : nat) (prior_activity prior_variance : R)
  (prior_pi : option vec) (tolerance : R) : option model :=
  let T := length Y in
  let N := length (hd [] Y) in
  let prior_precision := tab T (fun _ => tab K (fun _ => 1 * prior_variance)) in
  let prior_component_precision := tab K (fun _ => 1) in
  let pv t k := 1 / (mget prior_precision t k * vget prior_component_precision k) in
  match solve R2 R1 with
  | None => None
  | Some Sol =>
      match matmul R1 Sol with
      | None => None
      | Some RS =>
          Some (Build_model R1 R2 Y (Build_dims_t N T K)
                  prior_precision prior_component_precision
                  (tab K (fun _ => 1 * prior_activity))
                  (match prior_pi with
                   | Some p => p
                   | None => tab N (fun _ => 1 / INR N)
                   end)
                  (tab K (fun _ => tab N (fun _ => 1 / INR N)))
                  (tab T (fun _ => tab K (fun _ => tab N (fun _ => 0))))
                  (tab T (fun t => tab K (fun k => tab N (fun _ =>
                     pv t k / (pv t k + 1) * 1))))
                  (tab T (fun _ => tab K (fun _ => 1)))
                  [] tolerance 1 1e-10 Sol RS)
      end
  end.

End Construction.

End CAFEH2.

(* ================================================================== *)
(** * Facts about the covariance-based engine *)
(* ================================================================== *)

Module CAFEH2_facts.
Import CAFEH2.

(** ** The memo table never touches the object *)

Lemma self_compute_prediction_component k w :
  self (snd (compute_prediction_component k w)) = self w.
Proof. reflexivity. Qed.

Lemma self_add_components ls p w :
  self (snd (add_components ls p w)) = self w.
Proof.
  revert p w. induction ls as [|l ls IH]; intros p w; simpl; auto.
  rewrite IH. reflexivity.
Qed.

Lemma self_compute_prediction k w :
  self (snd (compute_prediction k w)) = self w.
Proof.
  unfold compute_prediction.
  pose proof (self_add_components (seq 0 (dK (self w)))
                (zeros_like (Y (self w))) w) as H.
  destruct (add_components _ _ w) as [p w1]. simpl in H.
  destruct k as [k|]; simpl; auto.
Qed.

Lemma self_compute_residual k w :
  self (snd (compute_residual k w)) = self w.
Proof.
  unfold compute_residual.
  pose proof (self_compute_prediction k w) as H.
  destruct (compute_prediction k w) as [p w1]. exact H.
Qed.

(** ** Softmax *)

Lemma Rsum_map_div (e : vec) c :
  Rsum (map (fun v => v / c) e) = Rsum e / c.
Proof.
  induction e as [|a e IH]; simpl; [lra|].
  fold (Rsum (map (fun v => v / c) e)). rewrite IH.
  fold (Rsum e). lra.
Qed.

Lemma Rsum_exp_pos (x : vec) m :
  x <> [] -> 0 < Rsum (map (fun v => exp (v - m)) x).
Proof.
  destruct x as [|a x]; [congruence|]. intros _. simpl.
  assert (H : 0 <= Rsum (map (fun v => exp (v - m)) x)).
  { clear a. induction x as [|b x IH]; simpl; [lra|].
    pose proof (exp_pos (b - m)). fold (Rsum (map (fun v => exp (v - m)) x)). lra. }
  pose proof (exp_pos (a - m)).
  fold (Rsum (map (fun v => exp (v - m)) x)). lra.
Qed.

Lemma softmax_length x : length (softmax x) = length x.
Proof. unfold softmax. now rewrite !length_map. Qed.

Lemma softmax_sum x : x <> [] -> Rsum (softmax x) = 1.
Proof.
  intros Hx. unfold softmax. rewrite Rsum_map_div.
  pose proof (Rsum_exp_pos (vmax x) Hx). field. lra.
Qed.

Lemma softmax_pos x v : x <> [] -> In v (softmax x) -> 0 < v.
Proof.
  intros Hx Hv. unfold softmax in Hv.
  apply in_map_iff in Hv. destruct Hv as [e [<- He]].
  apply in_map_iff in He. destruct He as [a [<- _]].
  pose proof (Rsum_exp_pos (vmax x) Hx).
  apply Rdiv_lt_0_compat; auto. apply exp_pos.
Qed.

(** ** The assignment update writes a probability vector *)

Lemma update_pi_simplex normal_kl k residual w :
  (k < dK (self w))%nat -> (0 < dN (self w))%nat ->
  length (pi (self w)) = dK (self w) ->
  exists w',
    _update_pi_component normal_kl k residual w = Some w' /\
    length (nth k (pi (self w')) []) = dN (self w) /\
    (forall v, In v (nth k (pi (self w')) []) -> 0 <= v) /\
    Rsum (nth k (pi (self w')) []) = 1.
Proof.
  intros Hk HN Hpi. unfold _update_pi_component.
  apply Nat.ltb_lt in Hk as Hk'. rewrite Hk'.
  assert (Hs : exists r_k w1,
             match residual with
             | Some r => (r, w)
             | None => compute_residual (Some k) w
             end = (r_k, w1) /\ self w1 = self w).
  { destruct residual as [r|].
    - now exists r, w.
    - pose proof (self_compute_residual (Some k) w) as H.
      destruct (compute_residual (Some k) w) as [r w1]. now exists r, w1. }
  destruct Hs as [r_k [w1 [-> Hs]]]. rewrite Hs.
  destruct (dN (self w) =? 0)%nat eqn:E; [apply Nat.eqb_eq in E; lia|].
  eexists. split; [reflexivity|]. simpl.
  rewrite nth_upd_same by lia.
  assert (Hne : pi_score normal_kl (self w) r_k k <> []).
  { intros H. apply (f_equal (@length R)) in H.
    unfold pi_score in H. rewrite length_tab in H. simpl in H. lia. }
  split; [|split].
  - rewrite softmax_length. unfold pi_score. now rewrite length_tab.
  - intros v Hv. apply Rlt_le. eapply softmax_pos; eauto.
  - now apply softmax_sum.
Qed.

(** ** Shapes *)

(** The arrays have the shapes recorded in [dims]. *)
Definition wf (s : model) : Prop :=
  length (pi s) = dK s /\
  length (weight_means s) = dT s /\
  length (weight_vars s) = dT s /\
  length (prior_precision s) = dT s /\
  (forall t, (t < dT s)%nat -> length (nth t (weight_means s) []) = dK s) /\
  (forall t, (t < dT s)%nat -> length (nth t (weight_vars s) []) = dK s) /\
  (forall t, (t < dT s)%nat -> length (nth t (prior_precision s) []) = dK s).

(** The update rule in the words of the specification: the conjugate
    Gaussian posterior of one weight. *)
Definition spec_precision (gram_diag noise_precision prior_var : R) : R :=
  gram_diag * noise_precision + 1 / prior_var.
Definition spec_variance (precision : R) : R := 1 / precision.
Definition spec_mean (variance noise_precision inner : R) : R :=
  variance * noise_precision * inner.

(** The residual the update works from. *)
Definition residual_used (k : nat) (residual : option mat) (w : world) : mat :=
  match residual with
  | Some r => r
  | None => fst (compute_residual (Some k) w)
  end.

Lemma mget_mapi_upd (m : mat) (f : nat -> R) k t :
  (t < length m)%nat -> (k < length (nth t m []))%nat ->
  mget (mapi (fun t row => upd k (f t) row) m) t k = f t.
Proof.
  intros Ht Hk. unfold mget.
  rewrite (nth_mapi _ _ [] []) by auto. now rewrite nth_upd_same.
Qed.

Lemma mget_mapi_upd_other (m : mat) (f : nat -> R) k t j :
  j <> k -> mget (mapi (fun t row => upd k (f t) row) m) t j = mget m t j.
Proof.
  intros Hj. unfold mget.
  destruct (Nat.lt_ge_cases t (length m)) as [Ht|Ht].
  - rewrite (nth_mapi _ _ [] []) by auto. now rewrite nth_upd_other by auto.
  - rewrite (@nth_overflow _ (mapi _ _) t []), (@nth_overflow _ _ t []);
      rewrite ?length_mapi; auto.
Qed.

Lemma tget_mapi_upd (a : ten) (f : nat -> vec) k t n :
  (t < length a)%nat -> (k < length (nth t a []))%nat ->
  tget (mapi (fun t rows => upd k (f t) rows) a) t k n = nth n (f t) 0.
Proof.
  intros Ht Hk. unfold tget.
  rewrite (nth_mapi _ _ [] []) by auto. now rewrite nth_upd_same.
Qed.

Lemma tget_mapi_upd_other (a : ten) (f : nat -> vec) k t j n :
  j <> k -> tget (mapi (fun t rows => upd k (f t) rows) a) t j n = tget a t j n.
Proof.
  intros Hj. unfold tget.
  destruct (Nat.lt_ge_cases t (length a)) as [Ht|Ht].
  - rewrite (nth_mapi _ _ [] []) by auto. now rewrite nth_upd_other by auto.
  - rewrite (@nth_overflow _ (mapi _ _) t []), (@nth_overflow _ _ t []);
      rewrite ?length_mapi; auto.
Qed.

Lemma wf_ARD_update s k : wf s -> wf (ARD_update s k).
Proof.
  intros (H1 & H2 & H3 & H4 & H5 & H6 & H7).
  unfold wf, ARD_update, dK, dT in *. simpl.
  repeat split; auto; try (now rewrite length_mapi).
  intros t Ht. rewrite (nth_mapi _ _ [] []) by lia.
  rewrite length_upd. auto.
Qed.

Lemma wf_store_weights s r k : wf s -> wf (store_weights s r k).
Proof.
  intros (H1 & H2 & H3 & H4 & H5 & H6 & H7).
  unfold wf, store_weights, dK, dT in *. simpl.
  repeat split; auto; try (now rewrite length_mapi);
    intros t Ht; rewrite (nth_mapi _ _ [] []) by lia;
    rewrite length_upd; auto.
Qed.

Lemma mget_prior_variance s t k :
  wf s -> (t < dT s)%nat -> (k < dK s)%nat ->
  mget (prior_variance s) t k =
  1 / (mget (prior_precision s) t k * vget (prior_component_precision s) k).
Proof.
  intros (H1 & H2 & H3 & H4 & H5 & H6 & H7) Ht Hk.
  unfold prior_variance, mget.
  rewrite (nth_mapi _ _ [] []) by lia.
  rewrite (nth_mapi _ _ 0 0) by (rewrite H7; lia).
  reflexivity.
Qed.

(** The residual and the world the update works in. *)
Lemma residual_world k residual w :
  exists w1,
    match residual with
    | Some r => (r, w)
    | None => compute_residual (Some k) w
    end = (residual_used k residual w, w1) /\ self w1 = self w.
Proof.
  destruct residual as [r|]; simpl.
  - now exists w.
  - pose proof (self_compute_residual (Some k) w) as H.
    destruct (compute_residual (Some k) w) as [r w1]. now exists w1.
Qed.

(** The state the weights are stored into: after the ARD step if there is
    one. *)
Definition pre_store (ARD : bool) (k : nat) (s : model) : model :=
  if ARD then ARD_update s k else s.

Lemma update_weight_runs k ARD residual w :
  (k < dK (self w))%nat ->
  exists w1,
    self w1 = self w /\
    _update_weight_component k ARD residual w =
    Some (with_self (store_weights (pre_store ARD k (self w))
                       (residual_used k residual w) k) w1).
Proof.
  intros Hk. unfold _update_weight_component.
  apply Nat.ltb_lt in Hk. rewrite Hk.
  destruct (residual_world k residual w) as [w1 [-> Hs]].
  exists w1. split; auto. unfold pre_store. now rewrite Hs.
Qed.

(** What the weight update stores for component [k]. *)
Lemma update_weight_closed_form k ARD residual w :
  wf (self w) -> (k < dK (self w))%nat ->
  exists w',
    _update_weight_component k ARD residual w = Some w' /\
    forall t n, (t < dT (self w))%nat -> (n < dN (self w))%nat ->
      let s' := self w' in
      let gram := mget (R1R2invR1 s') n n in
      let pv := mget (prior_variance s') t k in
      let inner := sumn (dN s') (fun j =>
                     mget (residual_used k residual w) t j
                     * mget (R2invR1 s') j n) in
      tget (weight_vars s') t k n = spec_variance (spec_precision gram 1 pv) /\
      tget (weight_means s') t k n =
        spec_mean (tget (weight_vars s') t k n) 1 inner /\
      (0 <= gram -> 0 < 1 / pv -> 0 < tget (weight_vars s') t k n).
Proof.
  intros Hwf Hk.
  destruct (update_weight_runs ARD residual w Hk) as [w1 [Hs ->]].
  eexists. split; [reflexivity|].
  intros t n Ht Hn. unfold with_self. cbn [self]. cbv zeta.
  set (s1 := pre_store ARD k (self w)).
  assert (Hwf1 : wf s1).
  { unfold s1, pre_store. destruct ARD; auto using wf_ARD_update. }
  assert (Hd : dims s1 = dims (self w)).
  { unfold s1, pre_store. now destruct ARD. }
  assert (HT : dT s1 = dT (self w)) by (unfold dT; now rewrite Hd).
  assert (HK : dK s1 = dK (self w)) by (unfold dK; now rewrite Hd).
  assert (HN : dN s1 = dN (self w)) by (unfold dN; now rewrite Hd).
  destruct Hwf1 as (H1 & H2 & H3 & H4 & H5 & H6 & H7).
  assert (Ev : tget (weight_vars (store_weights s1 (residual_used k residual w) k)) t k n
               = 1 / weight_precision s1 k t n).
  { unfold store_weights. simpl.
    rewrite tget_mapi_upd by (rewrite ?H3, ?H6; lia).
    unfold weight_variance. rewrite nth_tab by lia. reflexivity. }
  assert (Em : tget (weight_means (store_weights s1 (residual_used k residual w) k)) t k n
               = sumn (dN s1) (fun j => mget (residual_used k residual w) t j
                                        * mget (R2invR1 s1) j n)
                 * (1 / weight_precision s1 k t n)).
  { unfold store_weights. simpl.
    rewrite tget_mapi_upd by (rewrite ?H2, ?H5; lia).
    unfold weight_mean. rewrite nth_tab by lia. reflexivity. }
  rewrite Ev, Em. unfold spec_variance, spec_precision, spec_mean.
  change (prior_variance (store_weights s1 (residual_used k residual w) k))
    with (prior_variance s1).
  change (R1R2invR1 (store_weights s1 (residual_used k residual w) k))
    with (R1R2invR1 s1).
  change (R2invR1 (store_weights s1 (residual_used k residual w) k))
    with (R2invR1 s1).
  change (dN (store_weights s1 (residual_used k residual w) k)) with (dN s1).
  unfold weight_precision.
  split; [|split].
  - f_equal. ring.
  - ring.
  - intros Hg Hp. apply Rdiv_lt_0_compat; lra.
Qed.

(** Components other than [k] keep their weights. *)
Lemma update_weight_frame k ARD residual w w' j t n :
  _update_weight_component k ARD residual w = Some w' -> j <> k ->
  tget (weight_vars (self w')) t j n = tget (weight_vars (self w)) t j n /\
  tget (weight_means (self w')) t j n = tget (weight_means (self w)) t j n.
Proof.
  intros H Hj. unfold _update_weight_component in H.
  destruct (k <? dK (self w))%nat.
  - destruct (residual_world k residual w) as [w1 [E Hs]].
    rewrite E in H. injection H as <-. simpl.
    unfold store_weights. simpl.
    rewrite !tget_mapi_upd_other by auto.
    rewrite Hs. now destruct ARD.
  - destruct residual; [|discriminate].
    destruct (negb ARD && _); [|discriminate]. now injection H as <-.
Qed.

(** ** The ARD step and the range of [prior_precision] *)

Lemma ARD_update_column s k t :
  wf s -> (t < dT s)%nat -> (k < dK s)%nat ->
  mget (prior_precision (ARD_update s k)) t k =
  clip ((ARD_alpha s - 1) / ARD_beta s k t) 1e-10 1e5.
Proof.
  intros (H1 & H2 & H3 & H4 & H5 & H6 & H7) Ht Hk.
  unfold ARD_update. cbn [prior_precision set_prior_precision].
  rewrite mget_mapi_upd; auto; rewrite ?H4, ?H7; auto.
Qed.

Lemma ARD_update_other s k t j :
  j <> k ->
  mget (prior_precision (ARD_update s k)) t j = mget (prior_precision s) t j.
Proof.
  intros Hj. unfold ARD_update. cbn [prior_precision set_prior_precision].
  now rewrite mget_mapi_upd_other.
Qed.

(** Every entry of [prior_precision] is strictly positive and at most 1e5. *)
Definition precision_ok (s : model) : Prop :=
  forall t k, (t < dT s)%nat -> (k < dK s)%nat ->
    0 < mget (prior_precision s) t k <= 1e5.

Lemma precision_ok_ARD_update s j :
  wf s -> precision_ok s -> precision_ok (ARD_update s j).
Proof.
  intros Hwf Hok t k Ht Hk.
  change (dT (ARD_update s j)) with (dT s) in Ht.
  change (dK (ARD_update s j)) with (dK s) in Hk.
  destruct (Nat.eq_dec k j) as [->|Hne].
  - rewrite ARD_update_column by auto.
    pose proof (clip_range ((ARD_alpha s - 1) / ARD_beta s j t)
                  (lo:=1e-10) (hi:=1e5)) as H.
    lra.
  - rewrite ARD_update_other by auto. auto.
Qed.

Lemma update_weight_invariant k ARD residual w w' :
  _update_weight_component k ARD residual w = Some w' ->
  wf (self w) -> precision_ok (self w) ->
  wf (self w') /\ precision_ok (self w').
Proof.
  intros H Hwf Hok. unfold _update_weight_component in H.
  destruct (k <? dK (self w))%nat.
  - destruct (residual_world k residual w) as [w1 [E Hs]].
    rewrite E, Hs in H. injection H as <-. unfold with_self. cbn [self].
    assert (wf (pre_store ARD k (self w)) /\
            precision_ok (pre_store ARD k (self w))) as [Hwf1 Hok1].
    { unfold pre_store. destruct ARD; auto.
      split; [now apply wf_ARD_update | now apply precision_ok_ARD_update]. }
    split; [now apply wf_store_weights|].
    exact Hok1.
  - destruct residual; [|discriminate].
    destruct (negb ARD && _); [|discriminate]. now injection H as <-.
Qed.

Section Reachability.

Variable normal_kl : R -> R -> R -> R -> R.

Lemma update_pi_invariant k residual w w' :
  _update_pi_component normal_kl k residual w = Some w' ->
  wf (self w) -> precision_ok (self w) ->
  wf (self w') /\ precision_ok (self w').
Proof.
  intros H Hwf Hok. unfold _update_pi_component in H.
  destruct (k <? dK (self w))%nat; [|discriminate].
  destruct (residual_world k residual w) as [w1 [E Hs]].
  rewrite E, Hs in H.
  destruct (dN (self w) =? 0)%nat; [discriminate|].
  injection H as <-. unfold with_self. cbn [self].
  split; [|exact Hok].
  destruct Hwf as (H1 & H2 & H3 & H4 & H5 & H6 & H7).
  unfold wf, dK, dT in *. cbn. rewrite length_upd. repeat split; auto.
Qed.



End Reachability.

(** With a positive component precision the prior variance is a positive
    number and so is its reciprocal, the term the Gaussian update adds. *)
Lemma prior_variance_regular s t k :
  wf s -> precision_ok s -> (t < dT s)%nat -> (k < dK s)%nat ->
  0 < vget (prior_component_precision s) k ->
  0 < mget (prior_variance s) t k /\ 0 < 1 / mget (prior_variance s) t k.
Proof.
  intros Hwf Hok Ht Hk Hc.
  rewrite mget_prior_variance by auto.
  destruct (Hok t k Ht Hk) as [Hp _].
  assert (0 < mget (prior_precision s) t k * vget (prior_component_precision s) k)
    by now apply Rmult_lt_0_compat.
  assert (0 < 1 / (mget (prior_precision s) t k
                   * vget (prior_component_precision s) k))
    by (apply Rdiv_lt_0_compat; lra).
  split; auto. apply Rdiv_lt_0_compat; lra.
Qed.

End CAFEH2_facts.

(* ================================================================== *)
(** * Arrays with missing entries *)
(* ================================================================== *)

(** An entry of an array of the sample-based engine: [Some x] is the finite
    number [x], [None] is NaN.  Arithmetic propagates NaN; a division by
    zero and the logarithm of a non-positive number give a non-finite
    result, which this model does not tell apart from NaN. *)
Abbreviation fl := (option R).
Abbreviation fvec := (list (option R)).
Abbreviation fmat := (list (list (option R))).
Abbreviation ften := (list (list (list (option R)))).

Definition isnan (x : fl) : bool :=
  match x with None => true | Some _ => false end.

Definition lift2 (op : R -> R -> R) (x y : fl) : fl :=
  match x, y with
  | Some a, Some b => Some (op a b)
  | _, _ => None
  end.

Definition fadd : fl -> fl -> fl := lift2 Rplus.
Definition fsub : fl -> fl -> fl := lift2 Rminus.
Definition fmul : fl -> fl -> fl := lift2 Rmult.

Definition fdiv (x y : fl) : fl :=
  match x, y with
  | Some a, Some b => if Req_dec_T b 0 then None else Some (a / b)
  | _, _ => None
  end.

Definition fsq (x : fl) : fl := fmul x x.

Definition fexp (x : fl) : fl :=
  match x with Some a => Some (exp a) | None => None end.

Definition flog (x : fl) : fl :=
  match x with
  | Some a => if Rlt_dec 0 a then Some (ln a) else None
  | None => None
  end.

(** [max] of two entries; NaN wins, as in [np.max]. *)
Definition fmax2 : fl -> fl -> fl := lift2 Rmax.

Definition fget (v : fvec) (i : nat) : fl := nth i v None.
Definition fget2 (m : fmat) (i j : nat) : fl := nth j (nth i m []) None.
Definition fget3 (a : ften) (i j k : nat) : fl :=
  nth k (nth j (nth i a []) []) None.

Fixpoint fsumn (n : nat) (f : nat -> fl) : fl :=
  match n with
  | O => Some 0
  | S p => fadd (fsumn p f) (f p)
  end.

Definition fsum (v : fvec) : fl := fold_right fadd (Some 0) v.

(** [v.max()] of a non-empty vector. *)
Definition fvmax (v : fvec) : fl := fold_right fmax2 (hd None v) v.

(** The indices below [n] selected by a boolean mask. *)
Definition selected (mask : list bool) (n : nat) : list nat :=
  filter (fun m => nth m mask false) (seq 0 n).

(** The sum of [f] over the entries selected by [mask]: [np.sum(a[mask])],
    [np.inner(a[mask], b[mask])] and the contractions over [X[:, mask]]. *)
Definition fmsum (mask : list bool) (n : nat) (f : nat -> fl) : fl :=
  fsum (map f (selected mask n)).

(** A boolean used as a number. *)
Definition of_bool (b : bool) : fl := Some (if b then 1 else 0).

Definition fmadd (a b : fmat) : fmat :=
  mapi (fun i row => mapi (fun j x => fadd x (fget2 b i j)) row) a.
Definition fmsub (a b : fmat) : fmat :=
  mapi (fun i row => mapi (fun j x => fsub x (fget2 b i j)) row) a.

Definition fzeros_like (a : fmat) : fmat := map (map (fun _ => Some 0)) a.

(** [r[np.isnan(Y)] = 0]: the array [r] after the masked store. *)
Definition zero_nans (Y r : fmat) : fmat :=
  mapi (fun i row =>
          mapi (fun j x => if isnan (fget2 Y i j) then Some 0 else x) row) r.

(** [base[mask] = vals]: the entries selected by [mask] are overwritten, in
    order, by the entries of [vals]. *)
Fixpoint scatter (mask : list bool) (vals base : fvec) : fvec :=
  match base, mask with
  | [], _ => []
  | x :: base', [] => x :: base'
  | x :: base', true :: mask' => hd None vals :: scatter mask' (tl vals) base'
  | x :: base', false :: mask' => x :: scatter mask' vals base'
  end.

Definition fl_eq_dec : forall a b : fl, {a = b} + {a <> b}.
Proof. decide equality. apply Req_dec_T. Defined.

Definition fvec_eq_dec : forall a b : fvec, {a = b} + {a <> b} :=
  list_eq_dec fl_eq_dec.

(** The finite value of an entry (0 for NaN). *)
Definition val (x : fl) : R := match x with Some a => a | None => 0 end.

(** The sum over the entries selected by a mask, over the reals. *)
Definition msumn (mask : list bool) (n : nat) (f : nat -> R) : R :=
  sumn n (fun m => if nth m mask false then f m else 0).

(* ------------------------------------------------------------------ *)
(** ** Finite entries compute as real numbers *)

Lemma fadd_Some x y a b : x = Some a -> y = Some b -> fadd x y = Some (a + b).
Proof. now intros -> ->. Qed.

Lemma fsub_Some x y a b : x = Some a -> y = Some b -> fsub x y = Some (a - b).
Proof. now intros -> ->. Qed.

Lemma fmul_Some x y a b : x = Some a -> y = Some b -> fmul x y = Some (a * b).
Proof. now intros -> ->. Qed.

Lemma fsq_Some x a : x = Some a -> fsq x = Some (a * a).
Proof. now intros ->. Qed.

Lemma fdiv_Some x y a b :
  x = Some a -> y = Some b -> b <> 0 -> fdiv x y = Some (a / b).
Proof.
  intros -> -> Hb. unfold fdiv. destruct (Req_dec_T b 0); [contradiction|auto].
Qed.


Lemma fsumn_Some n f g :
  (forall i, (i < n)%nat -> f i = Some (g i)) -> fsumn n f = Some (sumn n g).
Proof.
  induction n as [|n IH]; intros H; simpl; auto.
  rewrite IH, H by auto. reflexivity.
Qed.

Lemma fsum_map_Some (l : list nat) f g :
  (forall i, In i l -> f i = Some (g i)) ->
  fsum (map f l) = Some (Rsum (map g l)).
Proof.
  induction l as [|a l IH]; intros H; simpl; auto.
  fold (fsum (map f l)). rewrite IH by (intros; apply H; simpl; auto).
  rewrite (H a) by (simpl; auto). reflexivity.
Qed.

Lemma Rsum_filter_seq (p : nat -> bool) (g : nat -> R) k s :
  Rsum (map g (filter p (seq s k))) =
  sumn k (fun i => if p (s + i)%nat then g (s + i)%nat else 0).
Proof.
  revert s. induction k as [|k IH]; intros s; [reflexivity|].
  rewrite sumn_shift. cbn [seq filter]. rewrite Nat.add_0_r.
  assert (E : Rsum (map g (filter p (seq (S s) k))) =
              sumn k (fun i => if p (s + S i)%nat then g (s + S i)%nat else 0)).
  { rewrite IH. apply sumn_ext. intros i _.
    replace (S s + i)%nat with (s + S i)%nat by lia. reflexivity. }
  destruct (p s); cbn [map Rsum fold_right].
  - fold (Rsum (map g (filter p (seq (S s) k)))). now rewrite E.
  - rewrite E. lra.
Qed.

Lemma fmsum_Some mask n f g :
  (forall m, (m < n)%nat -> nth m mask false = true -> f m = Some (g m)) ->
  fmsum mask n f = Some (msumn mask n g).
Proof.
  intros H. unfold fmsum, msumn, selected.
  rewrite (fsum_map_Some _ f g).
  - now rewrite Rsum_filter_seq.
  - intros i Hi. apply filter_In in Hi. destruct Hi as [Hi Hm].
    apply in_seq in Hi. apply H; auto. lia.
Qed.


Lemma msumn_ext mask n f g :
  (forall m, (m < n)%nat -> nth m mask false = true -> f m = g m) ->
  msumn mask n f = msumn mask n g.
Proof.
  intros H. unfold msumn. apply sumn_ext. intros m Hm.
  destruct (nth m mask false) eqn:E; auto.
Qed.

Lemma length_fmadd a b : length (fmadd a b) = length a.
Proof. unfold fmadd. apply length_mapi. Qed.

Lemma fget2_zero_nans Y r t m :
  (t < length r)%nat -> (m < length (nth t r []))%nat ->
  fget2 (zero_nans Y r) t m =
  if isnan (fget2 Y t m) then Some 0 else fget2 r t m.
Proof.
  intros Ht Hm. unfold zero_nans, fget2 at 1.
  rewrite (nth_mapi _ _ [] []) by auto.
  rewrite (nth_mapi _ _ None None) by auto.
  reflexivity.
Qed.

Lemma length_zero_nans Y r : length (zero_nans Y r) = length r.
Proof. unfold zero_nans. apply length_mapi. Qed.

Lemma length_row_zero_nans Y r t :
  length (nth t (zero_nans Y r) []) = length (nth t r []).
Proof.
  unfold zero_nans.
  destruct (Nat.lt_ge_cases t (length r)) as [Ht|Ht].
  - rewrite (nth_mapi _ _ [] []) by auto. apply length_mapi.
  - rewrite (@nth_overflow _ (mapi _ _) t []), (@nth_overflow _ _ t []);
      rewrite ?length_mapi; auto.
Qed.

Lemma zero_nans_idem Y r : zero_nans Y (zero_nans Y r) = zero_nans Y r.
Proof.
  apply nth_ext with (d := []) (d' := []); [now rewrite !length_zero_nans|].
  intros t Ht. rewrite !length_zero_nans in Ht.
  apply nth_ext with (d := None) (d' := None);
    [now rewrite !length_row_zero_nans|].
  intros m Hm. rewrite !length_row_zero_nans in Hm.
  change (fget2 (zero_nans Y (zero_nans Y r)) t m = fget2 (zero_nans Y r) t m).
  rewrite (@fget2_zero_nans Y (zero_nans Y r))
    by (rewrite ?length_zero_nans, ?length_row_zero_nans; auto).
  rewrite fget2_zero_nans by auto.
  destruct (isnan (fget2 Y t m)); reflexivity.
Qed.

(* ================================================================== *)
(** * The sample-based engine ([coloc/independent_model2.py],
      class [IndependentFactorSER]) *)
(* ================================================================== *)

Module IndependentFactorSER.

(** [self.dims]: N variants, M samples, T outcome channels, K components. *)
Record dims_t := { dim_N : nat; dim_M : nat; dim_T : nat; dim_K : nat }.

(** The attributes of an [IndependentFactorSER] object.  [covariates] holds,
    per outcome channel, the values of the covariate design (covariates by
    samples); [sample_covariate_map] marks, per channel, the samples the
    design has a column for.  Identifiers and [run_time] are left out. *)
Record model := {
  X : fmat;                                  (* N x M *)
  Y : fmat;                                  (* T x M, NaN = missing *)
  covariates : option (list fmat);
  sample_covariate_map : list (list bool);   (* T x M *)
  cov_weights : list fvec;
  dims : dims_t;
  prior_precision : fmat;                    (* T x K *)
  prior_pi : fvec;                           (* N *)
  weight_means : ften;                       (* T x K x N *)
  weight_vars : ften;                        (* T x K x N *)
  pi : fmat;                                 (* K x N *)
  a : R;
  b : R;
  weight_precision_a : fmat;                 (* T x K *)
  weight_precision_b : fmat;                 (* T x K *)
  c : R;
  d : R;
  tissue_precision_a : fvec;                 (* T *)
  tissue_precision_b : fvec;                 (* T *)
  elbos : list fl;
  tolerance : R
}.

Definition dN (s : model) : nat := dim_N (dims s).
Definition dM (s : model) : nat := dim_M (dims s).
Definition dT (s : model) : nat := dim_T (dims s).
Definition dK (s : model) : nat := dim_K (dims s).

(** Attribute stores. *)
Definition set_weights (wm wv : ften) (s : model) : model :=
  Build_model (X s) (Y s) (covariates s) (sample_covariate_map s)
    (cov_weights s) (dims s) (prior_precision s) (prior_pi s) wm wv (pi s)
    (a s) (b s) (weight_precision_a s) (weight_precision_b s) (c s) (d s)
    (tissue_precision_a s) (tissue_precision_b s) (elbos s) (tolerance s).

Definition set_pi (v : fmat) (s : model) : model :=
  Build_model (X s) (Y s) (covariates s) (sample_covariate_map s)
    (cov_weights s) (dims s) (prior_precision s) (prior_pi s)
    (weight_means s) (weight_vars s) v
    (a s) (b s) (weight_precision_a s) (weight_precision_b s) (c s) (d s)
    (tissue_precision_a s) (tissue_precision_b s) (elbos s) (tolerance s).

Definition set_weight_precision (pa pb : fmat) (s : model) : model :=
  Build_model (X s) (Y s) (covariates s) (sample_covariate_map s)
    (cov_weights s) (dims s) (prior_precision s) (prior_pi s)
    (weight_means s) (weight_vars s) (pi s)
    (a s) (b s) pa pb (c s) (d s)
    (tissue_precision_a s) (tissue_precision_b s) (elbos s) (tolerance s).

Definition set_tissue_precision (pa pb : fvec) (s : model) : model :=
  Build_model (X s) (Y s) (covariates s) (sample_covariate_map s)
    (cov_weights s) (dims s) (prior_precision s) (prior_pi s)
    (weight_means s) (weight_vars s) (pi s)
    (a s) (b s) (weight_precision_a s) (weight_precision_b s) (c s) (d s)
    pa pb (elbos s) (tolerance s).

(** [expected_tissue_precision] and [expected_weight_precision]. *)
Definition expected_tissue_precision (s : model) : fvec :=
  mapi (fun t x => fdiv x (fget (tissue_precision_b s) t))
       (tissue_precision_a s).

Definition expected_weight_precision (s : model) : fmat :=
  mapi (fun t row =>
          mapi (fun k x => fdiv x (fget2 (weight_precision_b s) t k)) row)
       (weight_precision_a s).

(** [expected_effects]: [einsum('ijk,jk->ik', weight_means, pi)]. *)
Definition expected_effects (s : model) : fmat :=
  tab (dT s) (fun t =>
    tab (dN s) (fun n =>
      fsumn (dK s) (fun k =>
        fmul (fget3 (weight_means s) t k n) (fget2 (pi s) k n)))).

(** [_get_mask(tissue)] and [_get_diag(tissue)].  Both are memoised on the
    tissue alone; [X] and [Y] are never written, so the memo is not
    observable and the functions are embedded as they compute. *)
Definition _get_mask (s : model) (tissue : nat) : list bool :=
  map (fun y => negb (isnan y)) (nth tissue (Y s) []).

Definition _get_diag (s : model) (tissue : nat) : fvec :=
  tab (dN s) (fun n =>
    fmsum (_get_mask s tissue) (dM s)
      (fun m => fmul (fget2 (X s) n m) (fget2 (X s) n m))).

(** The bodies of [_compute_first_moment_hash] and
    [_compute_second_moment_hash], read from the attributes at the time of
    the call. *)
Definition _compute_first_moment_hash (s : model) (component : nat) : fmat :=
  tab (dT s) (fun t =>
    tab (dM s) (fun m =>
      fsumn (dN s) (fun n =>
        fmul (fmul (fget2 (pi s) component n)
                   (fget3 (weight_means s) t component n))
             (fget2 (X s) n m)))).

Definition _compute_second_moment_hash (s : model) (component : nat) : fmat :=
  tab (dT s) (fun t =>
    tab (dM s) (fun m =>
      fsumn (dN s) (fun n =>
        fmul (fmul (fget2 (pi s) component n)
                   (fadd (fsq (fget3 (weight_means s) t component n))
                         (fget3 (weight_vars s) t component n)))
             (fsq (fget2 (X s) n m))))).

(** The cache keys: [(pi @ weight.T).tobytes()] for the first moment and
    [(pi @ (weight + var**2).T).tobytes()] for the second. *)
Definition first_moment_key (s : model) (component : nat) : fvec :=
  tab (dT s) (fun t =>
    fsumn (dN s) (fun n =>
      fmul (fget2 (pi s) component n) (fget3 (weight_means s) t component n))).

Definition second_moment_key (s : model) (component : nat) : fvec :=
  tab (dT s) (fun t =>
    fsumn (dN s) (fun n =>
      fmul (fget2 (pi s) component n)
           (fadd (fget3 (weight_means s) t component n)
                 (fsq (fget3 (weight_vars s) t component n))))).

Definition key_eq_dec : forall x y : nat * fvec, {x = y} + {x <> y}.
Proof. decide equality; [apply fvec_eq_dec | apply Nat.eq_dec]. Defined.

(** The object, its two memo tables ([lru_cache()] has [maxsize=128], the
    second-moment table [maxsize=2**5]) and the arrays a caller holds
    references to. *)
Record world := {
  self : model;
  first_moment_cache : lru (nat * fvec) fmat;
  second_moment_cache : lru (nat * fvec) fmat;
  heap : list fmat
}.

Definition with_self (s : model) (w : world) : world :=
  Build_world s (first_moment_cache w) (second_moment_cache w) (heap w).

(** References to arrays. *)
Definition read (w : world) (l : nat) : fmat := nth l (heap w) [].

Definition write (l : nat) (v : fmat) (w : world) : world :=
  Build_world (self w) (first_moment_cache w) (second_moment_cache w)
    (upd l v (heap w)).

Definition alloc (v : fmat) (w : world) : nat * world :=
  (length (heap w),
   Build_world (self w) (first_moment_cache w) (second_moment_cache w)
     (heap w ++ [v])).

(** [compute_first_moment(component)] and [compute_second_moment(component)]. *)
Definition compute_first_moment (component : nat) (w : world) : fmat * world :=
  let h := first_moment_key (self w) component in
  let r := lru_call key_eq_dec 128 (component, h)
             (fun _ => _compute_first_moment_hash (self w) component)
             (first_moment_cache w) in
  (fst r, Build_world (self w) (snd r) (second_moment_cache w) (heap w)).

Definition compute_second_moment (component : nat) (w : world) : fmat * world :=
  let h := second_moment_key (self w) component in
  let r := lru_call key_eq_dec 32 (component, h)
             (fun _ => _compute_second_moment_hash (self w) component)
             (second_moment_cache w) in
  (fst r, Build_world (self w) (first_moment_cache w) (snd r) (heap w)).

(** [[f(k) for k in ks]] for a memoised [f]. *)
Fixpoint collect (f : nat -> world -> fmat * world) (ks : list nat) (w : world)
  : list fmat * world :=
  match ks with
  | [] => ([], w)
  | k :: ks' =>
      let (v, w1) := f k w in
      let (vs, w2) := collect f ks' w1 in
      (v :: vs, w2)
  end.

(** [_compute_covariate_prediction(compute=True)]. *)
Definition _compute_covariate_prediction (s : model) (compute : bool) : fmat :=
  match covariates s with
  | Some cov =>
      if compute then
        mapi (fun i row =>
                let map_i := nth i (sample_covariate_map s) [] in
                let design := nth i cov [] in
                let wts := nth i (cov_weights s) [] in
                scatter map_i
                  (tab (length (filter (fun x => x) map_i)) (fun j =>
                     fsumn (length design) (fun q =>
                       fmul (fget wts q) (fget2 design q j))))
                  row)
             (fzeros_like (Y s))
      else fzeros_like (Y s)
  | None => fzeros_like (Y s)
  end.

(** [compute_prediction(k=None, use_covariates=True)]. *)
Definition compute_prediction (k : option nat) (use_covariates : bool)
  (w : world) : fmat * world :=
  let s := self w in
  let prediction :=
    fmadd (_compute_covariate_prediction s use_covariates)
      (tab (dT s) (fun t =>
         tab (dM s) (fun m =>
           fsumn (dN s) (fun n =>
             fmul (fget2 (expected_effects s) t n) (fget2 (X s) n m))))) in
  match k with
  | None => (prediction, w)
  | Some k =>
      let (fm, w1) := compute_first_moment k w in
      (fmsub prediction fm, w1)
  end.

(** [compute_residual(k=None, use_covariates=True)]. *)
Definition compute_residual (k : option nat) (use_covariates : bool)
  (w : world) : fmat * world :=
  let (prediction, w1) := compute_prediction k use_covariates w in
  (fmsub (Y (self w)) prediction, w1).

(** The first statement of the three ERSS functions:
    [np.sum(residual[tissue, mask]**2)]. *)
Definition residual_ss (s : model) (residual : fmat) (tissue : nat) : fl :=
  fmsum (_get_mask s tissue) (dM s) (fun m => fsq (fget2 residual tissue m)).

(** The loop body of [_compute_ERSS_summary] for outcome channel [t]. *)
Definition ERSS_summary_tissue (s : model) (t : nat) : fl :=
  let mask := _get_mask s t in
  let diag := _get_diag s t in
  let YX n := fmsum mask (dM s) (fun m =>
                fmul (fget2 (Y s) t m) (fget2 (X s) n m)) in
  let XX n n' := fmsum mask (dM s) (fun m =>
                   fmul (fget2 (X s) n m) (fget2 (X s) n' m)) in
  let pt1 := fsumn (dK s) (fun k => fsumn (dN s) (fun n =>
               fmul (fmul (fadd (fsq (fget3 (weight_means s) t k n))
                                (fget3 (weight_vars s) t k n))
                          (fget2 (pi s) k n))
                    (fget diag n))) in
  let mu_pi k n := fmul (fget3 (weight_means s) t k n) (fget2 (pi s) k n) in
  let pt2 k l := fsumn (dN s) (fun n' =>
                   fmul (fsumn (dN s) (fun n => fmul (mu_pi k n) (XX n n')))
                        (mu_pi l n')) in
  let e0 := fmsum mask (dM s) (fun m =>
              fmul (fget2 (Y s) t m) (fget2 (Y s) t m)) in
  let e1 := fadd e0
              (fmul (Some (-2))
                 (fsumn (dN s) (fun n =>
                    fmul (YX n) (fsumn (dK s) (fun k => mu_pi k n))))) in
  fadd e1
    (fsub (fadd pt1 (fsumn (dK s) (fun k => fsumn (dK s) (fun l => pt2 k l))))
          (fsumn (dK s) (fun k => pt2 k k))).

(** [_compute_ERSS_summary()].  The residual and the summed first moments
    it computes first are not used; the calls still fill the memo table. *)
Definition _compute_ERSS_summary (w : world) : fvec * world :=
  let (_, w1) := compute_residual None true w in
  let (_, w2) := collect compute_first_moment (seq 0 (dK (self w1))) w1 in
  (tab (dT (self w)) (fun t => ERSS_summary_tissue (self w) t), w2).

(** [_compute_ERSS(residual=None)]. *)
Definition _compute_ERSS (residual : option fmat) (w : world) : fvec * world :=
  let s := self w in
  let (res, w0) :=
    match residual with
    | None => compute_residual None true w
    | Some r => (r, w)
    end in
  let (fms, w1) := collect compute_first_moment (seq 0 (dK s)) w0 in
  let (sms, w2) := collect compute_second_moment (seq 0 (dK s)) w1 in
  let mu t m := fsumn (dK s) (fun k => fsq (fget2 (nth k fms []) t m)) in
  let mu2 t m := fsumn (dK s) (fun k => fget2 (nth k sms []) t m) in
  (tab (dT s) (fun t =>
     fadd (residual_ss s res t)
          (fsumn (dM s) (fun m =>
             fmul (fsub (mu2 t m) (mu t m))
                  (of_bool (nth m (_get_mask s t) false))))),
   w2).

(** [_compute_ERSS3(residual=None)]. *)
Fixpoint ERSS3_loop (s : model) (ks : list nat) (ERSS : fvec) (w : world)
  : fvec * world :=
  match ks with
  | [] => (ERSS, w)
  | k :: ks' =>
      let (mu, w1) := compute_first_moment k w in
      let (mu2, w2) := compute_second_moment k w1 in
      ERSS3_loop s ks'
        (mapi (fun t e =>
                 fadd e
                   (fsub (fmsum (_get_mask s t) (dM s) (fun m => fget2 mu2 t m))
                         (fmsum (_get_mask s t) (dM s)
                            (fun m => fsq (fget2 mu t m)))))
              ERSS)
        w2
  end.

Definition _compute_ERSS3 (residual : option fmat) (w : world) : fvec * world :=
  let s := self w in
  let (res, w0) :=
    match residual with
    | None => compute_residual None true w
    | Some r => (r, w)
    end in
  ERSS3_loop s (seq 0 (dK s)) (tab (dT s) (fun t => residual_ss s res t)) w0.

(** The residual argument of the update rules: a reference to an array of
    the caller, or ([None]) a residual computed afresh.  Either way the
    entries at the NaN positions of [Y] are then overwritten with zero, in
    place. *)
Definition take_residual (k : nat) (residual : option nat) (w : world)
  : fmat * world :=
  match residual with
  | None =>
      let (r, w1) := compute_residual (Some k) true w in
      (zero_nans (Y (self w)) r, w1)
  | Some l =>
      let r := zero_nans (Y (self w)) (read w l) in
      (r, write l r w)
  end.

(** [r_k @ self.X.T]. *)
Definition residual_dot (s : model) (r_k : fmat) (t n : nat) : fl :=
  fsumn (dM s) (fun m => fmul (fget2 r_k t m) (fget2 (X s) n m)).

(** The arrays [precision], [variance] and [mean] of
    [_update_weight_component]. *)
Definition weight_precision (s : model) (k t n : nat) : fl :=
  fadd (fmul (fget (_get_diag s t) n) (fget (expected_tissue_precision s) t))
       (fget2 (expected_weight_precision s) t k).

Definition weight_variance (s : model) (k t n : nat) : fl :=
  fdiv (Some 1) (weight_precision s k t n).

Definition weight_mean (s : model) (r_k : fmat) (k t n : nat) : fl :=
  fmul (fmul (weight_variance s k t n) (fget (expected_tissue_precision s) t))
       (residual_dot s r_k t n).

Definition store_weights (s : model) (r_k : fmat) (k : nat) : model :=
  set_weights
    (mapi (fun t rows => upd k (tab (dN s) (weight_mean s r_k k t)) rows)
          (weight_means s))
    (mapi (fun t rows => upd k (tab (dN s) (weight_variance s k t)) rows)
          (weight_vars s))
    s.

(** [_update_weight_component(k, residual=None)].  [None] is an
    [IndexError]: [k] is not a component index. *)
Definition _update_weight_component (k : nat) (residual : option nat)
  (w : world) : option world :=
  if (k <? dK (self w))%nat then
    let (r_k, w1) := take_residual k residual w in
    Some (with_self (store_weights (self w1) r_k k) w1)
  else None.

(** [update_ARD_weights(k)]. *)
Definition update_ARD_weights (k : nat) (s : model) : model :=
  let second_moment t :=
    fsumn (dN s) (fun n =>
      fmul (fadd (fget3 (weight_vars s) t k n)
                 (fsq (fget3 (weight_means s) t k n)))
           (fget2 (pi s) k n)) in
  set_weight_precision
    (mapi (fun _ row => upd k (Some (a s + 0.5)) row) (weight_precision_a s))
    (mapi (fun t row =>
             upd k (fadd (Some (b s)) (fdiv (second_moment t) (Some 2))) row)
          (weight_precision_b s))
    s.

(** The normalisation at the end of [_update_pi_component]. *)
Definition fsoftmax (x : fvec) : fvec :=
  let e := map (fun v => fexp (fsub v (fvmax x))) x in
  map (fun v => fdiv v (fsum e)) e.

Section Likelihood.

(** [normal_kl] and [categorical_kl] of [coloc/kls.py] and scipy's
    [digamma] are not part of the sources at hand: parameters. *)
Variable normal_kl : fl -> fl -> fl -> fl -> fl.
Variable categorical_kl : fvec -> fvec -> fl.
Variable digamma : R -> R.

(** The summand [tmp1 + tmp2 + tmp3] of [_update_pi_component] for outcome
    channel [t] and variant [n]. *)
Definition pi_score_tissue (s : model) (r_k : fmat) (k t n : nat) : fl :=
  let E_tau := fget (expected_tissue_precision s) t in
  let wm := fget3 (weight_means s) t k n in
  let wv := fget3 (weight_vars s) t k n in
  let diag := fget (_get_diag s t) n in
  let tmp1 :=
    fmul (fmul (Some (-0.5)) E_tau)
         (fadd (fmul (fsumn (dM s) (fun m =>
                        fmul (fmul (Some (-2)) (fget2 r_k t m))
                             (fget2 (X s) n m)))
                     wm)
               (fmul (fsq wm) diag)) in
  let tmp2 := fmul (fmul (fmul (Some (-0.5)) E_tau) wv) diag in
  let tmp3 :=
    fmul (Some (-1))
         (normal_kl wm wv (Some 0)
            (fdiv (Some 1) (fget2 (expected_weight_precision s) t k))) in
  fadd (fadd tmp1 tmp2) tmp3.

(** [pi_k.sum(0)] followed by [pi_k += np.log(self.prior_pi)]. *)
Definition pi_score (s : model) (r_k : fmat) (k : nat) : fvec :=
  tab (dN s) (fun n =>
    fadd (fsumn (dT s) (fun t => pi_score_tissue s r_k k t n))
         (flog (fget (prior_pi s) n))).

(** [_update_pi_component(k, residual=None)].  [None] is an exception: an
    [IndexError] for a [k] that is no component index, the [ValueError] of
    [max()] on an empty score vector. *)
Definition _update_pi_component (k : nat) (residual : option nat) (w : world)
  : option world :=
  if (k <? dK (self w))%nat then
    let (r_k, w1) := take_residual k residual w in
    let s := self w1 in
    if (dN s =? 0)%nat then None
    else Some (with_self (set_pi (upd k (fsoftmax (pi_score s r_k k)) (pi s)) s)
                 w1)
  else None.

(** [update_tissue_variance(residual=None)]. *)
Definition update_tissue_variance (residual : option fmat) (w : world) : world :=
  let (res, w0) :=
    match residual with
    | None => compute_residual None true w
    | Some r => (r, w)
    end in
  let (ERSS, w1) := _compute_ERSS (Some res) w0 in
  let s := self w1 in
  let n_samples t := INR (length (filter (fun x => x) (_get_mask s t))) in
  with_self
    (set_tissue_precision
       (tab (dT s) (fun t => Some (c s + n_samples t / 2)))
       (tab (dT s) (fun t => fadd (Some (d s)) (fdiv (fget ERSS t) (Some 2))))
       s)
    w1.

(** The summand of the expected log-likelihood of [compute_elbo] for
    outcome channel [tissue]. *)
Definition elbo_tissue_term (s : model) (ERSS : fvec) (tissue : nat) : fl :=
  let n := Some (INR (length (filter (fun x => x) (_get_mask s tissue)))) in
  let E_ln_tau :=
    fsub (match fget (tissue_precision_a s) tissue with
          | Some x => Some (digamma x)
          | None => None
          end)
         (flog (fget (tissue_precision_b s) tissue)) in
  let E_tau := fget (expected_tissue_precision s) tissue in
  fsub (fadd (fmul (fmul (Some (-0.5)) n) (Some (ln (2 * PI))))
             (fmul (fmul (Some 0.5) n) E_ln_tau))
       (fmul (fmul (Some 0.5) E_tau) (fget ERSS tissue)).

(** [compute_elbo(residual=None)]. *)
Definition compute_elbo (residual : option fmat) (w : world) : fl * world :=
  let (ERSS, w1) := _compute_ERSS residual w in
  let s := self w1 in
  let expected_conditional := fsumn (dT s) (elbo_tissue_term s ERSS) in
  let KL_weights :=
    fsumn (dT s) (fun t => fsumn (dK s) (fun k => fsumn (dN s) (fun n =>
      fmul (normal_kl (fget3 (weight_means s) t k n)
                      (fget3 (weight_vars s) t k n) (Some 0)
                      (fdiv (Some 1) (fget2 (expected_weight_precision s) t k)))
           (fget2 (pi s) k n)))) in
  let KL_pi :=
    fsumn (dK s) (fun k => categorical_kl (nth k (pi s) []) (prior_pi s)) in
  (fsub expected_conditional (fadd (fadd (Some 0) KL_weights) KL_pi), w1).

(** The body of the component loop of [fit]; [residual] is the reference
    held by the local variable of that name.  Each
    [residual = residual +/- ...] binds the variable to a new array. *)
Definition fit_component (update_weights update_pi ARD_weights : bool)
  (l : nat) (rw : nat * world) : option (nat * world) :=
  let (residual, w) := rw in
  let (fm, w1) := compute_first_moment l w in
  let (residual1, w2) := alloc (fmadd (read w1 residual) fm) w1 in
  let w3 := if ARD_weights then with_self (update_ARD_weights l (self w2)) w2
            else w2 in
  match (if update_weights then _update_weight_component l (Some residual1) w3
         else Some w3) with
  | None => None
  | Some w4 =>
      match (if update_pi then _update_pi_component l (Some residual1) w4
             else Some w4) with
      | None => None
      | Some w5 =>
          let (fm', w6) := compute_first_moment l w5 in
          Some (alloc (fmsub (read w6 residual1) fm') w6)
      end
  end.

Fixpoint fit_sweep (update_weights update_pi ARD_weights : bool)
  (components : list nat) (rw : nat * world) : option (nat * world) :=
  match components with
  | [] => Some rw
  | l :: ls =>
      match fit_component update_weights update_pi ARD_weights l rw with
      | Some rw' => fit_sweep update_weights update_pi ARD_weights ls rw'
      | None => None
      end
  end.

End Likelihood.

(** [IndependentFactorSER.__init__(X, Y, K, covariates, prior_pi,
    tolerance)] for two-dimensional [X] and [Y] (the argument
    [prior_variance] is not used by the source).  [covariates] gives, per
    outcome channel, the design values and the samples it covers.  [None]
    is the [KeyError] of a channel without an entry in [covariates]; no
    other statement can raise. *)
Definition __init__ (X Y : fmat) (K : nat)
  (covariates : option (list (fmat * list bool))) (prior_pi : option fvec)
  (tolerance : R) : option model :=
  let T := length Y in
  let M := length (hd [] Y) in
  let N := length X in
  let uniform := fdiv (Some 1) (Some (INR N)) in
  let build cov smap cw :=
    Build_model X Y cov smap cw (Build_dims_t N M T K)
      (tab T (fun _ => tab K (fun _ => Some 1)))
      (match prior_pi with Some p => p | None => tab N (fun _ => uniform) end)
      (tab T (fun _ => tab K (fun _ => tab N (fun _ => Some 0))))
      (tab T (fun _ => tab K (fun _ => tab N (fun _ => Some 1))))
      (tab K (fun _ => tab N (fun _ => uniform)))
      1e-6 1e-6
      (tab T (fun _ => tab K (fun _ => Some 1)))
      (tab T (fun _ => tab K (fun _ => Some 1)))
      1e-6 1e-6
      (tab T (fun _ => Some 1)) (tab T (fun _ => Some 1))
      [] tolerance in
  match covariates with
  | None => Some (build None [] [])
  | Some cov =>
      if (length cov <? T)%nat then None
      else Some (build (Some (map fst cov)) (map snd cov)
                   (map (fun c => tab (length (fst c)) (fun _ => Some 0)) cov))
  end.

End IndependentFactorSER.

(* ================================================================== *)
(** * Facts about the sample-based engine *)
(* ================================================================== *)

Module IndependentFactorSER_facts.
Import IndependentFactorSER.

(** ** Memoised moments *)

(** A memo table is current for a state when every entry stored under the
    key the state produces holds the value the state produces. *)
Definition first_moments_current (s : model) (c : lru (nat * fvec) fmat) : Prop :=
  lru_all (fun key v =>
             snd key = first_moment_key s (fst key) ->
             v = _compute_first_moment_hash s (fst key)) c.

Definition second_moments_current (s : model) (c : lru (nat * fvec) fmat) : Prop :=
  lru_all (fun key v =>
             snd key = second_moment_key s (fst key) ->
             v = _compute_second_moment_hash s (fst key)) c.

Definition caches_current (w : world) : Prop :=
  first_moments_current (self w) (first_moment_cache w) /\
  second_moments_current (self w) (second_moment_cache w).

Lemma lru_all_nil (Key Val : Type) (P : Key -> Val -> Prop) : lru_all P [].
Proof. intros k v []. Qed.

Lemma caches_current_empty s h : caches_current (Build_world s [] [] h).
Proof. split; apply lru_all_nil. Qed.

Lemma compute_first_moment_current k w :
  caches_current w ->
  fst (compute_first_moment k w) = _compute_first_moment_hash (self w) k /\
  caches_current (snd (compute_first_moment k w)) /\
  self (snd (compute_first_moment k w)) = self w /\
  heap (snd (compute_first_moment k w)) = heap w.
Proof.
  intros [H1 H2]. unfold compute_first_moment. cbn [fst snd self heap].
  destruct (lru_call_all (P := fun key v =>
              snd key = first_moment_key (self w) (fst key) ->
              v = _compute_first_moment_hash (self w) (fst key))
              key_eq_dec 128 (k, first_moment_key (self w) k)
              (fun _ => _compute_first_moment_hash (self w) k)
              H1) as [Hv Hc]; [reflexivity|].
  repeat split; auto.
Qed.

Lemma compute_second_moment_current k w :
  caches_current w ->
  fst (compute_second_moment k w) = _compute_second_moment_hash (self w) k /\
  caches_current (snd (compute_second_moment k w)) /\
  self (snd (compute_second_moment k w)) = self w /\
  heap (snd (compute_second_moment k w)) = heap w.
Proof.
  intros [H1 H2]. unfold compute_second_moment. cbn [fst snd self heap].
  destruct (lru_call_all (P := fun key v =>
              snd key = second_moment_key (self w) (fst key) ->
              v = _compute_second_moment_hash (self w) (fst key))
              key_eq_dec 32 (k, second_moment_key (self w) k)
              (fun _ => _compute_second_moment_hash (self w) k)
              H2) as [Hv Hc]; [reflexivity|].
  repeat split; auto.
Qed.

(** Whatever the tables hold, a memoised call leaves the object and the
    caller's arrays alone. *)
Lemma self_compute_first_moment k w :
  self (snd (compute_first_moment k w)) = self w /\
  heap (snd (compute_first_moment k w)) = heap w.
Proof. split; reflexivity. Qed.

Lemma self_compute_second_moment k w :
  self (snd (compute_second_moment k w)) = self w /\
  heap (snd (compute_second_moment k w)) = heap w.
Proof. split; reflexivity. Qed.

Lemma collect_first_current ks w :
  caches_current w ->
  fst (collect compute_first_moment ks w) =
    map (_compute_first_moment_hash (self w)) ks /\
  caches_current (snd (collect compute_first_moment ks w)) /\
  self (snd (collect compute_first_moment ks w)) = self w.
Proof.
  revert w. induction ks as [|k ks IH]; intros w Hc; cbn [collect map].
  { split; [reflexivity | split; [exact Hc | reflexivity]]. }
  destruct (compute_first_moment_current k Hc) as (Hv & Hc1 & Hs & _).
  destruct (compute_first_moment k w) as [v w1]. cbn [fst snd] in *. subst v.
  destruct (IH w1 Hc1) as (Hvs & Hc2 & Hs2).
  destruct (collect compute_first_moment ks w1) as [vs w2]. cbn [fst snd] in *.
  subst vs. rewrite Hs. split; [reflexivity | split; [exact Hc2 | congruence]].
Qed.

Lemma collect_second_current ks w :
  caches_current w ->
  fst (collect compute_second_moment ks w) =
    map (_compute_second_moment_hash (self w)) ks /\
  caches_current (snd (collect compute_second_moment ks w)) /\
  self (snd (collect compute_second_moment ks w)) = self w.
Proof.
  revert w. induction ks as [|k ks IH]; intros w Hc; cbn [collect map].
  { split; [reflexivity | split; [exact Hc | reflexivity]]. }
  destruct (compute_second_moment_current k Hc) as (Hv & Hc1 & Hs & _).
  destruct (compute_second_moment k w) as [v w1]. cbn [fst snd] in *. subst v.
  destruct (IH w1 Hc1) as (Hvs & Hc2 & Hs2).
  destruct (collect compute_second_moment ks w1) as [vs w2]. cbn [fst snd] in *.
  subst vs. rewrite Hs. split; [reflexivity | split; [exact Hc2 | congruence]].
Qed.

Lemma nth_map_seq (A : Type) (f : nat -> A) n k d :
  (k < n)%nat -> nth k (map f (seq 0 n)) d = f k.
Proof. intros H. apply (nth_tab f d H). Qed.

(** ** The three ERSS formulas over the reals *)

Lemma msumn_ind mask n f :
  msumn mask n f = sumn n (fun m => (if nth m mask false then 1 else 0) * f m).
Proof.
  unfold msumn. apply sumn_ext. intros m _. destruct (nth m mask false); lra.
Qed.

Lemma sumn_mul n m u v :
  sumn n u * sumn m v = sumn n (fun i => sumn m (fun j => u i * v j)).
Proof.
  rewrite <- sumn_scal_r. apply sumn_ext. intros i _. now rewrite sumn_scal.
Qed.

Lemma fold_left_add (h : nat -> R) n e :
  fold_left (fun e k => e + h k) (seq 0 n) e = e + sumn n h.
Proof.
  induction n as [|n IH]; [simpl; lra|].
  rewrite seq_S, fold_left_app. cbn [fold_left sumn]. rewrite IH.
  rewrite Nat.add_0_l. lra.
Qed.

Section ERSS_algebra.

(** One outcome channel: [y] its observations, [mask] the samples observed,
    [x n m] the genotypes, [p k n], [w k n], [v k n] the assignment
    probabilities, weight means and weight variances of the components. *)
Variables (N M K : nat) (mask : list bool).
Variables (y : nat -> R) (x : nat -> nat -> R) (p w v : nat -> nat -> R).

Definition ind (m : nat) : R := if nth m mask false then 1 else 0.

(** First and second moment of component [k] at sample [m]. *)
Definition rfm k m := sumn N (fun n => p k n * w k n * x n m).
Definition rsm k m :=
  sumn N (fun n => p k n * (w k n * w k n + v k n) * (x n m * x n m)).

(** Expected effect of variant [n] and the prediction at sample [m]. *)
Definition ree n := sumn K (fun k => w k n * p k n).
Definition rpred m := 0 + sumn N (fun n => ree n * x n m).

(** The correction [_compute_ERSS] adds to the residual sum of squares
    [base], summed sample by sample. *)
Definition rcorrection : R :=
  sumn M (fun m =>
    (sumn K (fun k => rsm k m) - sumn K (fun k => rfm k m * rfm k m))
    * (if nth m mask false then 1 else 0)).

Definition rERSS_from (base : R) : R := base + rcorrection.

(** The correction [_compute_ERSS3] adds, summed component by component. *)
Definition rcorrection3 : R :=
  sumn K (fun k => msumn mask M (fun m => rsm k m)
                   - msumn mask M (fun m => rfm k m * rfm k m)).

Definition rERSS3_from (base : R) : R := base + rcorrection3.

(** The residual sum of squares of the model's own residual. *)
Definition rRSS : R :=
  msumn mask M (fun m => (y m - rpred m) * (y m - rpred m)).

(** [_compute_ERSS_summary]. *)
Definition rXX n n' := msumn mask M (fun m => x n m * x n' m).
Definition rmu k n := w k n * p k n.
Definition rpt2 k l :=
  sumn N (fun n' => sumn N (fun n => rmu k n * rXX n n') * rmu l n').

Definition rERSS_summary : R :=
  msumn mask M (fun m => y m * y m)
  + -2 * sumn N (fun n => msumn mask M (fun m => y m * x n m)
                          * sumn K (fun k => rmu k n))
  + (sumn K (fun k => sumn N (fun n =>
       (w k n * w k n + v k n) * p k n * msumn mask M (fun m => x n m * x n m)))
     + sumn K (fun k => sumn K (fun l => rpt2 k l))
     - sumn K (fun k => rpt2 k k)).

Definition rFt m := sumn K (fun k => rfm k m).

Lemma rpred_Ft m : rpred m = rFt m.
Proof.
  unfold rpred, rFt, ree, rfm. rewrite Rplus_0_l.
  erewrite sumn_ext; [|intros n _; rewrite <- sumn_scal_r; reflexivity].
  rewrite sumn_swap. apply sumn_ext. intros k _.
  apply sumn_ext. intros n _. ring.
Qed.

Lemma rpt2_ind k l :
  rpt2 k l = sumn M (fun m => ind m * (rfm k m * rfm l m)).
Proof.
  unfold rpt2, rXX, rfm, rmu.
  transitivity (sumn N (fun n' => sumn N (fun n => sumn M (fun m =>
     ind m * ((p k n * w k n * x n m) * (p l n' * w l n' * x n' m)))))).
  - apply sumn_ext. intros n' _.
    rewrite <- sumn_scal_r. apply sumn_ext. intros n _.
    rewrite msumn_ind. rewrite <- sumn_scal, <- sumn_scal_r.
    apply sumn_ext. intros m _. unfold ind. ring.
  - rewrite sumn_swap.
    erewrite sumn_ext; [|intros n _; rewrite sumn_swap; reflexivity].
    rewrite sumn_swap.
    apply sumn_ext. intros m _.
    rewrite sumn_mul. rewrite <- sumn_scal.
    erewrite (sumn_ext (n:=N) (fun i => ind m * sumn N _));
      [|intros n _; rewrite <- sumn_scal; reflexivity].
    rewrite sumn_swap. reflexivity.
Qed.

Lemma summary_cross :
  sumn N (fun n => msumn mask M (fun m => y m * x n m) * sumn K (fun k => rmu k n))
  = sumn M (fun m => ind m * (y m * rFt m)).
Proof.
  transitivity
    (sumn N (fun n => sumn M (fun m => ind m * (y m * (ree n * x n m))))).
  - apply sumn_ext. intros n _. rewrite msumn_ind, <- sumn_scal_r.
    apply sumn_ext. intros m _. unfold ind, ree, rmu. ring.
  - rewrite sumn_swap. apply sumn_ext. intros m _.
    rewrite <- rpred_Ft. unfold rpred. rewrite Rplus_0_l.
    rewrite <- !sumn_scal. apply sumn_ext. intros n _. ring.
Qed.

Lemma summary_pt1 :
  sumn K (fun k => sumn N (fun n =>
    (w k n * w k n + v k n) * p k n * msumn mask M (fun m => x n m * x n m)))
  = sumn M (fun m => ind m * sumn K (fun k => rsm k m)).
Proof.
  transitivity (sumn K (fun k => sumn M (fun m => ind m * rsm k m))).
  - apply sumn_ext. intros k _.
    transitivity (sumn N (fun n => sumn M (fun m =>
       ind m * (p k n * (w k n * w k n + v k n) * (x n m * x n m))))).
    + apply sumn_ext. intros n _. rewrite msumn_ind, <- sumn_scal.
      apply sumn_ext. intros m _. unfold ind. ring.
    + rewrite sumn_swap. apply sumn_ext. intros m _.
      unfold rsm. now rewrite sumn_scal.
  - rewrite sumn_swap. apply sumn_ext. intros m _. now rewrite sumn_scal.
Qed.

Lemma summary_pt2_all :
  sumn K (fun k => sumn K (fun l => rpt2 k l))
  = sumn M (fun m => ind m * (rFt m * rFt m)).
Proof.
  transitivity (sumn K (fun k => sumn K (fun l =>
                  sumn M (fun m => ind m * (rfm k m * rfm l m))))).
  - apply sumn_ext. intros k _. apply sumn_ext. intros l _. apply rpt2_ind.
  - erewrite sumn_ext; [|intros k _; rewrite sumn_swap; reflexivity].
    rewrite sumn_swap. apply sumn_ext. intros m _.
    unfold rFt. rewrite sumn_mul, <- sumn_scal.
    apply sumn_ext. intros k _. now rewrite sumn_scal.
Qed.

Lemma summary_pt2_diag :
  sumn K (fun k => rpt2 k k)
  = sumn M (fun m => ind m * sumn K (fun k => rfm k m * rfm k m)).
Proof.
  transitivity (sumn K (fun k => sumn M (fun m => ind m * (rfm k m * rfm k m)))).
  - apply sumn_ext. intros k _. apply rpt2_ind.
  - rewrite sumn_swap. apply sumn_ext. intros m _. now rewrite sumn_scal.
Qed.

(** The summary formula is the ERSS of the residual [y - prediction]. *)
Lemma rERSS_summary_eq : rERSS_summary = rERSS_from rRSS.
Proof.
  unfold rERSS_summary, rERSS_from, rcorrection, rRSS.
  rewrite summary_cross, summary_pt1, summary_pt2_all, summary_pt2_diag.
  rewrite !msumn_ind.
  rewrite <- sumn_scal, <- !sumn_plus, <- sumn_minus, <- sumn_plus.
  apply sumn_ext. intros m _. rewrite rpred_Ft. unfold ind. ring.
Qed.

(** Summing the correction per component or per sample is the same. *)
Lemma rcorrection3_eq : rcorrection3 = rcorrection.
Proof.
  unfold rcorrection3, rcorrection.
  rewrite sumn_minus.
  rewrite !(sumn_ext _ _ (fun k _ => msumn_ind mask M _)).
  rewrite !sumn_swap with (n := K).
  rewrite <- sumn_minus. apply sumn_ext. intros m _.
  rewrite !sumn_scal. ring.
Qed.

Lemma rERSS3_eq base : rERSS3_from base = rERSS_from base.
Proof. unfold rERSS3_from, rERSS_from. now rewrite rcorrection3_eq. Qed.

End ERSS_algebra.

(** ** Regular states: the shapes of [dims], finite parameters *)

Definition fin (x : fl) : Prop := x = Some (val x).

(** [Y] has the shape T x M (its entries may be NaN); the genotypes and the
    variational parameters are finite. *)
Record regular (s : model) : Prop := {
  reg_Y_rows : length (Y s) = dT s;
  reg_Y_cols : forall t, (t < dT s)%nat -> length (nth t (Y s) []) = dM s;
  reg_X : forall n m, (n < dN s)%nat -> (m < dM s)%nat -> fin (fget2 (X s) n m);
  reg_pi : forall k n, (k < dK s)%nat -> (n < dN s)%nat -> fin (fget2 (pi s) k n);
  reg_wm : forall t k n, (t < dT s)%nat -> (k < dK s)%nat -> (n < dN s)%nat ->
             fin (fget3 (weight_means s) t k n);
  reg_wv : forall t k n, (t < dT s)%nat -> (k < dK s)%nat -> (n < dN s)%nat ->
             fin (fget3 (weight_vars s) t k n)
}.

(** The real-valued reading of a regular state. *)
Definition rY s t m := val (fget2 (Y s) t m).
Definition rX s n m := val (fget2 (X s) n m).
Definition rpi s k n := val (fget2 (pi s) k n).
Definition rwm s t k n := val (fget3 (weight_means s) t k n).
Definition rwv s t k n := val (fget3 (weight_vars s) t k n).

Lemma mask_nth s t m :
  regular s -> (t < dT s)%nat -> (m < dM s)%nat ->
  nth m (_get_mask s t) false = negb (isnan (fget2 (Y s) t m)).
Proof.
  intros H Ht Hm. unfold _get_mask, fget2.
  rewrite (nth_indep _ false (negb (isnan None)))
    by (rewrite length_map, (reg_Y_cols H) by auto; auto).
  exact (map_nth (fun y => negb (isnan y)) (nth t (Y s) []) None m).
Qed.

Lemma mask_fin s t m :
  regular s -> (t < dT s)%nat -> (m < dM s)%nat ->
  nth m (_get_mask s t) false = true -> fget2 (Y s) t m = Some (rY s t m).
Proof.
  intros H Ht Hm. rewrite mask_nth by auto. unfold rY.
  destruct (fget2 (Y s) t m); simpl; [reflexivity|discriminate].
Qed.

Ltac fin_leaf H :=
  first
  [ reflexivity
  | apply (reg_X H); assumption
  | apply (reg_pi H); assumption
  | apply (reg_wm H); assumption
  | apply (reg_wv H); assumption
  | apply (mask_fin H); assumption ].

(** Turns a goal [e = Some r], [e] built from finite entries, into the
    matching equations on its leaves. *)
Ltac reflect H :=
  repeat first
  [ fin_leaf H
  | apply fadd_Some
  | apply fsub_Some
  | apply fmul_Some
  | apply fsq_Some
  | (apply fsumn_Some; intros ? ?)
  | (apply fmsum_Some; intros ? ? ?) ].

Lemma fget2_tab T M (f : nat -> nat -> fl) t m :
  (t < T)%nat -> (m < M)%nat ->
  fget2 (tab T (fun t => tab M (f t))) t m = f t m.
Proof. intros Ht Hm. unfold fget2. now rewrite !nth_tab. Qed.

Lemma fget2_fmsub u v t m :
  (t < length u)%nat -> (m < length (nth t u []))%nat ->
  fget2 (fmsub u v) t m = fsub (fget2 u t m) (fget2 v t m).
Proof.
  intros Ht Hm. unfold fmsub, fget2 at 1.
  rewrite (nth_mapi _ _ [] []) by auto.
  now rewrite (nth_mapi _ _ None None) by auto.
Qed.

Lemma fget2_fmadd u v t m :
  (t < length u)%nat -> (m < length (nth t u []))%nat ->
  fget2 (fmadd u v) t m = fadd (fget2 u t m) (fget2 v t m).
Proof.
  intros Ht Hm. unfold fmadd, fget2 at 1.
  rewrite (nth_mapi _ _ [] []) by auto.
  now rewrite (nth_mapi _ _ None None) by auto.
Qed.

Lemma length_fzeros_like u : length (fzeros_like u) = length u.
Proof. unfold fzeros_like. apply length_map. Qed.

Lemma row_fzeros_like u t :
  nth t (fzeros_like u) [] = map (fun _ => Some 0) (nth t u []).
Proof.
  unfold fzeros_like.
  exact (map_nth (map (fun _ : fl => Some 0)) u [] t).
Qed.

Lemma fget2_fzeros_like u t m :
  (m < length (nth t u []))%nat -> fget2 (fzeros_like u) t m = Some 0.
Proof.
  intros Hm. unfold fget2. rewrite row_fzeros_like.
  rewrite (nth_indep _ None (Some 0)) by now rewrite length_map.
  exact (map_nth (fun _ : fl => Some 0) (nth t u []) None m).
Qed.

Lemma diag_Some s t n :
  regular s -> (t < dT s)%nat -> (n < dN s)%nat ->
  fget (_get_diag s t) n =
  Some (msumn (_get_mask s t) (dM s) (fun m => rX s n m * rX s n m)).
Proof.
  intros H Ht Hn. unfold _get_diag, fget. rewrite nth_tab by auto.
  unfold rX. reflect H.
Qed.

Lemma first_moment_entry s k t m :
  regular s -> (k < dK s)%nat -> (t < dT s)%nat -> (m < dM s)%nat ->
  fget2 (_compute_first_moment_hash s k) t m =
  Some (rfm (dN s) (rX s) (rpi s) (rwm s t) k m).
Proof.
  intros H Hk Ht Hm. unfold _compute_first_moment_hash.
  rewrite fget2_tab by auto. unfold rfm, rX, rpi, rwm. reflect H.
Qed.

Lemma second_moment_entry s k t m :
  regular s -> (k < dK s)%nat -> (t < dT s)%nat -> (m < dM s)%nat ->
  fget2 (_compute_second_moment_hash s k) t m =
  Some (rsm (dN s) (rX s) (rpi s) (rwm s t) (rwv s t) k m).
Proof.
  intros H Hk Ht Hm. unfold _compute_second_moment_hash.
  rewrite fget2_tab by auto. unfold rsm, rX, rpi, rwm, rwv. reflect H.
Qed.

(** ** The value of [_compute_ERSS_summary] *)

Lemma ERSS_summary_tissue_Some s t :
  regular s -> (t < dT s)%nat ->
  ERSS_summary_tissue s t =
  Some (rERSS_summary (dN s) (dM s) (dK s) (_get_mask s t)
          (rY s t) (rX s) (rpi s) (rwm s t) (rwv s t)).
Proof.
  intros H Ht. unfold ERSS_summary_tissue, rERSS_summary, rpt2, rXX, rmu.
  cbv zeta. unfold rY, rX, rpi, rwm, rwv.
  reflect H.
  all: try (rewrite diag_Some by auto; reflexivity).
Qed.

(** ** The value of [_compute_ERSS] *)

(** The covariate prediction vanishes: there are no covariates, or their
    weights are zero. *)
Definition no_covariate_effect (s : model) : Prop :=
  _compute_covariate_prediction s true = fzeros_like (Y s).

(** The residual handed to the ERSS functions. *)
Definition residual_given (residual : option fmat) (w : world) : fmat :=
  match residual with
  | Some r => r
  | None => fst (compute_residual None true w)
  end.

Lemma residual_entry w t m :
  regular (self w) -> no_covariate_effect (self w) ->
  (t < dT (self w))%nat -> (m < dM (self w))%nat ->
  fget2 (fst (compute_residual None true w)) t m =
  fsub (fget2 (Y (self w)) t m)
       (Some (rpred (dN (self w)) (dK (self w)) (rX (self w)) (rpi (self w))
                (rwm (self w) t) m)).
Proof.
  intros H H0 Ht Hm. unfold compute_residual, compute_prediction.
  cbn [fst]. rewrite H0.
  rewrite fget2_fmsub by (rewrite ?(reg_Y_rows H), ?(reg_Y_cols H); auto).
  f_equal.
  rewrite fget2_fmadd
    by (rewrite ?length_fzeros_like, ?row_fzeros_like, ?length_map,
          ?(reg_Y_rows H), ?(reg_Y_cols H); auto).
  rewrite fget2_fzeros_like by (rewrite (reg_Y_cols H); auto).
  rewrite fget2_tab by auto.
  unfold rpred, ree, rX, rpi, rwm.
  apply fadd_Some; [reflexivity|].
  apply fsumn_Some. intros n Hn.
  apply fmul_Some; [|reflect H].
  unfold expected_effects. rewrite fget2_tab by auto.
  reflect H.
Qed.

Lemma residual_ss_own w t :
  regular (self w) -> no_covariate_effect (self w) -> (t < dT (self w))%nat ->
  residual_ss (self w) (fst (compute_residual None true w)) t =
  Some (rRSS (dN (self w)) (dM (self w)) (dK (self w)) (_get_mask (self w) t)
          (rY (self w) t) (rX (self w)) (rpi (self w)) (rwm (self w) t)).
Proof.
  intros H H0 Ht. unfold residual_ss, rRSS.
  apply fmsum_Some. intros m Hm Hmask.
  rewrite residual_entry by auto.
  rewrite (mask_fin H Ht Hm Hmask). reflexivity.
Qed.

Lemma residual_world_ERSS residual w :
  exists w0,
    match residual with
    | Some r => (r, w)
    | None => compute_residual None true w
    end = (residual_given residual w, w0) /\
    self w0 = self w /\ (caches_current w -> caches_current w0).
Proof.
  destruct residual as [r|]; simpl;
    exists w; (split; [reflexivity | split; auto]).
Qed.

(** The real-valued corrections of a regular state at outcome channel [t]. *)
Definition corr s t : R :=
  rcorrection (dN s) (dM s) (dK s) (_get_mask s t) (rX s) (rpi s) (rwm s t)
    (rwv s t).
Definition corr3 s t : R :=
  rcorrection3 (dN s) (dM s) (dK s) (_get_mask s t) (rX s) (rpi s) (rwm s t)
    (rwv s t).

Lemma ERSS_entry residual w t :
  regular (self w) -> caches_current w -> (t < dT (self w))%nat ->
  nth t (fst (_compute_ERSS residual w)) None =
  fadd (residual_ss (self w) (residual_given residual w) t)
       (Some (corr (self w) t)).
Proof.
  intros H Hc Ht. unfold _compute_ERSS.
  destruct (residual_world_ERSS residual w) as [w0 [-> [Hs Hc0]]].
  specialize (Hc0 Hc).
  destruct (collect_first_current (seq 0 (dK (self w))) Hc0) as (E1 & Hc1 & Hs1).
  destruct (collect compute_first_moment _ w0) as [fms w1].
  cbn [fst snd] in E1, Hc1, Hs1.
  destruct (collect_second_current (seq 0 (dK (self w))) Hc1) as (E2 & _ & _).
  destruct (collect compute_second_moment _ w1) as [sms w2].
  cbn [fst snd] in E2. cbn [fst].
  rewrite nth_tab by auto. f_equal.
  rewrite Hs1, Hs in E2. rewrite Hs in E1. subst fms sms.
  unfold corr, rcorrection.
  apply fsumn_Some. intros m Hm.
  apply fmul_Some; [|reflexivity].
  apply fsub_Some; apply fsumn_Some; intros k Hk; rewrite nth_map_seq by auto.
  - now apply second_moment_entry.
  - apply fsq_Some. now apply first_moment_entry.
Qed.

(** ** The value of [_compute_ERSS3] *)

Lemma fold_left_fadd (h : nat -> R) ks e :
  fold_left (fun e k => fadd e (Some (h k))) ks e =
  fadd e (Some (fold_left (fun r k => r + h k) ks 0)).
Proof.
  assert (G : forall r,
             fold_left (fun e k => fadd e (Some (h k))) ks (fadd e (Some r)) =
             fadd e (Some (fold_left (fun r k => r + h k) ks r))).
  { induction ks as [|k ks IH]; intros r; [reflexivity|].
    cbn [fold_left]. rewrite <- IH. f_equal.
    destruct e; simpl; auto. f_equal. lra. }
  rewrite <- G. f_equal. destruct e; simpl; auto. f_equal. lra.
Qed.

Lemma ERSS3_loop_entry s ks ERSS w t :
  s = self w -> regular s -> caches_current w ->
  (forall k, In k ks -> (k < dK s)%nat) ->
  (t < dT s)%nat -> (t < length ERSS)%nat ->
  nth t (fst (ERSS3_loop s ks ERSS w)) None =
  fold_left (fun e k =>
    fadd e (Some (msumn (_get_mask s t) (dM s)
                    (fun m => rsm (dN s) (rX s) (rpi s) (rwm s t) (rwv s t) k m)
                  - msumn (_get_mask s t) (dM s)
                      (fun m => rfm (dN s) (rX s) (rpi s) (rwm s t) k m
                                * rfm (dN s) (rX s) (rpi s) (rwm s t) k m))))
    ks (nth t ERSS None).
Proof.
  revert ERSS w. induction ks as [|k ks IH]; intros ERSS w Hs H Hc Hks Ht Hl;
    [reflexivity|].
  cbn [ERSS3_loop fold_left].
  destruct (compute_first_moment_current k Hc) as (E1 & Hc1 & Hs1 & _).
  destruct (compute_first_moment k w) as [mu w1]. cbn [fst snd] in *.
  destruct (compute_second_moment_current k Hc1) as (E2 & Hc2 & Hs2 & _).
  destruct (compute_second_moment k w1) as [mu2 w2]. cbn [fst snd] in *.
  rewrite IH; auto.
  - f_equal. rewrite (nth_mapi _ _ None None) by auto. f_equal.
    assert (Hk : (k < dK s)%nat) by (apply Hks; now left).
    rewrite Hs1 in E2. rewrite <- Hs in E1, E2. subst mu mu2.
    apply fsub_Some; apply fmsum_Some; intros m Hm _.
    + now apply second_moment_entry.
    + apply fsq_Some. now apply first_moment_entry.
  - congruence.
  - intros j Hj. apply Hks. now right.
  - now rewrite length_mapi.
Qed.

Lemma ERSS3_entry residual w t :
  regular (self w) -> caches_current w -> (t < dT (self w))%nat ->
  nth t (fst (_compute_ERSS3 residual w)) None =
  fadd (residual_ss (self w) (residual_given residual w) t)
       (Some (corr3 (self w) t)).
Proof.
  intros H Hc Ht. unfold _compute_ERSS3.
  destruct (residual_world_ERSS residual w) as [w0 [-> [Hs Hc0]]].
  specialize (Hc0 Hc).
  rewrite (@ERSS3_loop_entry (self w) (seq 0 (dK (self w))) _ w0 t); auto.
  - rewrite nth_tab by auto. rewrite fold_left_fadd. f_equal. f_equal.
    unfold corr3, rcorrection3.
    rewrite (fold_left_add (fun k => _ - _)). lra.
  - intros k Hk. apply in_seq in Hk. lia.
  - now rewrite length_tab.
Qed.

Lemma length_ERSS3_loop s ks ERSS w :
  length (fst (ERSS3_loop s ks ERSS w)) = length ERSS.
Proof.
  revert ERSS w. induction ks as [|k ks IH]; intros ERSS w; [reflexivity|].
  cbn [ERSS3_loop].
  destruct (compute_first_moment k w) as [mu w1].
  destruct (compute_second_moment k w1) as [mu2 w2].
  rewrite IH. apply length_mapi.
Qed.

Lemma length_ERSS residual w :
  length (fst (_compute_ERSS residual w)) = dT (self w).
Proof.
  unfold _compute_ERSS.
  destruct (match residual with
            | Some r => (r, w)
            | None => compute_residual None true w
            end) as [res w0].
  destruct (collect compute_first_moment _ w0) as [fms w1].
  destruct (collect compute_second_moment _ w1) as [sms w2].
  apply length_tab.
Qed.

Lemma length_ERSS3 residual w :
  length (fst (_compute_ERSS3 residual w)) = dT (self w).
Proof.
  unfold _compute_ERSS3.
  destruct (match residual with
            | Some r => (r, w)
            | None => compute_residual None true w
            end) as [res w0].
  rewrite length_ERSS3_loop. apply length_tab.
Qed.

Lemma length_ERSS_summary w :
  length (fst (_compute_ERSS_summary w)) = dT (self w).
Proof.
  unfold _compute_ERSS_summary.
  destruct (compute_residual None true w) as [r w1].
  destruct (collect compute_first_moment _ w1) as [fms w2].
  apply length_tab.
Qed.

Lemma ERSS_summary_entry w t :
  regular (self w) -> (t < dT (self w))%nat ->
  nth t (fst (_compute_ERSS_summary w)) None =
  Some (rERSS_summary (dN (self w)) (dM (self w)) (dK (self w))
          (_get_mask (self w) t) (rY (self w) t) (rX (self w)) (rpi (self w))
          (rwm (self w) t) (rwv (self w) t)).
Proof.
  intros H Ht. unfold _compute_ERSS_summary.
  destruct (compute_residual None true w) as [r w1].
  destruct (collect compute_first_moment _ w1) as [fms w2].
  cbn [fst]. rewrite nth_tab by auto. now apply ERSS_summary_tissue_Some.
Qed.

(** The three ERSS functions on a regular state whose memo tables are
    current: [_compute_ERSS] and [_compute_ERSS3] agree on every residual;
    without a covariate effect [_compute_ERSS_summary] agrees with both. *)
Lemma ERSS_agree w :
  regular (self w) -> caches_current w ->
  (forall residual,
     fst (_compute_ERSS3 residual w) = fst (_compute_ERSS residual w)) /\
  (no_covariate_effect (self w) ->
     fst (_compute_ERSS_summary w) = fst (_compute_ERSS None w)).
Proof.
  intros H Hc. split.
  - intros residual.
    apply nth_ext with (d := None) (d' := None);
      [now rewrite length_ERSS3, length_ERSS|].
    intros t Ht. rewrite length_ERSS3 in Ht.
    rewrite ERSS3_entry, ERSS_entry by auto.
    unfold corr3, corr. now rewrite rcorrection3_eq.
  - intros H0.
    apply nth_ext with (d := None) (d' := None);
      [now rewrite length_ERSS_summary, length_ERSS|].
    intros t Ht. rewrite length_ERSS_summary in Ht.
    rewrite ERSS_summary_entry, ERSS_entry by auto.
    cbn [residual_given]. rewrite residual_ss_own by auto.
    rewrite rERSS_summary_eq. reflexivity.
Qed.

(** ** The weight update *)

(** The weight arrays and [pi] have the shapes of [dims]. *)
Record shaped (s : model) : Prop := {
  sh_wm_rows : length (weight_means s) = dT s;
  sh_wm_cols : forall t, (t < dT s)%nat -> length (nth t (weight_means s) []) = dK s;
  sh_wv_rows : length (weight_vars s) = dT s;
  sh_wv_cols : forall t, (t < dT s)%nat -> length (nth t (weight_vars s) []) = dK s;
  sh_pi : length (pi s) = dK s
}.

(** The array the update rules work from: the residual with the entries at
    the NaN positions of [Y] set to zero. *)
Definition residual_used (k : nat) (residual : option nat) (w : world) : fmat :=
  fst (take_residual k residual w).

Lemma take_residual_self k residual w :
  self (snd (take_residual k residual w)) = self w.
Proof.
  unfold take_residual. destruct residual as [l|]; [reflexivity|].
  unfold compute_residual, compute_prediction.
  destruct (compute_first_moment k w) as [fm w1] eqn:E. cbn [snd].
  change w1 with (snd (fm, w1)). rewrite <- E. reflexivity.
Qed.

Lemma ser_update_weight_runs k residual w :
  (k < dK (self w))%nat ->
  _update_weight_component k residual w =
  Some (with_self (store_weights (self w) (residual_used k residual w) k)
          (snd (take_residual k residual w))).
Proof.
  intros Hk. unfold _update_weight_component, residual_used.
  apply Nat.ltb_lt in Hk. rewrite Hk.
  pose proof (take_residual_self k residual w) as Hs.
  destruct (take_residual k residual w) as [r_k w1]. cbn [fst snd] in *.
  now rewrite Hs.
Qed.


Lemma fget3_mapi_upd_other (u : ften) (f : nat -> fvec) k t j n :
  j <> k -> fget3 (mapi (fun t rows => upd k (f t) rows) u) t j n = fget3 u t j n.
Proof.
  intros Hj. unfold fget3.
  destruct (Nat.lt_ge_cases t (length u)) as [Ht|Ht].
  - rewrite (nth_mapi _ _ [] []) by auto. now rewrite nth_upd_other by auto.
  - rewrite (@nth_overflow _ (mapi _ _) t []), (@nth_overflow _ _ t []);
      rewrite ?length_mapi; auto.
Qed.




(** Components other than [k] keep their weights. *)
Lemma ser_update_weight_frame k residual w w' j t n :
  _update_weight_component k residual w = Some w' -> j <> k ->
  fget3 (weight_vars (self w')) t j n = fget3 (weight_vars (self w)) t j n /\
  fget3 (weight_means (self w')) t j n = fget3 (weight_means (self w)) t j n.
Proof.
  intros H Hj. unfold _update_weight_component in H.
  destruct (k <? dK (self w))%nat; [|discriminate].
  pose proof (take_residual_self k residual w) as Hs.
  destruct (take_residual k residual w) as [r_k w1]. cbn [snd] in Hs.
  injection H as <-. unfold with_self, store_weights.
  cbn [self weight_vars weight_means set_weights].
  rewrite !fget3_mapi_upd_other by auto. now rewrite Hs.
Qed.

(** ** In-place zeroing of the caller's residual *)

Lemma read_write_same l v w :
  (l < length (heap w))%nat -> read (write l v w) l = v.
Proof. intros H. unfold read, write. cbn [heap]. now apply nth_upd_same. Qed.

Lemma read_write_other l l' v w :
  l' <> l -> read (write l v w) l' = read w l'.
Proof. intros H. unfold read, write. cbn [heap]. apply nth_upd_other. auto. Qed.

Lemma read_alloc_new v w : read (snd (alloc v w)) (fst (alloc v w)) = v.
Proof.
  unfold read, alloc. cbn [fst snd heap].
  rewrite app_nth2 by lia. now rewrite Nat.sub_diag.
Qed.

Lemma read_alloc_old v w l :
  (l < length (heap w))%nat -> read (snd (alloc v w)) l = read w l.
Proof. intros H. unfold read, alloc. cbn [snd heap]. now apply app_nth1. Qed.

Lemma length_heap_write l v w : length (heap (write l v w)) = length (heap w).
Proof. unfold write. cbn [heap]. apply length_upd. Qed.

(** With a reference, the update rules zero the referenced array itself and
    work from it; every other array is left alone. *)
Lemma update_weight_mutates k l w :
  (k < dK (self w))%nat -> (l < length (heap w))%nat ->
  exists w',
    _update_weight_component k (Some l) w = Some w' /\
    read w' l = zero_nans (Y (self w)) (read w l) /\
    (forall l', l' <> l -> read w' l' = read w l') /\
    length (heap w') = length (heap w) /\
    self w' = store_weights (self w) (zero_nans (Y (self w)) (read w l)) k.
Proof.
  intros Hk Hl. rewrite ser_update_weight_runs by auto.
  eexists. split; [reflexivity|].
  unfold residual_used, take_residual, with_self. cbn [fst snd self].
  repeat split.
  - unfold read at 1. cbn [heap]. now apply nth_upd_same.
  - intros l' Hl'. unfold read at 1. cbn [heap]. now apply nth_upd_other.
  - cbn [heap]. apply length_upd.
Qed.

Section AssignmentMutation.

Variable normal_kl : fl -> fl -> fl -> fl -> fl.

Lemma update_pi_runs k residual w :
  (k < dK (self w))%nat -> (0 < dN (self w))%nat ->
  _update_pi_component normal_kl k residual w =
  Some (with_self
          (set_pi (upd k (fsoftmax (pi_score normal_kl (self w)
                                      (residual_used k residual w) k))
                     (pi (self w)))
                  (self w))
          (snd (take_residual k residual w))).
Proof.
  intros Hk HN. unfold _update_pi_component, residual_used.
  apply Nat.ltb_lt in Hk. rewrite Hk.
  pose proof (take_residual_self k residual w) as Hs.
  destruct (take_residual k residual w) as [r_k w1]. cbn [fst snd] in *.
  rewrite Hs.
  destruct (dN (self w) =? 0)%nat eqn:E; [apply Nat.eqb_eq in E; lia|].
  reflexivity.
Qed.

Lemma update_pi_mutates k l w :
  (k < dK (self w))%nat -> (0 < dN (self w))%nat ->
  (l < length (heap w))%nat ->
  exists w',
    _update_pi_component normal_kl k (Some l) w = Some w' /\
    read w' l = zero_nans (Y (self w)) (read w l) /\
    (forall l', l' <> l -> read w' l' = read w l') /\
    length (heap w') = length (heap w) /\
    self w' =
      set_pi (upd k (fsoftmax (pi_score normal_kl (self w)
                                 (zero_nans (Y (self w)) (read w l)) k))
                 (pi (self w)))
             (self w).
Proof.
  intros Hk HN Hl. rewrite update_pi_runs by auto.
  eexists. split; [reflexivity|].
  unfold residual_used, take_residual, with_self. cbn [fst snd self].
  repeat split.
  - unfold read at 1. cbn [heap]. now apply nth_upd_same.
  - intros l' Hl'. unfold read at 1. cbn [heap]. now apply nth_upd_other.
  - cbn [heap]. apply length_upd.
Qed.

(** One component step of [fit] with at least one of the two update rules
    enabled: the array bound to [residual] afterwards is computed from the
    zeroed array, whatever the memo table answers for the first moment. *)
Lemma fit_component_zeroed update_weights update_pi ARD_weights l residual w :
  (l < dK (self w))%nat -> (0 < dN (self w))%nat ->
  update_weights || update_pi = true ->
  exists residual' w' fm',
    fit_component normal_kl update_weights update_pi ARD_weights l (residual, w)
      = Some (residual', w') /\
    read w' residual' =
      fmsub (zero_nans (Y (self w))
               (fmadd (read w residual) (fst (compute_first_moment l w))))
            fm'.
Proof.
  intros Hl HN Hflags. unfold fit_component.
  destruct (compute_first_moment l w) as [fm w1] eqn:E1.
  assert (Hs1 : self w1 = self w /\ heap w1 = heap w).
  { change w1 with (snd (fm, w1)). rewrite <- E1.
    apply self_compute_first_moment. }
  destruct Hs1 as [Hs1 Hh1]. cbn [fst].
  set (r1 := fmadd (read w1 residual) fm).
  pose proof (read_alloc_new r1 w1) as Hnew.
  destruct (alloc r1 w1) as [l1 w2] eqn:E2. cbn [fst snd] in Hnew.
  assert (Hs2 : self w2 = self w /\ l1 = length (heap w1) /\
                length (heap w2) = S (length (heap w1))).
  { unfold alloc in E2. injection E2 as <- <-. cbn [self heap].
    rewrite length_app. cbn [length]. repeat split; auto. lia. }
  destruct Hs2 as (Hs2 & Hl1 & Hlen2).
  set (w3 := if ARD_weights
             then with_self (update_ARD_weights l (self w2)) w2 else w2).
  assert (H3 : dK (self w3) = dK (self w) /\ dN (self w3) = dN (self w) /\
               Y (self w3) = Y (self w) /\ heap w3 = heap w2).
  { unfold w3. destruct ARD_weights; cbn; unfold dK, dN; rewrite ?Hs2; auto. }
  destruct H3 as (HK3 & HN3 & HY3 & Hh3).
  assert (Hr3 : read w3 l1 = r1) by (unfold read; rewrite Hh3; exact Hnew).
  assert (Hl3 : (l1 < length (heap w3))%nat) by (rewrite Hh3; lia).
  (* the weight update, if enabled *)
  assert (H4 : exists w4,
    (if update_weights then _update_weight_component l (Some l1) w3
     else Some w3) = Some w4 /\
    dK (self w4) = dK (self w) /\ dN (self w4) = dN (self w) /\
    Y (self w4) = Y (self w) /\ (l1 < length (heap w4))%nat /\
    read w4 l1 = (if update_weights then zero_nans (Y (self w)) r1 else r1)).
  { destruct update_weights.
    - destruct (@update_weight_mutates l l1 w3) as (w4 & E & Hr & _ & Hlen & Hs);
        [lia | auto |].
      exists w4. rewrite E, Hr, Hr3, HY3, Hlen, Hs.
      repeat split; auto.
    - exists w3. repeat split; auto. }
  destruct H4 as (w4 & -> & HK4 & HN4 & HY4 & Hl4 & Hr4).
  (* the assignment update, if enabled *)
  assert (H5 : exists w5,
    (if update_pi then _update_pi_component normal_kl l (Some l1) w4
     else Some w4) = Some w5 /\
    (l1 < length (heap w5))%nat /\
    read w5 l1 = zero_nans (Y (self w)) r1).
  { destruct update_pi.
    - destruct (@update_pi_mutates l l1 w4) as (w5 & E & Hr & _ & Hlen & _);
        [lia | lia | auto |].
      exists w5. rewrite E, Hr, Hr4, HY4, Hlen.
      repeat split; auto.
      destruct update_weights; [apply zero_nans_idem | reflexivity].
    - exists w4. repeat split; auto. rewrite Hr4.
      destruct update_weights; [reflexivity | discriminate]. }
  destruct H5 as (w5 & -> & Hl5 & Hr5).
  destruct (compute_first_moment l w5) as [fm' w6] eqn:E6.
  assert (Hh6 : heap w6 = heap w5).
  { change w6 with (snd (fm', w6)). rewrite <- E6.
    apply self_compute_first_moment. }
  pose proof (read_alloc_new (fmsub (read w6 l1) fm') w6) as Hfin.
  destruct (alloc (fmsub (read w6 l1) fm') w6) as [l7 w7].
  cbn [fst snd] in Hfin.
  exists l7, w7, fm'. split; [reflexivity|].
  rewrite Hfin.
  unfold read at 1. rewrite Hh6. fold (read w5 l1). rewrite Hr5.
  unfold r1, read. now rewrite Hh1.
Qed.

End AssignmentMutation.

(** ** The assignment update *)

Lemma fold_fmax2_Some (l : vec) d :
  fold_right fmax2 (Some d) (map Some l) = Some (fold_right Rmax d l).
Proof.
  induction l as [|x l IH]; [reflexivity|].
  cbn [map fold_right]. now rewrite IH.
Qed.

Lemma fvmax_Some (sc : vec) : sc <> [] -> fvmax (map Some sc) = Some (vmax sc).
Proof.
  destruct sc as [|x0 sc]; [congruence|]. intros _.
  unfold fvmax, vmax. change (hd None (map Some (x0 :: sc))) with (Some x0).
  apply fold_fmax2_Some.
Qed.

Lemma fsum_Some (e : vec) : fsum (map Some e) = Some (Rsum e).
Proof.
  induction e as [|x e IH]; [reflexivity|].
  cbn [map fsum fold_right]. fold (fsum (map Some e)). now rewrite IH.
Qed.

Lemma fsoftmax_Some (sc : vec) :
  sc <> [] -> fsoftmax (map Some sc) = map Some (CAFEH2.softmax sc).
Proof.
  intros Hne. unfold fsoftmax, CAFEH2.softmax.
  rewrite (fvmax_Some Hne).
  assert (E : map (fun v => fexp (fsub v (Some (vmax sc)))) (map Some sc) =
              map Some (map (fun v => exp (v - vmax sc)) sc)).
  { rewrite !map_map. reflexivity. }
  rewrite E, fsum_Some, !map_map.
  pose proof (CAFEH2_facts.Rsum_exp_pos (vmax sc) Hne) as Hpos.
  apply map_ext. intros x. unfold fdiv.
  destruct (Req_dec_T _ 0) as [E0|_]; [lra | reflexivity].
Qed.

Section AssignmentSimplex.

Variable normal_kl : fl -> fl -> fl -> fl -> fl.

(** With finite log-scores the assignment update writes a probability
    vector. *)
Lemma ser_update_pi_simplex k residual w (sc : vec) :
  (k < dK (self w))%nat -> (0 < dN (self w))%nat ->
  length (pi (self w)) = dK (self w) ->
  pi_score normal_kl (self w) (residual_used k residual w) k = map Some sc ->
  exists w',
    _update_pi_component normal_kl k residual w = Some w' /\
    nth k (pi (self w')) [] = map Some (CAFEH2.softmax sc) /\
    length (CAFEH2.softmax sc) = dN (self w) /\
    (forall v, In v (CAFEH2.softmax sc) -> 0 <= v) /\
    Rsum (CAFEH2.softmax sc) = 1.
Proof.
  intros Hk HN Hpi Hsc. rewrite update_pi_runs by auto.
  eexists. split; [reflexivity|].
  assert (Hlen : length sc = dN (self w)).
  { apply (f_equal (@length fl)) in Hsc.
    unfold pi_score in Hsc. now rewrite length_tab, length_map in Hsc. }
  assert (Hne : sc <> []).
  { intros ->. simpl in Hlen. lia. }
  unfold with_self. cbn [self pi set_pi].
  rewrite nth_upd_same by lia. rewrite Hsc, fsoftmax_Some by auto.
  split; [reflexivity|]. split; [|split].
  - now rewrite CAFEH2_facts.softmax_length.
  - intros v Hv. apply Rlt_le. eapply CAFEH2_facts.softmax_pos; eauto.
  - now apply CAFEH2_facts.softmax_sum.
Qed.

End AssignmentSimplex.

(** ** An outcome channel without observations *)








Section MissingChannel.

Variable digamma : R -> R.


End MissingChannel.







End IndependentFactorSER_facts.

(* ================================================================== *)
(** * Reporting helpers ([coloc/misc.py]) *)
(* ================================================================== *)

Module Misc.

(** What [compute_pip] reads of a fitted model: [model.pi] (K x N) and the
    dictionary [model.records] that [compute_records] attaches ([None]
    when it has not been attached). *)
Record records_t := { active : list bool }.

Record fitted := {
  pi : mat;
  records : option records_t
}.

(** The finite product of [f k] for [k < n]. *)
Fixpoint prodn (n : nat) (f : nat -> R) : R :=
  match n with
  | O => 1
  | S p => prodn p f * f p
  end.

(** [compute_pip(model)]: [1 - np.exp(np.log(1 - model.pi + 1e-10).sum(0))].
    [None] is the exception raised by [model.records['active']] on a model
    without records. *)
Definition compute_pip (model : fitted) : option vec :=
  match records model with
  | None => None
  | Some _ =>
      Some (tab (length (hd [] (pi model))) (fun n =>
              1 - exp (sumn (length (pi model)) (fun k =>
                         ln (1 - mget (pi model) k n + 1e-10)))))
  end.

(** The inclusion probability in the words of the specification. *)
Definition spec_pip (p : mat) (n : nat) : R :=
  1 - prodn (length p) (fun k => 1 - mget p k n).

Lemma exp_sum_ln n f :
  (forall k, (k < n)%nat -> 0 < f k) ->
  exp (sumn n (fun k => ln (f k))) = prodn n f.
Proof.
  induction n as [|n IH]; intros H; simpl.
  - apply exp_0.
  - rewrite exp_plus, IH, exp_ln; auto.
Qed.

End Misc.

(* ================================================================== *)
(** * Worked runs of the covariance-based engine *)
(* ================================================================== *)

Module CAFEH2_runs.
Import CAFEH2 CAFEH2_facts.

(** Equality of arrays of concrete numbers, entry by entry. *)
Ltac arr_eq :=
  repeat match goal with
  | |- ?x = ?x => reflexivity
  | |- (_ :: _) = (_ :: _) => apply f_equal2
  | |- (_, _) = (_, _) => apply f_equal2
  | |- @eq nat _ _ => reflexivity
  | |- @eq R _ _ => first [lra | field]
  end.

Definition I2 : mat := [[1; 0]; [0; 1]].
Definition half2 : vec := [1 / 2; 1 / 2].

(** Evaluation of the engine on concrete arrays. *)
Ltac ev :=
  repeat (progress (cbn -[key_eq_dec importance argsort vmax];
    unfold mget, vget, tget, weight_precision, weight_variance, weight_mean,
      prior_variance, fingerprint, _compute_prediction_component_hash,
      dN, dT, dK, compute_prediction, compute_prediction_component,
      compute_residual, lru_call, with_self, store_weights, set_weight_means,
      set_weight_vars, set_pi, set_active, set_prior_precision, ARD_update,
      take, I2, half2)).

(** Decides the comparisons of cache keys met on the way. *)
Ltac key_cases :=
  repeat match goal with
  | |- context [key_eq_dec ?x ?y] =>
      let e := fresh "e" in
      let n := fresh "n" in
      destruct (key_eq_dec x y) as [e|n];
      [ try (exfalso; first [discriminate e | inversion e; lra])
      | try (exfalso; apply n; arr_eq; fail) ]
  end.

Ltac run := repeat (progress (ev; key_cases)).

Ltac world_eq :=
  match goal with
  | |- Some _ = Some _ => apply f_equal
  | _ => idtac
  end;
  repeat match goal with
  | |- (_, _) = (_, _) => apply f_equal2
  | |- Build_world _ _ _ = Build_world _ _ _ => apply f_equal3
  | |- Build_model _ _ _ _ _ _ _ _ _ _ _ _ _ _ _ _ _ _ = _ => f_equal
  end; arr_eq.

(** A model of [K] components over two variants and one outcome channel,
    with both covariance matrices the identity, as the constructor leaves
    it but for the weight means [wm], the assignment [p] and the memo
    table [hc]. *)
Definition demo (K : nat) (p : mat) (wm : ten) (hc : lru (nat * vec) mat)
  : world :=
  Build_world
    (Build_model I2 I2 [[0; 0]] (Build_dims_t 2 1 K)
       [repeat 1 K] (repeat 1 K) (repeat 1 K) half2
       p wm [repeat half2 K] [repeat 1 K]
       [] 1e-5 1 1e-10 I2 I2)
    hc [].

(** The constructor builds [demo K] with uniform assignments and zero
    weights (for the identity [R2], the solution of [R2 x = R1] is [R1]). *)
Lemma demo_is_constructed K :
  (K = 1 \/ K = 2)%nat ->
  __init__ (fun _ B => Some B) I2 I2 [[0; 0]] K 1 1 None 1e-5 =
  Some (self (demo K (repeat half2 K) [repeat [0; 0] K] [])).
Proof.
  intros [-> | ->]; unfold __init__, matmul, demo, half2, I2; cbn;
    unfold mget, vget; cbn; world_eq.
Qed.

(** *** One component: a stale prediction *)

Definition one_start : world := demo 1 [half2] [[[0; 0]]] [].

Lemma one_first_update :
  _update_weight_component 0 false (Some [[2; 0]]) one_start =
  Some (demo 1 [half2] [[[1; 0]]] []).
Proof. unfold one_start, demo. run. world_eq. Qed.

Definition one_cache : lru (nat * vec) mat := [((0%nat, [1 / 2]), [[1 / 2; 0]])].

Lemma one_first_prediction :
  compute_prediction_component 0 (demo 1 [half2] [[[1; 0]]] []) =
  ([[1 / 2; 0]], demo 1 [half2] [[[1; 0]]] one_cache).
Proof. unfold demo, one_cache. run. world_eq. Qed.

Lemma one_second_update :
  _update_weight_component 0 false (Some [[0; 2]])
    (demo 1 [half2] [[[1; 0]]] one_cache) =
  Some (demo 1 [half2] [[[0; 1]]] one_cache).
Proof. unfold demo, one_cache. run. world_eq. Qed.

Lemma one_second_prediction :
  fst (compute_prediction_component 0 (demo 1 [half2] [[[0; 1]]] one_cache)) =
  [[1 / 2; 0]].
Proof. unfold demo, one_cache. run. world_eq. Qed.

Lemma one_direct :
  _compute_prediction_component_hash
    (self (demo 1 [half2] [[[0; 1]]] one_cache)) 0 = [[0; 1 / 2]].
Proof. unfold demo. run. world_eq. Qed.

(** *** Two components: sorting after a weight update *)

Definition two_start : world :=
  demo 2 [half2; half2] [[[0; 0]; [0; 0]]] [].

Lemma two_update_a :
  _update_weight_component 0 false (Some [[0; 8]]) two_start =
  Some (demo 2 [half2; half2] [[[0; 4]; [0; 0]]] []).
Proof. unfold two_start, demo. run. world_eq. Qed.

Lemma two_update_b :
  _update_weight_component 1 false (Some [[8; 0]])
    (demo 2 [half2; half2] [[[0; 4]; [0; 0]]] []) =
  Some (demo 2 [half2; half2] [[[0; 4]; [4; 0]]] []).
Proof. unfold demo. run. world_eq. Qed.

Definition two_cache : lru (nat * vec) mat :=
  [((1%nat, [2]), [[2; 0]]); ((0%nat, [2]), [[0; 2]])].

Lemma two_prediction_a :
  compute_prediction None (demo 2 [half2; half2] [[[0; 4]; [4; 0]]] []) =
  ([[2; 2]], demo 2 [half2; half2] [[[0; 4]; [4; 0]]] two_cache).
Proof. unfold demo, two_cache. run. world_eq. Qed.

Lemma two_update_c :
  _update_weight_component 0 false (Some [[2; 2]])
    (demo 2 [half2; half2] [[[0; 4]; [4; 0]]] two_cache) =
  Some (demo 2 [half2; half2] [[[1; 1]; [4; 0]]] two_cache).
Proof. unfold demo, two_cache. run. world_eq. Qed.

Definition two_cache' : lru (nat * vec) mat :=
  [((1%nat, [2]), [[2; 0]]); ((0%nat, [1]), [[1 / 2; 1 / 2]]);
   ((0%nat, [2]), [[0; 2]])].

Lemma two_prediction_before :
  compute_prediction None
    (demo 2 [half2; half2] [[[1; 1]; [4; 0]]] two_cache) =
  ([[5 / 2; 1 / 2]], demo 2 [half2; half2] [[[1; 1]; [4; 0]]] two_cache').
Proof. unfold demo, two_cache, two_cache'. run. world_eq. Qed.

Lemma vmax_single x : vmax [x] = x.
Proof. unfold vmax. simpl. unfold Rmax. destruct (Rle_dec x x); reflexivity. Qed.

Lemma two_sorted :
  sort_components (demo 2 [half2; half2] [[[1; 1]; [4; 0]]] two_cache') =
  demo 2 [half2; half2] [[[4; 0]; [1; 1]]] two_cache'.
Proof.
  unfold sort_components.
  match goal with
  | |- context [argsort ?key ?n] => assert (E : argsort key n = [0; 1]%nat)
  end.
  { unfold demo. ev. unfold argsort. cbn -[importance].
    match goal with
    | |- context [Rle_dec ?x ?y] =>
        assert (Hx : x = 1); [| assert (Hy : y = 2)]
    end.
    - unfold importance, get_expected_weights. ev. rewrite vmax_single.
      rewrite Rabs_pos_eq; lra.
    - unfold importance, get_expected_weights. ev. rewrite vmax_single.
      rewrite Rabs_pos_eq; lra.
    - rewrite Hx, Hy. destruct (Rle_dec 1 2); [reflexivity | lra]. }
  rewrite E. unfold demo. ev. world_eq.
Qed.

Lemma two_prediction_after :
  fst (compute_prediction None
         (demo 2 [half2; half2] [[[4; 0]; [1; 1]]] two_cache')) =
  [[1 / 2; 5 / 2]].
Proof. unfold demo, two_cache'. run. world_eq. Qed.

(** Had the table of [_compute_prediction_component_hash] been cleared, the
    prediction would have been the one before the sort. *)
Lemma two_prediction_after_clear :
  fst (compute_prediction None
         (demo 2 [half2; half2] [[[4; 0]; [1; 1]]] [])) =
  [[5 / 2; 1 / 2]].
Proof. unfold demo. run. world_eq. Qed.

End CAFEH2_runs.

(* ================================================================== *)
(** * Worked runs of the sample-based engine *)
(* ================================================================== *)

Module IndependentFactorSER_runs.
Import IndependentFactorSER IndependentFactorSER_facts.

Ltac arr_eq :=
  repeat match goal with
  | |- ?x = ?x => reflexivity
  | |- (_ :: _) = (_ :: _) => apply f_equal2
  | |- (_, _) = (_, _) => apply f_equal2
  | |- Some _ = Some _ => apply f_equal
  | |- @eq nat _ _ => reflexivity
  | |- @eq R _ _ => first [lra | field]
  end.

Definition FI2 : fmat := [[Some 1; Some 0]; [Some 0; Some 1]].
Definition fhalf2 : fvec := [Some (1 / 2); Some (1 / 2)].

Ltac ev :=
  repeat (progress (cbn -[key_eq_dec Req_dec_T Rlt_dec];
    unfold fget, fget2, fget3, weight_precision, weight_variance, weight_mean,
      residual_dot, expected_tissue_precision, expected_weight_precision,
      expected_effects, first_moment_key, second_moment_key,
      _compute_first_moment_hash, _compute_second_moment_hash, _get_diag,
      _get_mask, fmsum, selected, dN, dT, dK, dM, compute_prediction,
      compute_first_moment, compute_second_moment, compute_residual,
      _compute_covariate_prediction, _compute_ERSS, _compute_ERSS3,
      _compute_ERSS_summary, ERSS_summary_tissue, residual_ss,
      take_residual, read, write, lru_call, with_self, store_weights,
      set_weights, set_pi, zero_nans, fmadd, fmsub, fzeros_like, of_bool,
      fsq, fdiv, fmul, fadd, fsub, lift2, FI2, fhalf2)).

Ltac div_cases :=
  repeat match goal with
  | |- context [Req_dec_T ?x ?y] =>
      let e := fresh "e" in
      destruct (Req_dec_T x y) as [e|e]; [exfalso; lra|]
  end.

Ltac key_cases :=
  repeat match goal with
  | |- context [key_eq_dec ?x ?y] =>
      let e := fresh "e" in
      let n := fresh "n" in
      destruct (key_eq_dec x y) as [e|n];
      [ try (exfalso; first [discriminate e | inversion e; lra])
      | try (exfalso; apply n; arr_eq; fail) ]
  end.

Ltac run := repeat (progress (ev; div_cases; key_cases)).

Ltac world_eq :=
  match goal with
  | |- Some _ = Some _ => apply f_equal
  | _ => idtac
  end;
  repeat match goal with
  | |- (_, _) = (_, _) => apply f_equal2
  | |- Build_world _ _ _ _ = Build_world _ _ _ _ => apply f_equal4
  | |- Build_model _ _ _ _ _ _ _ _ _ _ _ _ _ _ _ _ _ _ _ _ _ = _ => f_equal
  end; arr_eq.

(** *** Two variants, two samples, one component: stale moments *)

(** The model as the constructor leaves it, but for the weights [wm],
    [wv], the memo tables and the arrays the caller holds. *)
Definition demo (wm wv : ften) (c1 c2 : lru (nat * fvec) fmat)
  (h : list fmat) : world :=
  Build_world
    (Build_model FI2 [[Some 0; Some 0]] None [] [] (Build_dims_t 2 2 1 1)
       [[Some 1]] fhalf2 wm wv [fhalf2] 1e-6 1e-6 [[Some 1]] [[Some 1]]
       1e-6 1e-6 [Some 1] [Some 1] [] 1e-5)
    c1 c2 h.


(** Two residual arrays held by the caller. *)
Definition arrays : list fmat := [[[Some 2; Some 0]]; [[Some 0; Some 2]]].

Definition start : world :=
  demo [[[Some 0; Some 0]]] [[[Some 1; Some 1]]] [] [] arrays.

Definition after_first : ften * ften :=
  ([[[Some 1; Some 0]]], [[[Some (1 / 2); Some (1 / 2)]]]).
Definition after_second : ften * ften :=
  ([[[Some 0; Some 1]]], [[[Some (1 / 2); Some (1 / 2)]]]).

Lemma first_update :
  _update_weight_component 0 (Some 0%nat) start =
  Some (demo (fst after_first) (snd after_first) [] [] arrays).
Proof. unfold start, demo, arrays, after_first. run. world_eq. Qed.

Definition cache1 : lru (nat * fvec) fmat :=
  [((0%nat, [Some (1 / 2)]), [[Some (1 / 2); Some 0]])].
Definition cache2 : lru (nat * fvec) fmat :=
  [((0%nat, [Some (3 / 4)]), [[Some (3 / 4); Some (1 / 4)]])].

Lemma first_moment_filled :
  compute_first_moment 0 (demo (fst after_first) (snd after_first) [] [] arrays) =
  ([[Some (1 / 2); Some 0]],
   demo (fst after_first) (snd after_first) cache1 [] arrays).
Proof. unfold demo, arrays, after_first, cache1. run. world_eq. Qed.

Lemma second_moment_filled :
  compute_second_moment 0
    (demo (fst after_first) (snd after_first) cache1 [] arrays) =
  ([[Some (3 / 4); Some (1 / 4)]],
   demo (fst after_first) (snd after_first) cache1 cache2 arrays).
Proof. unfold demo, arrays, after_first, cache1, cache2. run. world_eq. Qed.

Lemma second_update :
  _update_weight_component 0 (Some 1%nat)
    (demo (fst after_first) (snd after_first) cache1 cache2 arrays) =
  Some (demo (fst after_second) (snd after_second) cache1 cache2 arrays).
Proof.
  unfold demo, arrays, after_first, after_second, cache1, cache2.
  run. world_eq.
Qed.

Lemma first_moment_stale :
  fst (compute_first_moment 0
         (demo (fst after_second) (snd after_second) cache1 cache2 arrays)) =
  [[Some (1 / 2); Some 0]].
Proof. unfold demo, arrays, after_second, cache1, cache2. run. world_eq. Qed.

Lemma first_moment_direct :
  _compute_first_moment_hash
    (self (demo (fst after_second) (snd after_second) cache1 cache2 arrays)) 0 =
  [[Some 0; Some (1 / 2)]].
Proof. unfold demo, after_second. run. world_eq. Qed.

Lemma second_moment_stale :
  fst (compute_second_moment 0
         (demo (fst after_second) (snd after_second) cache1 cache2 arrays)) =
  [[Some (3 / 4); Some (1 / 4)]].
Proof. unfold demo, arrays, after_second, cache1, cache2. run. world_eq. Qed.

Lemma second_moment_direct :
  _compute_second_moment_hash
    (self (demo (fst after_second) (snd after_second) cache1 cache2 arrays)) 0 =
  [[Some (1 / 4); Some (3 / 4)]].
Proof. unfold demo, after_second. run. world_eq. Qed.

(** *** One variant, one sample, a fitted covariate *)

(** One outcome channel with the observation 2, one covariate with the
    value 1 on the only sample and the least-squares weight 2; the
    component still has the weights of the constructor. *)
Definition with_covariate : world :=
  Build_world
    (Build_model [[Some 1]] [[Some 2]] (Some [[[Some 1]]]) [[true]] [[Some 2]]
       (Build_dims_t 1 1 1 1) [[Some 1]] [Some 1] [[[Some 0]]] [[[Some 1]]]
       [[Some 1]] 1e-6 1e-6 [[Some 1]] [[Some 1]] 1e-6 1e-6
       [Some 1] [Some 1] [] 1e-5)
    [] [] [].

Lemma covariate_ERSS : fst (_compute_ERSS None with_covariate) = [Some 1].
Proof. unfold with_covariate. run. world_eq. Qed.

Lemma covariate_ERSS3 : fst (_compute_ERSS3 None with_covariate) = [Some 1].
Proof. unfold with_covariate. run. world_eq. Qed.

Lemma covariate_ERSS_summary :
  fst (_compute_ERSS_summary with_covariate) = [Some 5].
Proof. unfold with_covariate. run. world_eq. Qed.

End IndependentFactorSER_runs.

(* ================================================================== *)
(** * The properties of the specification *)
(* ================================================================== *)

(** ** Memoised contributions *)

(** C1.  The memoised component contribution is not always the direct
    recomputation.  The cache key is one dot product per outcome channel:
    two weight vectors with the same dot product share it.  In both
    engines a weight update that keeps the key makes the next call return
    the contribution of the previous weights: the covariance-based
    prediction stays [[1/2, 0]] where recomputation gives [[0, 1/2]], and
    the first and second moments of the sample-based engine stay
    [[1/2, 0]] and [[3/4, 1/4]] where recomputation gives [[0, 1/2]] and
    [[1/4, 3/4]]. *)
Theorem C1_memoised_contribution_goes_stale :
  (exists wa wb wc : CAFEH2.world,
     CAFEH2._update_weight_component 0 false (Some [[2; 0]])
       CAFEH2_runs.one_start = Some wa /\
     CAFEH2.compute_prediction_component 0 wa = ([[1 / 2; 0]], wb) /\
     CAFEH2._update_weight_component 0 false (Some [[0; 2]]) wb = Some wc /\
     fst (CAFEH2.compute_prediction_component 0 wc) = [[1 / 2; 0]] /\
     CAFEH2._compute_prediction_component_hash (CAFEH2.self wc) 0
       = [[0; 1 / 2]]) /\
  (exists wa wb wc wd : IndependentFactorSER.world,
     IndependentFactorSER._update_weight_component 0 (Some 0%nat)
       IndependentFactorSER_runs.start = Some wa /\
     IndependentFactorSER.compute_first_moment 0 wa
       = ([[Some (1 / 2); Some 0]], wb) /\
     IndependentFactorSER.compute_second_moment 0 wb
       = ([[Some (3 / 4); Some (1 / 4)]], wc) /\
     IndependentFactorSER._update_weight_component 0 (Some 1%nat) wc
       = Some wd /\
     fst (IndependentFactorSER.compute_first_moment 0 wd)
       = [[Some (1 / 2); Some 0]] /\
     IndependentFactorSER._compute_first_moment_hash
       (IndependentFactorSER.self wd) 0 = [[Some 0; Some (1 / 2)]] /\
     fst (IndependentFactorSER.compute_second_moment 0 wd)
       = [[Some (3 / 4); Some (1 / 4)]] /\
     IndependentFactorSER._compute_second_moment_hash
       (IndependentFactorSER.self wd) 0 = [[Some (1 / 4); Some (3 / 4)]]).
Proof.
  split.
  - do 3 eexists.
    split; [apply CAFEH2_runs.one_first_update|].
    split; [apply CAFEH2_runs.one_first_prediction|].
    split; [apply CAFEH2_runs.one_second_update|].
    split; [apply CAFEH2_runs.one_second_prediction|].
    apply CAFEH2_runs.one_direct.
  - do 4 eexists.
    split; [apply IndependentFactorSER_runs.first_update|].
    split; [apply IndependentFactorSER_runs.first_moment_filled|].
    split; [apply IndependentFactorSER_runs.second_moment_filled|].
    split; [apply IndependentFactorSER_runs.second_update|].
    split; [apply IndependentFactorSER_runs.first_moment_stale|].
    split; [apply IndependentFactorSER_runs.first_moment_direct|].
    split; [apply IndependentFactorSER_runs.second_moment_stale|].
    apply IndependentFactorSER_runs.second_moment_direct.
Qed.

(** C3.  [sort_components] does not always leave the total prediction
    unchanged.  It clears the memo table of [_compute_prediction_component],
    not the one [compute_prediction_component] reads.  After the run below
    (three weight updates and two predictions on a fresh two-component
    model) the prediction is [[5/2, 1/2]] before the sort and [[1/2, 5/2]]
    after it; with an empty table the sorted model predicts [[5/2, 1/2]]. *)
Theorem C3_sort_components_changes_prediction :
  exists wa wb wc wd we : CAFEH2.world,
    CAFEH2._update_weight_component 0 false (Some [[0; 8]])
      CAFEH2_runs.two_start = Some wa /\
    CAFEH2._update_weight_component 1 false (Some [[8; 0]]) wa = Some wb /\
    CAFEH2.compute_prediction None wb = ([[2; 2]], wc) /\
    CAFEH2._update_weight_component 0 false (Some [[2; 2]]) wc = Some wd /\
    CAFEH2.compute_prediction None wd = ([[5 / 2; 1 / 2]], we) /\
    fst (CAFEH2.compute_prediction None (CAFEH2.sort_components we))
      = [[1 / 2; 5 / 2]] /\
    fst (CAFEH2.compute_prediction None
           (CAFEH2.Build_world (CAFEH2.self (CAFEH2.sort_components we)) [] []))
      = [[5 / 2; 1 / 2]].
Proof.
  do 5 eexists.
  split; [apply CAFEH2_runs.two_update_a|].
  split; [apply CAFEH2_runs.two_update_b|].
  split; [apply CAFEH2_runs.two_prediction_a|].
  split; [apply CAFEH2_runs.two_update_c|].
  split; [apply CAFEH2_runs.two_prediction_before|].
  rewrite CAFEH2_runs.two_sorted.
  split; [apply CAFEH2_runs.two_prediction_after|].
  apply CAFEH2_runs.two_prediction_after_clear.
Qed.

(** ** States used to instantiate the theorems *)

Module States.
Import IndependentFactorSER IndependentFactorSER_facts.

(** Settles the side conditions on small concrete indices. *)
Ltac bounded :=
  intros; cbn in *;
  repeat match goal with
  | H : (?n < _)%nat |- _ => is_var n; destruct n
  | H : (S _ < S _)%nat |- _ => apply <- Nat.succ_lt_mono in H
  | H : (_ < 0)%nat |- _ => exfalso; inversion H
  end;
  try lia; try reflexivity.

(** One variant, two samples, two outcome channels and one component.  The
    first channel misses its second observation, the second channel misses
    all of them.  The caller holds one residual array, with NaN where [Y]
    has NaN. *)
Definition partly_missing : world :=
  Build_world
    (Build_model [[Some 1; Some 1]] [[Some 2; None]; [None; None]] None [] []
       (Build_dims_t 1 2 2 1) [[Some 1]; [Some 1]] [Some 1]
       [[[Some 1]]; [[Some 0]]] [[[Some 1]]; [[Some 1]]] [[Some 1]]
       1e-6 1e-6 [[Some 1]; [Some 1]] [[Some 1]; [Some 1]] 1e-6 1e-6
       [Some 1; Some 1] [Some 1; Some 1] [] 1e-5)
    [] [] [[[Some 1; None]; [None; None]]].

Lemma partly_missing_regular : regular (self partly_missing).
Proof. constructor; bounded. Qed.


Lemma partly_missing_current : caches_current partly_missing.
Proof. apply caches_current_empty. Qed.

Lemma partly_missing_no_covariates : no_covariate_effect (self partly_missing).
Proof. reflexivity. Qed.




(** The fresh one-component model of the covariance-based engine. *)
Lemma one_start_wf : CAFEH2_facts.wf (CAFEH2.self CAFEH2_runs.one_start).
Proof. unfold CAFEH2_facts.wf. repeat split; bounded. Qed.

Lemma one_start_precision_ok :
  CAFEH2_facts.precision_ok (CAFEH2.self CAFEH2_runs.one_start).
Proof.
  intros t k Ht Hk. cbn in Ht, Hk.
  destruct t as [|t]; [|lia]. destruct k as [|k]; [|lia].
  unfold mget. cbn. lra.
Qed.

(** The log-scores of the only component of [partly_missing], for a
    Gaussian KL term that is zero. *)
Lemma partly_missing_scores :
  exists sc,
    pi_score (fun _ _ _ _ => Some 0) (self partly_missing)
      (residual_used 0 (Some 0%nat) partly_missing) 0 = map Some sc.
Proof.
  unfold pi_score, pi_score_tissue, residual_used, take_residual.
  cbn -[Req_dec_T Rlt_dec]. unfold fdiv, flog, fget, fget2, fget3.
  cbn -[Req_dec_T Rlt_dec].
  destruct (Req_dec_T 1 0) as [E|_]; [lra|].
  destruct (Rlt_dec 0 1) as [_|E]; [|lra].
  cbn. eexists [_]. reflexivity.
Qed.


End States.

(** ** The three ERSS formulas *)

(** C2, as stated, fails: with a fitted covariate [_compute_ERSS] and
    [_compute_ERSS3] return 1 and [_compute_ERSS_summary] returns 5, on a
    finite state whose memo tables are empty. *)
Lemma C2_summary_differs_with_covariate :
  IndependentFactorSER_facts.regular
    (IndependentFactorSER.self IndependentFactorSER_runs.with_covariate) /\
  IndependentFactorSER_facts.caches_current
    IndependentFactorSER_runs.with_covariate /\
  fst (IndependentFactorSER._compute_ERSS None
         IndependentFactorSER_runs.with_covariate) = [Some 1] /\
  fst (IndependentFactorSER._compute_ERSS3 None
         IndependentFactorSER_runs.with_covariate) = [Some 1] /\
  fst (IndependentFactorSER._compute_ERSS_summary
         IndependentFactorSER_runs.with_covariate) = [Some 5] /\
  fst (IndependentFactorSER._compute_ERSS None
         IndependentFactorSER_runs.with_covariate) <>
  fst (IndependentFactorSER._compute_ERSS_summary
         IndependentFactorSER_runs.with_covariate).
Proof.
  split; [constructor; States.bounded|].
  split; [apply IndependentFactorSER_facts.caches_current_empty|].
  rewrite IndependentFactorSER_runs.covariate_ERSS,
    IndependentFactorSER_runs.covariate_ERSS3,
    IndependentFactorSER_runs.covariate_ERSS_summary.
  repeat split. intros E. injection E as E. lra.
Qed.

(** C2, amended.  On every state with finite parameters whose memoised
    moments are current, with or without missing observations,
    [_compute_ERSS] and [_compute_ERSS3] return the same value for every
    residual, and without a covariate effect [_compute_ERSS_summary]
    returns that value too. *)
Theorem C2_ERSS_formulas_agree
  (w : IndependentFactorSER.world) (residual : option fmat) :
  IndependentFactorSER_facts.regular (IndependentFactorSER.self w) ->
  IndependentFactorSER_facts.caches_current w ->
  fst (IndependentFactorSER._compute_ERSS3 residual w) =
    fst (IndependentFactorSER._compute_ERSS residual w) /\
  (IndependentFactorSER_facts.no_covariate_effect (IndependentFactorSER.self w) ->
   fst (IndependentFactorSER._compute_ERSS_summary w) =
     fst (IndependentFactorSER._compute_ERSS None w) /\
   fst (IndependentFactorSER._compute_ERSS_summary w) =
     fst (IndependentFactorSER._compute_ERSS3 None w)).
Proof.
  intros H Hc.
  destruct (IndependentFactorSER_facts.ERSS_agree H Hc) as [H3 Hs].
  split; [apply H3|].
  intros H0. rewrite (H3 None). split; apply Hs, H0.
Qed.

Lemma C2_ERSS_formulas_agree_witness :
  IndependentFactorSER_facts.regular
    (IndependentFactorSER.self States.partly_missing) /\
  IndependentFactorSER_facts.caches_current States.partly_missing /\
  IndependentFactorSER_facts.no_covariate_effect
    (IndependentFactorSER.self States.partly_missing) /\
  fst (IndependentFactorSER._compute_ERSS3 None States.partly_missing) =
    fst (IndependentFactorSER._compute_ERSS None States.partly_missing) /\
  fst (IndependentFactorSER._compute_ERSS_summary States.partly_missing) =
    fst (IndependentFactorSER._compute_ERSS None States.partly_missing).
Proof.
  split; [exact States.partly_missing_regular|].
  split; [exact States.partly_missing_current|].
  split; [exact States.partly_missing_no_covariates|].
  destruct (C2_ERSS_formulas_agree None States.partly_missing_regular
              States.partly_missing_current) as [H3 Hs].
  split; [exact H3|].
  exact (proj1 (Hs States.partly_missing_no_covariates)).
Defined.

(** ** Posterior inclusion probabilities *)

(** C9, as stated, fails: for a single component that puts all its mass on
    one variant, [compute_pip] returns [1 - 1e-10], the formula of the
    specification gives 1. *)
Lemma C9_pip_is_offset :
  Misc.compute_pip (Misc.Build_fitted [[1]] (Some (Misc.Build_records_t [true])))
    = Some [1 - exp (0 + ln (1 - 1 + 1e-10))] /\
  1 - exp (0 + ln (1 - 1 + 1e-10)) = 1 - 1e-10 /\
  Misc.spec_pip [[1]] 0 = 1 /\
  1 - exp (0 + ln (1 - 1 + 1e-10)) <> Misc.spec_pip [[1]] 0.
Proof.
  assert (E : 1 - exp (0 + ln (1 - 1 + 1e-10)) = 1 - 1e-10).
  { rewrite Rplus_0_l, exp_ln; lra. }
  assert (S : Misc.spec_pip [[1]] 0 = 1).
  { unfold Misc.spec_pip, mget. simpl. lra. }
  split; [reflexivity|]. split; [exact E|]. split; [exact S|].
  rewrite E, S. lra.
Qed.

(** C9, amended.  For a model with records whose assignment entries are
    at most 1, [compute_pip] returns, for every variant [n],
    [1 - prod_k (1 - pi[k,n] + 1e-10)]. *)
Theorem C9_compute_pip_formula (model : Misc.fitted) (r : Misc.records_t) :
  Misc.records model = Some r ->
  (forall k n, (k < length (Misc.pi model))%nat ->
     mget (Misc.pi model) k n <= 1) ->
  Misc.compute_pip model =
  Some (tab (length (hd [] (Misc.pi model))) (fun n =>
          1 - Misc.prodn (length (Misc.pi model))
                (fun k => 1 - mget (Misc.pi model) k n + 1e-10))).
Proof.
  intros Hr Hp. unfold Misc.compute_pip. rewrite Hr. f_equal.
  unfold tab. apply map_ext. intros n. f_equal.
  apply (Misc.exp_sum_ln
           (fun k => 1 - mget (Misc.pi model) k n + 1e-10)).
  intros k Hk. specialize (Hp k n Hk). lra.
Qed.

Lemma C9_compute_pip_formula_witness :
  Misc.compute_pip
    (Misc.Build_fitted [[1 / 2; 1 / 2]; [1; 0]]
       (Some (Misc.Build_records_t [true; true]))) =
  Some (tab 2 (fun n =>
          1 - Misc.prodn 2
                (fun k => 1 - mget [[1 / 2; 1 / 2]; [1; 0]] k n + 1e-10))).
Proof.
  apply (@C9_compute_pip_formula
           (Misc.Build_fitted [[1 / 2; 1 / 2]; [1; 0]]
              (Some (Misc.Build_records_t [true; true])))
           (Misc.Build_records_t [true; true])).
  - reflexivity.
  - intros k n Hk. cbn in Hk. unfold mget.
    destruct k as [|[|k]]; [| |lia]; destruct n as [|[|[|n]]]; cbn; lra.
Defined.

(** ** Construction *)

(** C8, as stated, fails: both constructors accept inputs whose dimensions
    disagree.  The sample-based one takes genotypes of three samples with
    outcomes of two; the covariance-based one takes 2 x 2 covariance
    matrices with outcomes over three variants (for the identity [R2] the
    solution of [R2 x = R1] is [R1]). *)
Lemma C8_mismatched_inputs_are_accepted :
  (exists s,
     IndependentFactorSER.__init__
       [[Some 1; Some 1; Some 1]; [Some 0; Some 1; Some 0]]
       [[Some 2; Some 3]] 1 None None 1e-5 = Some s /\
     IndependentFactorSER.dims s = IndependentFactorSER.Build_dims_t 2 2 1 1 /\
     length (hd [] (IndependentFactorSER.X s)) = 3%nat) /\
  (exists s,
     CAFEH2.__init__ (fun _ B => Some B) CAFEH2_runs.I2 CAFEH2_runs.I2
       [[1; 2; 3]] 1 1 1 None 1e-5 = Some s /\
     CAFEH2.dims s = CAFEH2.Build_dims_t 3 1 1 /\
     length (CAFEH2.R1 s) = 2%nat).
Proof.
  split; eexists; (split; [reflexivity|]); split; reflexivity.
Qed.

(** C8, amended.  Construction compares no dimensions of its inputs with
    one another.  The sample-based constructor always succeeds without
    covariates, and with covariates fails exactly when an outcome channel
    has no covariate entry; it records N from [X] and (T, M) from [Y].
    The covariance-based constructor fails exactly when the linear solve
    of [R2] against [R1] or the product of [R1] with its solution fails,
    whatever [Y] is, and records (T, N) from [Y]. *)
Theorem C8_construction_compares_no_dimensions :
  (forall X Y K prior_pi tolerance,
     exists s,
       IndependentFactorSER.__init__ X Y K None prior_pi tolerance = Some s /\
       IndependentFactorSER.dims s =
         IndependentFactorSER.Build_dims_t (length X) (length (hd [] Y))
           (length Y) K /\
       IndependentFactorSER.X s = X /\ IndependentFactorSER.Y s = Y) /\
  (forall X Y K cov prior_pi tolerance,
     IndependentFactorSER.__init__ X Y K (Some cov) prior_pi tolerance = None
     <-> (length cov < length Y)%nat) /\
  (forall solve R1 R2 Y K prior_activity prior_variance prior_pi tolerance,
     CAFEH2.__init__ solve R1 R2 Y K prior_activity prior_variance prior_pi
       tolerance = None
     <-> (solve R2 R1 = None \/
          exists Sol, solve R2 R1 = Some Sol /\ CAFEH2.matmul R1 Sol = None)) /\
  (forall solve R1 R2 Y K prior_activity prior_variance prior_pi tolerance s,
     CAFEH2.__init__ solve R1 R2 Y K prior_activity prior_variance prior_pi
       tolerance = Some s ->
     CAFEH2.dims s = CAFEH2.Build_dims_t (length (hd [] Y)) (length Y) K /\
     CAFEH2.R1 s = R1 /\ CAFEH2.Y s = Y).
Proof.
  split; [|split; [|split]].
  - intros X Y K prior_pi tolerance. eexists. split; [reflexivity|].
    repeat split.
  - intros X Y K cov prior_pi tolerance. unfold IndependentFactorSER.__init__.
    destruct (length cov <? length Y)%nat eqn:E.
    + apply Nat.ltb_lt in E. tauto.
    + apply Nat.ltb_ge in E. split; [discriminate | lia].
  - intros solve R1 R2 Y K pa pv pp tol. unfold CAFEH2.__init__.
    destruct (solve R2 R1) as [Sol|]; [|tauto].
    destruct (CAFEH2.matmul R1 Sol) eqn:E.
    + split; [discriminate|].
      intros [H | (Sol' & H1 & H2)]; [discriminate|].
      injection H1 as <-. congruence.
    + split; [|reflexivity]. intros _. right. now exists Sol.
  - intros solve R1 R2 Y K pa pv pp tol s. unfold CAFEH2.__init__.
    destruct (solve R2 R1) as [Sol|]; [|discriminate].
    destruct (CAFEH2.matmul R1 Sol); [|discriminate].
    intros H. injection H as <-. repeat split.
Qed.

(** ** The assignment update *)

(** C4.  In both engines the assignment update of a component [k] writes a
    row of non-negative entries that sum to 1 (exactly, over the reals, and
    so within 1e-9): the softmax of the log-scores.  The model needs at
    least one variant; the sample-based scores are assumed finite. *)
Theorem C4_assignment_update_is_simplex
  (kl1 : R -> R -> R -> R -> R) (k1 : nat) (residual1 : option mat)
  (w1 : CAFEH2.world)
  (kl2 : fl -> fl -> fl -> fl -> fl) (k2 : nat) (residual2 : option nat)
  (w2 : IndependentFactorSER.world) (sc : vec) :
  (k1 < CAFEH2.dK (CAFEH2.self w1))%nat ->
  (0 < CAFEH2.dN (CAFEH2.self w1))%nat ->
  length (CAFEH2.pi (CAFEH2.self w1)) = CAFEH2.dK (CAFEH2.self w1) ->
  (k2 < IndependentFactorSER.dK (IndependentFactorSER.self w2))%nat ->
  (0 < IndependentFactorSER.dN (IndependentFactorSER.self w2))%nat ->
  length (IndependentFactorSER.pi (IndependentFactorSER.self w2)) =
    IndependentFactorSER.dK (IndependentFactorSER.self w2) ->
  IndependentFactorSER.pi_score kl2 (IndependentFactorSER.self w2)
    (IndependentFactorSER_facts.residual_used k2 residual2 w2) k2
    = map Some sc ->
  (exists w1' row,
     CAFEH2._update_pi_component kl1 k1 residual1 w1 = Some w1' /\
     nth k1 (CAFEH2.pi (CAFEH2.self w1')) [] = row /\
     length row = CAFEH2.dN (CAFEH2.self w1) /\
     (forall v, In v row -> 0 <= v) /\
     Rsum row = 1 /\ Rabs (Rsum row - 1) <= 1e-9) /\
  (exists w2' row,
     IndependentFactorSER._update_pi_component kl2 k2 residual2 w2 = Some w2' /\
     nth k2 (IndependentFactorSER.pi (IndependentFactorSER.self w2')) []
       = map Some row /\
     length row = IndependentFactorSER.dN (IndependentFactorSER.self w2) /\
     (forall v, In v row -> 0 <= v) /\
     Rsum row = 1 /\ Rabs (Rsum row - 1) <= 1e-9).
Proof.
  intros Hk1 HN1 Hp1 Hk2 HN2 Hp2 Hsc.
  assert (Z : forall x, x = 1 -> Rabs (x - 1) <= 1e-9).
  { intros x ->. rewrite Rminus_diag, Rabs_R0. lra. }
  split.
  - destruct (@CAFEH2_facts.update_pi_simplex kl1 k1 residual1 w1 Hk1 HN1 Hp1)
      as (w1' & E & Hl & Hpos & Hsum).
    exists w1', (nth k1 (CAFEH2.pi (CAFEH2.self w1')) []).
    repeat split; auto.
  - destruct (@IndependentFactorSER_facts.ser_update_pi_simplex
                kl2 k2 residual2 w2 sc Hk2 HN2 Hp2 Hsc)
      as (w2' & E & Hrow & Hl & Hpos & Hsum).
    exists w2', (CAFEH2.softmax sc). repeat split; auto.
Qed.

Lemma C4_assignment_update_is_simplex_witness :
  exists sc,
    IndependentFactorSER.pi_score (fun _ _ _ _ => Some 0)
      (IndependentFactorSER.self States.partly_missing)
      (IndependentFactorSER_facts.residual_used 0 (Some 0%nat)
         States.partly_missing) 0 = map Some sc /\
    (exists w1' row,
       CAFEH2._update_pi_component (fun _ _ _ _ => 0) 0 None
         CAFEH2_runs.one_start = Some w1' /\
       nth 0 (CAFEH2.pi (CAFEH2.self w1')) [] = row /\
       length row = 2%nat /\
       (forall v, In v row -> 0 <= v) /\
       Rsum row = 1 /\ Rabs (Rsum row - 1) <= 1e-9) /\
    (exists w2' row,
       IndependentFactorSER._update_pi_component (fun _ _ _ _ => Some 0) 0
         (Some 0%nat) States.partly_missing = Some w2' /\
       nth 0 (IndependentFactorSER.pi (IndependentFactorSER.self w2')) []
         = map Some row /\
       length row = 1%nat /\
       (forall v, In v row -> 0 <= v) /\
       Rsum row = 1 /\ Rabs (Rsum row - 1) <= 1e-9).
Proof.
  destruct States.partly_missing_scores as [sc Hsc].
  exists sc. split; [exact Hsc|].
  apply (@C4_assignment_update_is_simplex
           (fun _ _ _ _ => 0) 0 None CAFEH2_runs.one_start
           (fun _ _ _ _ => Some 0) 0 (Some 0%nat) States.partly_missing sc);
    first [exact Hsc | reflexivity | (cbn; lia)].
Defined.

(** ** The ARD step *)



(** ** The weight update *)



(** ** An outcome channel that is entirely missing *)



(** ** The residual array a caller passes *)

(** C10.  In the sample-based engine a residual passed to
    [_update_weight_component] or [_update_pi_component] is a reference [l]
    to an array the caller owns.  Either update overwrites that very array
    with its zeroed copy (zero wherever [Y] is NaN, the old entry
    elsewhere), computes from the zeroed array and leaves every other array
    alone.  A pi update that follows the weight update on the same
    reference reads the zeroed array, and one component step of [fit] with
    at least one update enabled binds [residual] to an array computed from
    the zeroed one. *)
Theorem C10_residual_is_zeroed_in_place
  (normal_kl : fl -> fl -> fl -> fl -> fl)
  (w : IndependentFactorSER.world) (k l : nat)
  (update_weights update_pi ARD_weights : bool) :
  (k < IndependentFactorSER.dK (IndependentFactorSER.self w))%nat ->
  (0 < IndependentFactorSER.dN (IndependentFactorSER.self w))%nat ->
  (l < length (IndependentFactorSER.heap w))%nat ->
  update_weights || update_pi = true ->
  let Y := IndependentFactorSER.Y (IndependentFactorSER.self w) in
  let zeroed := zero_nans Y (IndependentFactorSER.read w l) in
  (forall t m,
     (t < length (IndependentFactorSER.read w l))%nat ->
     (m < length (nth t (IndependentFactorSER.read w l) []))%nat ->
     fget2 zeroed t m =
       if isnan (fget2 Y t m) then Some 0
       else fget2 (IndependentFactorSER.read w l) t m) /\
  (exists w',
     IndependentFactorSER._update_weight_component k (Some l) w = Some w' /\
     IndependentFactorSER.read w' l = zeroed /\
     (forall l', l' <> l ->
        IndependentFactorSER.read w' l' = IndependentFactorSER.read w l') /\
     IndependentFactorSER.self w' =
       IndependentFactorSER.store_weights (IndependentFactorSER.self w)
         zeroed k /\
     exists w'',
       IndependentFactorSER._update_pi_component normal_kl k (Some l) w'
         = Some w'' /\
       IndependentFactorSER.read w'' l = zeroed /\
       IndependentFactorSER.self w'' =
         IndependentFactorSER.set_pi
           (upd k (IndependentFactorSER.fsoftmax
                     (IndependentFactorSER.pi_score normal_kl
                        (IndependentFactorSER.self w') zeroed k))
                  (IndependentFactorSER.pi (IndependentFactorSER.self w')))
           (IndependentFactorSER.self w')) /\
  (exists w',
     IndependentFactorSER._update_pi_component normal_kl k (Some l) w
       = Some w' /\
     IndependentFactorSER.read w' l = zeroed /\
     (forall l', l' <> l ->
        IndependentFactorSER.read w' l' = IndependentFactorSER.read w l') /\
     IndependentFactorSER.self w' =
       IndependentFactorSER.set_pi
         (upd k (IndependentFactorSER.fsoftmax
                   (IndependentFactorSER.pi_score normal_kl
                      (IndependentFactorSER.self w) zeroed k))
                (IndependentFactorSER.pi (IndependentFactorSER.self w)))
         (IndependentFactorSER.self w)) /\
  (exists residual' w' fm',
     IndependentFactorSER.fit_component normal_kl update_weights update_pi
       ARD_weights k (l, w) = Some (residual', w') /\
     IndependentFactorSER.read w' residual' =
       fmsub (zero_nans Y
                (fmadd (IndependentFactorSER.read w l)
                   (fst (IndependentFactorSER.compute_first_moment k w))))
             fm').
Proof.
  intros Hk HN Hl Hflags Y zeroed.
  split; [|split; [|split]].
  - intros t m Ht Hm. exact (@fget2_zero_nans Y _ t m Ht Hm).
  - destruct (@IndependentFactorSER_facts.update_weight_mutates k l w Hk Hl)
      as (w' & E & Hr & Hother & Hlen & Hs).
    exists w'. split; [exact E|]. split; [exact Hr|].
    split; [exact Hother|]. split; [exact Hs|].
    assert (Hk' : (k < IndependentFactorSER.dK (IndependentFactorSER.self w'))%nat)
      by (rewrite Hs; exact Hk).
    assert (HN' : (0 < IndependentFactorSER.dN (IndependentFactorSER.self w'))%nat)
      by (rewrite Hs; exact HN).
    assert (Hl' : (l < length (IndependentFactorSER.heap w'))%nat)
      by (rewrite Hlen; exact Hl).
    destruct (@IndependentFactorSER_facts.update_pi_mutates normal_kl k l w'
                Hk' HN' Hl') as (w'' & E' & Hr' & _ & _ & Hs').
    assert (HY : IndependentFactorSER.Y (IndependentFactorSER.self w') = Y)
      by (rewrite Hs; reflexivity).
    rewrite HY, Hr in Hr', Hs'.
    unfold zeroed in Hr', Hs'. rewrite zero_nans_idem in Hr', Hs'.
    exists w''. split; [exact E'|]. split; [exact Hr'|exact Hs'].
  - destruct (@IndependentFactorSER_facts.update_pi_mutates normal_kl k l w
                Hk HN Hl) as (w' & E & Hr & Hother & _ & Hs).
    exists w'. split; [exact E|]. split; [exact Hr|].
    split; [exact Hother|exact Hs].
  - exact (@IndependentFactorSER_facts.fit_component_zeroed normal_kl
             update_weights update_pi ARD_weights k l w Hk HN Hflags).
Qed.

Lemma C10_residual_is_zeroed_in_place_witness :
  (forall t m,
     (t < length (IndependentFactorSER.read States.partly_missing 0))%nat ->
     (m < length (nth t (IndependentFactorSER.read States.partly_missing 0) []))%nat ->
     fget2 (zero_nans
              (IndependentFactorSER.Y
                 (IndependentFactorSER.self States.partly_missing))
              (IndependentFactorSER.read States.partly_missing 0)) t m =
       if isnan (fget2 (IndependentFactorSER.Y
                          (IndependentFactorSER.self States.partly_missing)) t m)
       then Some 0
       else fget2 (IndependentFactorSER.read States.partly_missing 0) t m) /\
  (exists w',
     IndependentFactorSER._update_weight_component 0 (Some 0%nat)
       States.partly_missing = Some w' /\
     IndependentFactorSER.read w' 0 = [[Some 1; Some 0]; [Some 0; Some 0]] /\
     exists w'',
       IndependentFactorSER._update_pi_component (fun _ _ _ _ => Some 0) 0
         (Some 0%nat) w' = Some w'' /\
       IndependentFactorSER.read w'' 0 = [[Some 1; Some 0]; [Some 0; Some 0]]) /\
  (exists w',
     IndependentFactorSER._update_pi_component (fun _ _ _ _ => Some 0) 0
       (Some 0%nat) States.partly_missing = Some w' /\
     IndependentFactorSER.read w' 0 = [[Some 1; Some 0]; [Some 0; Some 0]]) /\
  (exists residual' w' fm',
     IndependentFactorSER.fit_component (fun _ _ _ _ => Some 0) true true false
       0 (0%nat, States.partly_missing) = Some (residual', w') /\
     IndependentFactorSER.read w' residual' =
       fmsub (zero_nans
                (IndependentFactorSER.Y
                   (IndependentFactorSER.self States.partly_missing))
                (fmadd (IndependentFactorSER.read States.partly_missing 0)
                   (fst (IndependentFactorSER.compute_first_moment 0
                           States.partly_missing))))
             fm').
Proof.
  assert (H0 : (0 < IndependentFactorSER.dK
                      (IndependentFactorSER.self States.partly_missing))%nat)
    by (cbn; lia).
  assert (H1 : (0 < IndependentFactorSER.dN
                      (IndependentFactorSER.self States.partly_missing))%nat)
    by (cbn; lia).
  assert (H2 : (0 < length (IndependentFactorSER.heap States.partly_missing))%nat)
    by (cbn; lia).
  destruct (@C10_residual_is_zeroed_in_place (fun _ _ _ _ => Some 0)
              States.partly_missing 0 0 true true false H0 H1 H2 eq_refl)
    as (Hz & (w' & E & Hr & _ & _ & w'' & E' & Hr' & _)
           & (w3 & E3 & Hr3 & _) & Hfit).
  split; [exact Hz|]. split; [|split; [|exact Hfit]].
  - exists w'. split; [exact E|]. split; [exact Hr|].
    exists w''. split; [exact E'|exact Hr'].
  - exists w3. split; [exact E3|exact Hr3].
Defined.

(* ================================================================== *)
(** * Further facts about the covariance-based engine *)
(* ================================================================== *)

From Stdlib Require Import Permutation Sorted.

(** ** Memoised predictions on a current table *)

Module CAFEH2_memo.
Import CAFEH2 CAFEH2_facts.

(** The memo table of [_compute_prediction_component_hash] is current for a
    state when every entry stored under the key the state produces holds
    the value the state produces. *)
Definition hash_current (s : model) (c : lru (nat * vec) mat) : Prop :=
  lru_all (fun key v =>
             snd key = fingerprint s (fst key) ->
             v = _compute_prediction_component_hash s (fst key)) c.

Definition current (w : world) : Prop := hash_current (self w) (hash_cache w).

Lemma current_empty s cc : current (Build_world s [] cc).
Proof. intros k v []. Qed.

Lemma component_current k w :
  current w ->
  fst (compute_prediction_component k w)
    = _compute_prediction_component_hash (self w) k /\
  current (snd (compute_prediction_component k w)).
Proof.
  intros H. unfold compute_prediction_component, current. cbn [fst snd self hash_cache].
  destruct (lru_call_all (P := fun key v =>
              snd key = fingerprint (self w) (fst key) ->
              v = _compute_prediction_component_hash (self w) (fst key))
              key_eq_dec 128 (k, fingerprint (self w) k)
              (fun _ => _compute_prediction_component_hash (self w) k)
              H) as [Hv Hc]; [reflexivity|].
  split; auto.
Qed.

(** The sum of the direct contributions of the components in [ls], added
    to [p] in place. *)
Definition add_direct (s : model) (ls : list nat) (p : mat) : mat :=
  fold_left (fun acc l => madd acc (_compute_prediction_component_hash s l)) ls p.

Lemma add_components_current ls p w :
  current w ->
  fst (add_components ls p w) = add_direct (self w) ls p /\
  current (snd (add_components ls p w)).
Proof.
  revert p w. induction ls as [|l ls IH]; intros p w Hc; cbn [add_components].
  { split; [reflexivity | exact Hc]. }
  destruct (component_current l Hc) as [Hv Hc1].
  pose proof (self_compute_prediction_component l w) as Hs.
  destruct (compute_prediction_component l w) as [c w1]. cbn [fst snd] in *.
  subst c. destruct (IH (madd p (_compute_prediction_component_hash (self w) l)) w1 Hc1)
    as [E Hc2].
  rewrite E, Hs. split; [reflexivity | exact Hc2].
Qed.

Lemma length_madd a b : length (madd a b) = length a.
Proof. unfold madd. apply length_mapi. Qed.

Lemma row_length_madd a b t :
  length (nth t (madd a b) []) = length (nth t a []).
Proof.
  unfold madd. destruct (Nat.lt_ge_cases t (length a)) as [Ht|Ht].
  - rewrite (nth_mapi _ _ [] []) by auto. apply length_mapi.
  - rewrite (@nth_overflow _ (mapi _ _) t []), (@nth_overflow _ _ t []);
      rewrite ?length_mapi; auto.
Qed.

Lemma mget_madd a b t j :
  (t < length a)%nat -> (j < length (nth t a []))%nat ->
  mget (madd a b) t j = mget a t j + mget b t j.
Proof.
  intros Ht Hj. unfold madd, mget at 1.
  rewrite (nth_mapi _ _ [] []) by auto.
  now rewrite (nth_mapi _ _ 0 0) by auto.
Qed.

Lemma mget_msub a b t j :
  (t < length a)%nat -> (j < length (nth t a []))%nat ->
  mget (msub a b) t j = mget a t j - mget b t j.
Proof.
  intros Ht Hj. unfold msub, mget at 1.
  rewrite (nth_mapi _ _ [] []) by auto.
  now rewrite (nth_mapi _ _ 0 0) by auto.
Qed.

Lemma row_zeros_like a t :
  nth t (zeros_like a) [] = map (fun _ => 0) (nth t a []).
Proof.
  unfold zeros_like. exact (map_nth (map (fun _ : R => 0)) a [] t).
Qed.

Lemma mget_zeros_like a t j : mget (zeros_like a) t j = 0.
Proof.
  unfold mget. rewrite row_zeros_like.
  exact (map_nth (fun _ : R => 0) (nth t a []) 0 j).
Qed.

Lemma shape_zeros_like a t :
  length (zeros_like a) = length a /\
  length (nth t (zeros_like a) []) = length (nth t a []).
Proof.
  split; [apply length_map|]. rewrite row_zeros_like. apply length_map.
Qed.

Lemma shape_add_direct s ls p t :
  length (add_direct s ls p) = length p /\
  length (nth t (add_direct s ls p) []) = length (nth t p []).
Proof.
  revert p. induction ls as [|l ls IH]; intros p; cbn; [auto|].
  destruct (IH (madd p (_compute_prediction_component_hash s l))) as [H1 H2].
  unfold add_direct in *. rewrite H1, H2, length_madd, row_length_madd. auto.
Qed.

Lemma mget_add_direct s n p t j :
  (t < length p)%nat -> (j < length (nth t p []))%nat ->
  mget (add_direct s (seq 0 n) p) t j =
  mget p t j + sumn n (fun l => mget (_compute_prediction_component_hash s l) t j).
Proof.
  intros Ht Hj. induction n as [|n IH];
    [unfold add_direct; cbn [seq fold_left sumn]; lra|].
  unfold add_direct in *. rewrite seq_S, fold_left_app. cbn [fold_left sumn].
  destruct (shape_add_direct s (seq 0 n) p t) as [H1 H2]. unfold add_direct in *.
  rewrite mget_madd by (rewrite ?H1, ?H2; auto).
  rewrite IH. cbn [Nat.add]. lra.
Qed.

(** The total of the direct contributions at position [(t, j)]. *)
Definition total_direct (s : model) (t j : nat) : R :=
  sumn (dK s) (fun l => mget (_compute_prediction_component_hash s l) t j).

Lemma prediction_current k w t j :
  current w ->
  (t < length (Y (self w)))%nat -> (j < length (nth t (Y (self w)) []))%nat ->
  mget (fst (compute_prediction k w)) t j =
    match k with
    | None => total_direct (self w) t j
    | Some k => total_direct (self w) t j
                - mget (_compute_prediction_component_hash (self w) k) t j
    end /\
  current (snd (compute_prediction k w)).
Proof.
  intros Hc Ht Hj. unfold compute_prediction.
  destruct (add_components_current (seq 0 (dK (self w)))
              (zeros_like (Y (self w))) Hc) as [E Hc1].
  pose proof (self_add_components (seq 0 (dK (self w)))
                (zeros_like (Y (self w))) w) as Hs.
  destruct (add_components _ _ w) as [p w1]. cbn [fst snd] in *. subst p.
  destruct (shape_zeros_like (Y (self w)) t) as [Z1 Z2].
  assert (Et : mget (add_direct (self w) (seq 0 (dK (self w)))
                       (zeros_like (Y (self w)))) t j = total_direct (self w) t j).
  { rewrite mget_add_direct by (rewrite ?Z1, ?Z2; auto).
    rewrite mget_zeros_like. unfold total_direct. lra. }
  destruct k as [k|]; cbn [fst snd].
  - destruct (component_current k Hc1) as [Hv Hc2].
    destruct (compute_prediction_component k w1) as [c w2]. cbn [fst snd] in *.
    subst c. rewrite Hs. split; [|exact Hc2].
    destruct (shape_add_direct (self w) (seq 0 (dK (self w)))
                (zeros_like (Y (self w))) t) as [A1 A2].
    rewrite mget_msub by (rewrite ?A1, ?A2, ?Z1, ?Z2; auto).
    now rewrite Et.
  - split; [exact Et | exact Hc1].
Qed.

End CAFEH2_memo.

(** ** Reordering the components *)

Module CAFEH2_sorting.
Import CAFEH2 CAFEH2_facts CAFEH2_memo.

Lemma insert_by_perm key i l : Permutation (insert_by key i l) (i :: l).
Proof.
  induction l as [|j l IH]; cbn [insert_by]; [reflexivity|].
  destruct (Rle_dec (key i) (key j)); [reflexivity|].
  rewrite IH. apply perm_swap.
Qed.

Lemma argsort_perm key n : Permutation (argsort key n) (seq 0 n).
Proof.
  unfold argsort. induction (seq 0 n) as [|i l IH]; cbn [fold_right]; [reflexivity|].
  rewrite insert_by_perm. now constructor.
Qed.

Lemma insert_by_sorted key i l :
  StronglySorted (fun a b => key a <= key b) l ->
  StronglySorted (fun a b => key a <= key b) (insert_by key i l).
Proof.
  induction l as [|j l IH]; intros H; cbn [insert_by].
  - repeat constructor.
  - inversion H as [|? ? Hl Hj]; subst.
    destruct (Rle_dec (key i) (key j)) as [Hle|Hgt].
    + constructor; [exact H|]. constructor; [exact Hle|].
      eapply Forall_impl; [|exact Hj]. cbn. intros a Ha. lra.
    + constructor; [now apply IH|].
      apply (Permutation_Forall (Permutation_sym (insert_by_perm key i l))).
      constructor; [lra | exact Hj].
Qed.

Lemma argsort_sorted key n :
  StronglySorted (fun a b => key a <= key b) (argsort key n).
Proof.
  unfold argsort. induction (seq 0 n) as [|i l IH]; cbn [fold_right].
  - constructor.
  - now apply insert_by_sorted.
Qed.

Lemma sorted_snoc (A : Type) (le : A -> A -> Prop) l x :
  StronglySorted le l -> Forall (fun y => le y x) l ->
  StronglySorted le (l ++ [x]).
Proof.
  induction l as [|a l IH]; intros Hs Hx; cbn.
  - repeat constructor.
  - inversion Hs as [|? ? Hl Ha]; subst. inversion Hx as [|? ? Hax Hlx]; subst.
    constructor; [now apply IH|].
    apply Forall_app. split; [exact Ha | now constructor].
Qed.

Lemma sorted_rev (A : Type) (le : A -> A -> Prop) l :
  StronglySorted le l -> StronglySorted (fun a b => le b a) (rev l).
Proof.
  induction 1 as [|a l Hl IH Ha]; cbn [rev]; [constructor|].
  apply sorted_snoc; [exact IH|].
  apply Forall_rev. exact Ha.
Qed.

(** The order [sort_components] applies. *)
Definition order (s : model) : list nat := rev (argsort (importance s) (dK s)).

Lemma order_perm s : Permutation (order s) (seq 0 (dK s)).
Proof.
  unfold order. rewrite <- Permutation_rev. apply argsort_perm.
Qed.

Lemma order_length s : length (order s) = dK s.
Proof. rewrite (Permutation_length (order_perm s)). apply length_seq. Qed.

Lemma order_sorted s :
  StronglySorted (fun a b => importance s b <= importance s a) (order s).
Proof. unfold order. apply sorted_rev, argsort_sorted. Qed.

Lemma nth_take (A : Type) (d : A) ord l k :
  (k < length ord)%nat -> nth k (take d ord l) d = nth (nth k ord 0%nat) l d.
Proof.
  intros Hk. unfold take.
  rewrite (nth_indep _ d ((fun j => nth j l d) 0%nat)) by now rewrite length_map.
  exact (map_nth (fun j => nth j l d) ord 0%nat k).
Qed.

Lemma row_map_take (A : Type) (d : A) ord (a : list (list A)) t :
  nth t (map (take d ord) a) [] =
  if (t <? length a)%nat then take d ord (nth t a []) else [].
Proof.
  destruct (t <? length a)%nat eqn:E.
  - apply Nat.ltb_lt in E.
    rewrite (nth_indep _ [] (take d ord [])) by now rewrite length_map.
    exact (map_nth (take d ord) a [] t).
  - apply Nat.ltb_ge in E. apply nth_overflow. now rewrite length_map.
Qed.

Lemma mget_map_take ord (a : mat) t k :
  (k < length ord)%nat ->
  mget (map (take 0 ord) a) t k = mget a t (nth k ord 0%nat).
Proof.
  intros Hk. unfold mget. rewrite row_map_take.
  destruct (t <? length a)%nat eqn:E.
  - now apply nth_take.
  - apply Nat.ltb_ge in E. rewrite (@nth_overflow _ a t []) by auto.
    destruct k; destruct (nth _ ord 0%nat); reflexivity.
Qed.

Lemma tget_map_take ord (a : ten) t k n :
  (k < length ord)%nat ->
  tget (map (take [] ord) a) t k n = tget a t (nth k ord 0%nat) n.
Proof.
  intros Hk. unfold tget. rewrite row_map_take.
  destruct (t <? length a)%nat eqn:E.
  - now rewrite nth_take.
  - apply Nat.ltb_ge in E. rewrite (@nth_overflow _ a t []) by auto.
    destruct k; destruct (nth _ ord 0%nat); destruct n; reflexivity.
Qed.

(** After the sort, component [k] contributes what component [order[k]]
    contributed before. *)
Lemma sorted_component w k :
  (k < dK (self w))%nat ->
  _compute_prediction_component_hash (self (sort_components w)) k =
  _compute_prediction_component_hash (self w) (nth k (order (self w)) 0%nat).
Proof.
  intros Hk. unfold _compute_prediction_component_hash, sort_components.
  fold (order (self w)). cbn [self dT dN dims set_pi set_active set_weight_means
    active pi weight_means R1].
  pose proof (order_length (self w)) as Hl.
  unfold tab. apply map_ext. intros t. apply map_ext. intros j.
  apply sumn_ext. intros n _.
  rewrite mget_map_take, tget_map_take by lia.
  unfold mget at 2 4. rewrite nth_take by lia. reflexivity.
Qed.

Lemma Rsum_perm (l l' : vec) : Permutation l l' -> Rsum l = Rsum l'.
Proof.
  induction 1 as [| x l l' _ IH | x y l | l l' l'' _ IH1 _ IH2]; cbn;
    try fold (Rsum l); try fold (Rsum l'); lra.
Qed.

Lemma map_nth_seq (ord : list nat) :
  map (fun k => nth k ord 0%nat) (seq 0 (length ord)) = ord.
Proof.
  apply nth_ext with (d := 0%nat) (d' := 0%nat);
    [now rewrite length_map, length_seq|].
  intros k Hk. rewrite length_map, length_seq in Hk.
  rewrite (nth_indep _ 0%nat ((fun k => nth k ord 0%nat) 0%nat))
    by now rewrite length_map, length_seq.
  rewrite (map_nth (fun k => nth k ord 0%nat)). now rewrite seq_nth.
Qed.

Lemma sumn_perm n ord (f : nat -> R) :
  Permutation ord (seq 0 n) ->
  sumn n (fun k => f (nth k ord 0%nat)) = sumn n f.
Proof.
  intros Hp.
  assert (Hl : length ord = n)
    by (rewrite (Permutation_length Hp); apply length_seq).
  rewrite <- (Rsum_tab n f), <- (Rsum_tab n (fun k => f (nth k ord 0%nat))).
  unfold tab.
  rewrite <- (map_map (fun k => nth k ord 0%nat) f).
  rewrite <- Hl at 1. rewrite map_nth_seq.
  apply Rsum_perm. now apply Permutation_map.
Qed.

Lemma total_direct_sorted w t j :
  total_direct (self (sort_components w)) t j = total_direct (self w) t j.
Proof.
  unfold total_direct.
  change (dK (self (sort_components w))) with (dK (self w)).
  rewrite <- (@sumn_perm (dK (self w)) (order (self w)) (fun l =>
                mget (_compute_prediction_component_hash (self w) l) t j)
              (order_perm (self w))).
  apply sumn_ext. intros k Hk. now rewrite sorted_component.
Qed.

End CAFEH2_sorting.

(** ** What the update rules leave alone, and full passes *)

Module CAFEH2_passes.
Import CAFEH2 CAFEH2_facts.

(** The attributes no update rule writes. *)
Definition same_data (s s' : model) : Prop :=
  R1 s' = R1 s /\ R2 s' = R2 s /\ Y s' = Y s /\ dims s' = dims s /\
  prior_component_precision s' = prior_component_precision s /\
  prior_activity s' = prior_activity s /\ prior_pi s' = prior_pi s /\
  active s' = active s /\ R2invR1 s' = R2invR1 s /\
  R1R2invR1 s' = R1R2invR1 s.

Lemma same_data_refl s : same_data s s.
Proof. repeat split. Qed.

Lemma same_data_trans s1 s2 s3 :
  same_data s1 s2 -> same_data s2 s3 -> same_data s1 s3.
Proof.
  unfold same_data. intros H1 H2.
  decompose [and] H1. decompose [and] H2. repeat split; congruence.
Qed.

Lemma weight_update_frame k ARD residual w w' :
  _update_weight_component k ARD residual w = Some w' ->
  same_data (self w) (self w') /\
  pi (self w') = pi (self w) /\
  (ARD = false -> prior_precision (self w') = prior_precision (self w)) /\
  (forall t j, j <> k ->
     mget (prior_precision (self w')) t j = mget (prior_precision (self w)) t j) /\
  (forall t j n, j <> k ->
     tget (weight_vars (self w')) t j n = tget (weight_vars (self w)) t j n /\
     tget (weight_means (self w')) t j n = tget (weight_means (self w)) t j n).
Proof.
  intros H.
  assert (Hfr : forall t j n, j <> k ->
            tget (weight_vars (self w')) t j n = tget (weight_vars (self w)) t j n /\
            tget (weight_means (self w')) t j n = tget (weight_means (self w)) t j n)
    by (intros t j n Hj; exact (@update_weight_frame k ARD residual w w' j t n H Hj)).
  unfold _update_weight_component in H.
  destruct (k <? dK (self w))%nat.
  - destruct (residual_world k residual w) as [w1 [E Hs]].
    rewrite E, Hs in H. injection H as <-. unfold with_self in *. cbn [self] in *.
    split; [destruct ARD; repeat split|].
    split; [now destruct ARD|].
    split; [intros ->; reflexivity|].
    split; [|exact Hfr].
    intros t j Hj. destruct ARD; [|reflexivity].
    change (prior_precision (store_weights (ARD_update (self w) k)
                               (residual_used k residual w) k))
      with (prior_precision (ARD_update (self w) k)).
    now apply ARD_update_other.
  - destruct residual; [|discriminate].
    destruct (negb ARD && _); [|discriminate]. injection H as <-.
    split; [apply same_data_refl|]. repeat split; auto.
Qed.

Section Assignment.

Variable normal_kl : R -> R -> R -> R -> R.

Lemma pi_update_runs k residual w :
  (k < dK (self w))%nat -> (0 < dN (self w))%nat ->
  exists w1,
    self w1 = self w /\
    _update_pi_component normal_kl k residual w =
    Some (with_self
            (set_pi (upd k (softmax (pi_score normal_kl (self w)
                                       (residual_used k residual w) k))
                       (pi (self w)))
                    (self w)) w1).
Proof.
  intros Hk HN. unfold _update_pi_component.
  apply Nat.ltb_lt in Hk. rewrite Hk.
  destruct (residual_world k residual w) as [w1 [-> Hs]].
  exists w1. split; auto. rewrite Hs.
  destruct (dN (self w) =? 0)%nat eqn:E; [apply Nat.eqb_eq in E; lia|].
  reflexivity.
Qed.

Lemma pi_update_frame k residual w w' :
  _update_pi_component normal_kl k residual w = Some w' ->
  same_data (self w) (self w') /\
  weight_means (self w') = weight_means (self w) /\
  weight_vars (self w') = weight_vars (self w) /\
  prior_precision (self w') = prior_precision (self w) /\
  length (pi (self w')) = length (pi (self w)) /\
  (forall j, j <> k -> nth j (pi (self w')) [] = nth j (pi (self w)) []).
Proof.
  intros H. unfold _update_pi_component in H.
  destruct (k <? dK (self w))%nat; [|discriminate].
  destruct (residual_world k residual w) as [w1 [E Hs]].
  rewrite E, Hs in H.
  destruct (dN (self w) =? 0)%nat; [discriminate|].
  injection H as <-. unfold with_self. cbn [self].
  split; [repeat split|]. split; [reflexivity|]. split; [reflexivity|].
  split; [reflexivity|]. split; [cbn; apply length_upd|].
  intros j Hj. cbn. now apply nth_upd_other.
Qed.

(** Row [k] of [pi] is a probability vector over the N variants. *)
Definition simplex_row (s : model) (k : nat) : Prop :=
  length (nth k (pi s) []) = dN s /\
  (forall v, In v (nth k (pi s) []) -> 0 <= v) /\
  Rsum (nth k (pi s) []) = 1.

Lemma update_pi_loop_simplex ks w :
  (forall k, In k ks -> (k < dK (self w))%nat) ->
  (0 < dN (self w))%nat -> length (pi (self w)) = dK (self w) ->
  exists w',
    update_pi_loop normal_kl ks w = Some w' /\
    same_data (self w) (self w') /\
    weight_means (self w') = weight_means (self w) /\
    weight_vars (self w') = weight_vars (self w) /\
    prior_precision (self w') = prior_precision (self w) /\
    length (pi (self w')) = length (pi (self w)) /\
    (forall j, In j ks \/ simplex_row (self w) j -> simplex_row (self w') j) /\
    (forall j, ~ In j ks -> nth j (pi (self w')) [] = nth j (pi (self w)) []).
Proof.
  revert w. induction ks as [|k ks IH]; intros w Hks HN Hpi; cbn [update_pi_loop].
  { exists w. split; [reflexivity|]. split; [apply same_data_refl|].
    do 4 (split; [reflexivity|]).
    split; [intros j [[]|H]; exact H | reflexivity]. }
  assert (Hk : (k < dK (self w))%nat) by (apply Hks; now left).
  destruct (@update_pi_simplex normal_kl k None w Hk HN Hpi)
    as (w1 & E & Hl & Hpos & Hsum).
  rewrite E.
  destruct (@pi_update_frame k None w w1 E) as (Hd & Hwm & Hwv & Hpp & Hlen & Hrows).
  assert (Hdims : dims (self w1) = dims (self w)) by apply Hd.
  assert (HK1 : dK (self w1) = dK (self w)) by (unfold dK; now rewrite Hdims).
  assert (HN1 : dN (self w1) = dN (self w)) by (unfold dN; now rewrite Hdims).
  destruct (IH w1) as (w' & E' & Hd' & Hwm' & Hwv' & Hpp' & Hlen' & Hsim & Hout).
  { intros j Hj. rewrite HK1. apply Hks. now right. }
  { now rewrite HN1. }
  { now rewrite Hlen, HK1. }
  exists w'. split; [exact E'|]. split; [eapply same_data_trans; eauto|].
  split; [congruence|]. split; [congruence|]. split; [congruence|].
  split; [congruence|]. split.
  - intros j Hj. apply Hsim.
    destruct (in_dec Nat.eq_dec j ks) as [Hin|Hnin]; [now left|]. right.
    destruct (Nat.eq_dec j k) as [->|Hne].
    + unfold simplex_row. rewrite HN1. auto.
    + unfold simplex_row. rewrite HN1, (Hrows j Hne).
      destruct Hj as [[Hj|Hj]|Hj]; [congruence | contradiction | exact Hj].
  - intros j Hj. rewrite Hout by (intros Hin; apply Hj; now right).
    apply Hrows. intros ->. apply Hj. now left.
Qed.

End Assignment.

(** The stored variance of component [k] is the one the update rule
    computes from the current prior. *)
Definition var_formula (s : model) (k : nat) : Prop :=
  forall t n, (t < dT s)%nat -> (n < dN s)%nat ->
    tget (weight_vars s) t k n =
    1 / (mget (R1R2invR1 s) n n + 1 / mget (prior_variance s) t k).

Lemma prior_variance_column s s' t k :
  wf s -> wf s' -> dims s' = dims s ->
  prior_component_precision s' = prior_component_precision s ->
  (t < dT s)%nat -> (k < dK s)%nat ->
  mget (prior_precision s') t k = mget (prior_precision s) t k ->
  mget (prior_variance s') t k = mget (prior_variance s) t k.
Proof.
  intros Hwf Hwf' Hd Hc Ht Hk Hp.
  rewrite !mget_prior_variance; auto; unfold dT, dK in *; rewrite ?Hd; auto.
  now rewrite Hp, Hc.
Qed.

Lemma update_weights_loop_formula ks ARD w :
  wf (self w) -> precision_ok (self w) ->
  (forall k, In k ks -> (k < dK (self w))%nat) ->
  exists w',
    update_weights_loop ks ARD w = Some w' /\
    wf (self w') /\ precision_ok (self w') /\
    same_data (self w) (self w') /\ pi (self w') = pi (self w) /\
    (ARD = false -> prior_precision (self w') = prior_precision (self w)) /\
    (forall j, In j ks \/ var_formula (self w) j -> (j < dK (self w))%nat ->
       var_formula (self w') j).
Proof.
  revert w. induction ks as [|k ks IH]; intros w Hwf Hok Hks;
    cbn [update_weights_loop].
  { exists w. split; [reflexivity|]. split; [exact Hwf|]. split; [exact Hok|].
    split; [apply same_data_refl|]. split; [reflexivity|].
    split; [reflexivity|]. intros j [[]|H] _; exact H. }
  assert (Hk : (k < dK (self w))%nat) by (apply Hks; now left).
  destruct (@update_weight_closed_form k ARD None w Hwf Hk) as (w1 & E & Hform).
  rewrite E.
  destruct (@update_weight_invariant k ARD None w w1 E Hwf Hok) as [Hwf1 Hok1].
  destruct (@weight_update_frame k ARD None w w1 E) as (Hd & Hpi & Hnard & Hcol & Hfr).
  assert (Hdims : dims (self w1) = dims (self w)) by apply Hd.
  assert (Hpcp : prior_component_precision (self w1)
                 = prior_component_precision (self w)) by apply Hd.
  assert (Hgram : R1R2invR1 (self w1) = R1R2invR1 (self w)) by apply Hd.
  assert (HK1 : dK (self w1) = dK (self w)) by (unfold dK; now rewrite Hdims).
  assert (HT1 : dT (self w1) = dT (self w)) by (unfold dT; now rewrite Hdims).
  assert (HN1 : dN (self w1) = dN (self w)) by (unfold dN; now rewrite Hdims).
  destruct (IH w1 Hwf1 Hok1) as (w' & E' & Hwf' & Hok' & Hd' & Hpi' & Hnard' & Hall).
  { intros j Hj. rewrite HK1. apply Hks. now right. }
  exists w'. split; [exact E'|]. split; [exact Hwf'|]. split; [exact Hok'|].
  split; [eapply same_data_trans; eauto|]. split; [congruence|].
  split; [intros HA; rewrite (Hnard' HA); auto|].
  intros j Hj HjK. apply Hall; [|now rewrite HK1].
  destruct (in_dec Nat.eq_dec j ks) as [Hin|Hnin]; [now left|]. right.
  destruct (Nat.eq_dec j k) as [->|Hne].
  - intros t n Ht Hn. rewrite HT1 in Ht. rewrite HN1 in Hn.
    destruct (Hform t n Ht Hn) as (Hv & _). cbv zeta in Hv.
    rewrite Hv. unfold spec_variance, spec_precision. f_equal. ring.
  - destruct Hj as [[Hj|Hj]|Hj]; [congruence | contradiction |].
    intros t n Ht Hn. rewrite HT1 in Ht. rewrite HN1 in Hn.
    destruct (Hfr t j n Hne) as [-> _]. rewrite Hgram.
    rewrite (@prior_variance_column (self w) (self w1) t j); auto.
Qed.

End CAFEH2_passes.

(** ** One sweep of [fit] *)

Module CAFEH2_sweep.
Import CAFEH2 CAFEH2_facts CAFEH2_passes.

(** [w'] differs from [w] in the parameters of component [l] at most. *)
Definition refines (l : nat) (w w' : world) : Prop :=
  same_data (self w) (self w') /\
  length (pi (self w')) = length (pi (self w)) /\
  (forall j, j <> l -> nth j (pi (self w')) [] = nth j (pi (self w)) []) /\
  (forall t j n, j <> l ->
     tget (weight_vars (self w')) t j n = tget (weight_vars (self w)) t j n /\
     tget (weight_means (self w')) t j n = tget (weight_means (self w)) t j n) /\
  (forall t j, j <> l ->
     mget (prior_precision (self w')) t j = mget (prior_precision (self w)) t j).

Lemma refines_self l w w' : self w' = self w -> refines l w w'.
Proof.
  intros E. unfold refines. rewrite E.
  split; [apply same_data_refl|]. repeat split.
Qed.

Lemma refines_trans l w1 w2 w3 :
  refines l w1 w2 -> refines l w2 w3 -> refines l w1 w3.
Proof.
  intros (D1 & L1 & P1 & W1 & Q1) (D2 & L2 & P2 & W2 & Q2).
  split; [eapply same_data_trans; eauto|]. split; [congruence|].
  split; [intros j Hj; rewrite P2, P1; auto|].
  split.
  - intros t j n Hj. destruct (W1 t j n Hj), (W2 t j n Hj). split; congruence.
  - intros t j Hj. rewrite Q2, Q1; auto.
Qed.

Lemma refines_weight k ARD residual w w' :
  _update_weight_component k ARD residual w = Some w' -> refines k w w'.
Proof.
  intros E.
  destruct (@weight_update_frame k ARD residual w w' E) as (Hd & Hpi & _ & Hcol & Hfr).
  split; [exact Hd|]. rewrite Hpi. repeat split; auto; apply Hfr; auto.
Qed.

Lemma same_dims s s' :
  same_data s s' -> dT s' = dT s /\ dK s' = dK s /\ dN s' = dN s.
Proof.
  intros Hd. assert (E : dims s' = dims s) by apply Hd.
  unfold dT, dK, dN. now rewrite E.
Qed.


Lemma var_formula_refines l w w' j :
  refines l w w' -> wf (self w) -> wf (self w') -> j <> l ->
  (j < dK (self w))%nat -> var_formula (self w) j -> var_formula (self w') j.
Proof.
  intros (Hd & _ & _ & Hw & Hq) Hwf Hwf' Hj HjK Hf t n Ht Hn.
  destruct (same_dims Hd) as (HT & HK & HN). rewrite HT in Ht. rewrite HN in Hn.
  destruct (Hw t j n Hj) as [-> _].
  assert (Hg : R1R2invR1 (self w') = R1R2invR1 (self w)) by apply Hd.
  rewrite Hg, (@prior_variance_column (self w) (self w') t j); auto; apply Hd.
Qed.

Section Sweep.

Variable normal_kl : R -> R -> R -> R -> R.

Lemma refines_pi k residual w w' :
  _update_pi_component normal_kl k residual w = Some w' ->
  refines k w w' /\
  weight_vars (self w') = weight_vars (self w) /\
  prior_precision (self w') = prior_precision (self w).
Proof.
  intros E.
  destruct (@pi_update_frame normal_kl k residual w w' E)
    as (Hd & Hwm & Hwv & Hpp & Hlen & Hrows).
  split; [|split; auto].
  split; [exact Hd|]. rewrite Hwm, Hwv, Hpp. repeat split; auto.
Qed.

Lemma simplex_row_other l w w' j :
  refines l w w' -> j <> l ->
  simplex_row (self w) j -> simplex_row (self w') j.
Proof.
  intros (Hd & _ & Hp & _) Hj H. destruct (same_dims Hd) as (_ & _ & HN).
  unfold simplex_row. now rewrite HN, (Hp j Hj).
Qed.

Lemma fit_component_runs uw up ARD l r w :
  wf (self w) -> precision_ok (self w) ->
  (l < dK (self w))%nat -> (0 < dN (self w))%nat ->
  exists r' w',
    fit_component normal_kl uw up ARD l (r, w) = Some (r', w') /\
    wf (self w') /\ precision_ok (self w') /\ refines l w w' /\
    (up = true \/ simplex_row (self w) l -> simplex_row (self w') l) /\
    (uw = true \/ var_formula (self w) l -> var_formula (self w') l).
Proof.
  intros Hwf Hok Hl HN. unfold fit_component.
  destruct (compute_prediction_component l w) as [c w1] eqn:E1.
  assert (Hs1 : self w1 = self w).
  { change w1 with (snd (c, w1)). rewrite <- E1.
    apply self_compute_prediction_component. }
  set (r1 := madd r c).
  (* the weight update *)
  assert (H2 : exists w2,
    (if uw then _update_weight_component l ARD (Some r1) w1 else Some w1)
      = Some w2 /\
    wf (self w2) /\ precision_ok (self w2) /\ refines l w w2 /\
    pi (self w2) = pi (self w) /\
    (uw = true \/ var_formula (self w) l -> var_formula (self w2) l)).
  { destruct uw.
    - assert (Hwf1 : wf (self w1)) by now rewrite Hs1.
      assert (Hok1 : precision_ok (self w1)) by now rewrite Hs1.
      assert (Hl1 : (l < dK (self w1))%nat) by now rewrite Hs1.
      destruct (@update_weight_closed_form l ARD (Some r1) w1 Hwf1 Hl1)
        as (w2 & E & Hform).
      destruct (@update_weight_invariant l ARD (Some r1) w1 w2 E Hwf1 Hok1)
        as [Hwf2 Hok2].
      pose proof (@refines_weight l ARD (Some r1) w1 w2 E) as Hr.
      destruct (@weight_update_frame l ARD (Some r1) w1 w2 E) as (_ & Hpi & _).
      exists w2. split; [exact E|]. split; [exact Hwf2|]. split; [exact Hok2|].
      split; [eapply refines_trans; [apply refines_self; exact Hs1 | exact Hr]|].
      split; [now rewrite Hpi, Hs1|].
      intros _ t n Ht Hn.
      destruct Hr as (Hd & _). destruct (same_dims Hd) as (HT & _ & HN2).
      rewrite HT in Ht. rewrite HN2 in Hn.
      destruct (Hform t n Ht Hn) as (Hv & _). cbv zeta in Hv.
      rewrite Hv. unfold spec_variance, spec_precision. f_equal. ring.
    - exists w1. rewrite Hs1. split; [reflexivity|].
      split; [exact Hwf|]. split; [exact Hok|].
      split; [now apply refines_self|]. split; [reflexivity|].
      intros [Hc|Hf]; [discriminate | exact Hf]. }
  destruct H2 as (w2 & -> & Hwf2 & Hok2 & Hr2 & Hpi2 & Hv2).
  destruct Hr2 as (Hd2 & Hrest2). destruct (same_dims Hd2) as (HT2 & HK2 & HN2).
  (* the assignment update *)
  assert (H3 : exists w3,
    (if up then _update_pi_component normal_kl l (Some r1) w2 else Some w2)
      = Some w3 /\
    wf (self w3) /\ precision_ok (self w3) /\ refines l w w3 /\
    (up = true \/ simplex_row (self w) l -> simplex_row (self w3) l) /\
    (uw = true \/ var_formula (self w) l -> var_formula (self w3) l)).
  { destruct up.
    - assert (Hl2 : (l < dK (self w2))%nat) by now rewrite HK2.
      assert (HN2' : (0 < dN (self w2))%nat) by now rewrite HN2.
      assert (Hp2 : length (pi (self w2)) = dK (self w2)) by apply Hwf2.
      destruct (@update_pi_simplex normal_kl l (Some r1) w2 Hl2 HN2' Hp2)
        as (w3 & E & Hlen & Hpos & Hsum).
      destruct (@update_pi_invariant normal_kl l (Some r1) w2 w3 E Hwf2 Hok2)
        as [Hwf3 Hok3].
      destruct (@refines_pi l (Some r1) w2 w3 E) as (Hr3 & Hwv3 & Hpp3).
      exists w3. split; [exact E|]. split; [exact Hwf3|]. split; [exact Hok3|].
      split; [eapply refines_trans; [split; [exact Hd2 | exact Hrest2] | exact Hr3]|].
      destruct Hr3 as (Hd3 & _). destruct (same_dims Hd3) as (HT3 & HK3 & HN3).
      split.
      + intros _. unfold simplex_row. rewrite HN3. auto.
      + intros H t n Ht Hn. rewrite HT3 in Ht. rewrite HN3 in Hn.
        unfold tget. rewrite Hwv3. fold (tget (weight_vars (self w2)) t l n).
        rewrite (Hv2 H t n Ht Hn).
        assert (Hg : R1R2invR1 (self w3) = R1R2invR1 (self w2)) by apply Hd3.
        rewrite Hg.
        rewrite (@prior_variance_column (self w2) (self w3) t l); auto;
          try apply Hd3. now rewrite Hpp3.
    - exists w2. split; [reflexivity|]. split; [exact Hwf2|].
      split; [exact Hok2|]. split; [split; [exact Hd2 | exact Hrest2]|].
      split; [|exact Hv2].
      intros [Hc|Hf]; [discriminate|].
      unfold simplex_row. now rewrite HN2, Hpi2. }
  destruct H3 as (w3 & -> & Hwf3 & Hok3 & Hr3 & Hs3 & Hv3).
  destruct (compute_prediction_component l w3) as [c' w4] eqn:E4.
  assert (Hs4 : self w4 = self w3).
  { change w4 with (snd (c', w4)). rewrite <- E4.
    apply self_compute_prediction_component. }
  exists (msub r1 c'), w4. split; [reflexivity|]. rewrite Hs4.
  split; [exact Hwf3|]. split; [exact Hok3|].
  split; [eapply refines_trans; [exact Hr3 | now apply refines_self]|].
  split; auto.
Qed.

Lemma fit_sweep_runs uw up ARD ks r w :
  wf (self w) -> precision_ok (self w) ->
  (forall l, In l ks -> (l < dK (self w))%nat) -> (0 < dN (self w))%nat ->
  exists r' w',
    fit_sweep normal_kl uw up ARD ks (r, w) = Some (r', w') /\
    wf (self w') /\ precision_ok (self w') /\
    same_data (self w) (self w') /\
    (forall j, (j < dK (self w))%nat ->
       up = true /\ In j ks \/ simplex_row (self w) j ->
       simplex_row (self w') j) /\
    (forall j, (j < dK (self w))%nat ->
       uw = true /\ In j ks \/ var_formula (self w) j ->
       var_formula (self w') j).
Proof.
  revert r w. induction ks as [|l ks IH]; intros r w Hwf Hok Hks HN;
    cbn [fit_sweep].
  { exists r, w. split; [reflexivity|]. split; [exact Hwf|]. split; [exact Hok|].
    split; [apply same_data_refl|].
    split; intros j _ [[_ []]|H]; exact H. }
  assert (Hl : (l < dK (self w))%nat) by (apply Hks; now left).
  destruct (@fit_component_runs uw up ARD l r w Hwf Hok Hl HN)
    as (r1 & w1 & -> & Hwf1 & Hok1 & Hr1 & Hs1 & Hv1).
  pose proof Hr1 as (Hd1 & _). destruct (same_dims Hd1) as (HT1 & HK1 & HN1).
  destruct (IH r1 w1 Hwf1 Hok1) as (r' & w' & E & Hwf' & Hok' & Hd' & Hs' & Hv').
  { intros j Hj. rewrite HK1. apply Hks. now right. }
  { now rewrite HN1. }
  exists r', w'. split; [exact E|]. split; [exact Hwf'|]. split; [exact Hok'|].
  split; [eapply same_data_trans; eauto|]. split.
  - intros j HjK Hj. apply Hs'; [now rewrite HK1|].
    destruct (in_dec Nat.eq_dec j ks) as [Hin|Hnin].
    + destruct up eqn:Eup; [now left|]. right.
      destruct Hj as [[Hc _]|Hj]; [discriminate|].
      destruct (Nat.eq_dec j l) as [->|Hne]; [apply Hs1; now right|].
      eapply simplex_row_other; eauto.
    + right. destruct (Nat.eq_dec j l) as [->|Hne].
      * apply Hs1. destruct Hj as [[Hu _]|Hj]; [now left | now right].
      * destruct Hj as [[_ [Hj|Hj]]|Hj]; [congruence | contradiction |].
        eapply simplex_row_other; eauto.
  - intros j HjK Hj. apply Hv'; [now rewrite HK1|].
    destruct (in_dec Nat.eq_dec j ks) as [Hin|Hnin].
    + destruct uw eqn:Euw; [now left|]. right.
      destruct Hj as [[Hc _]|Hj]; [discriminate|].
      destruct (Nat.eq_dec j l) as [->|Hne]; [apply Hv1; now right|].
      eapply var_formula_refines; eauto.
    + right. destruct (Nat.eq_dec j l) as [->|Hne].
      * apply Hv1. destruct Hj as [[Hu _]|Hj]; [now left | now right].
      * destruct Hj as [[_ [Hj|Hj]]|Hj]; [congruence | contradiction |].
        eapply var_formula_refines; eauto.
Qed.

End Sweep.

End CAFEH2_sweep.

(** ** The freshly constructed model *)

Module CAFEH2_construction.
Import CAFEH2 CAFEH2_facts CAFEH2_passes.


Lemma mget_tab T K (f : nat -> nat -> R) t k :
  (t < T)%nat -> (k < K)%nat ->
  mget (tab T (fun t => tab K (f t))) t k = f t k.
Proof. intros Ht Hk. unfold mget. now rewrite !nth_tab. Qed.

Lemma tget_tab T K N (f : nat -> nat -> nat -> R) t k n :
  (t < T)%nat -> (k < K)%nat -> (n < N)%nat ->
  tget (tab T (fun t => tab K (fun k => tab N (f t k)))) t k n = f t k n.
Proof. intros Ht Hk Hn. unfold tget. now rewrite !nth_tab. Qed.

Section Init.

Variable solve : mat -> mat -> option mat.

Lemma init_inversion R1 R2 Y K pa pv pp tol s :
  __init__ solve R1 R2 Y K pa pv pp tol = Some s ->
  exists Sol RS,
    solve R2 R1 = Some Sol /\ matmul R1 Sol = Some RS /\
    s = Build_model R1 R2 Y (Build_dims_t (length (hd [] Y)) (length Y) K)
          (tab (length Y) (fun _ => tab K (fun _ => 1 * pv)))
          (tab K (fun _ => 1))
          (tab K (fun _ => 1 * pa))
          (match pp with
           | Some p => p
           | None => tab (length (hd [] Y)) (fun _ => 1 / INR (length (hd [] Y)))
           end)
          (tab K (fun _ => tab (length (hd [] Y))
                             (fun _ => 1 / INR (length (hd [] Y)))))
          (tab (length Y) (fun _ => tab K (fun _ =>
             tab (length (hd [] Y)) (fun _ => 0))))
          (tab (length Y) (fun t => tab K (fun k =>
             tab (length (hd [] Y)) (fun _ =>
               let pvar :=
                 1 / (mget (tab (length Y) (fun _ => tab K (fun _ => 1 * pv))) t k
                      * vget (tab K (fun _ => 1)) k) in
               pvar / (pvar + 1) * 1))))
          (tab (length Y) (fun _ => tab K (fun _ => 1)))
          [] tol 1 1e-10 Sol RS.
Proof.
  unfold __init__. intros H.
  destruct (solve R2 R1) as [Sol|]; [|discriminate].
  destruct (matmul R1 Sol) as [RS|] eqn:E; [|discriminate].
  injection H as <-. exists Sol, RS.
  split; [reflexivity|]. split; [exact E | reflexivity].
Qed.

Lemma init_wf R1 R2 Y K pa pv pp tol s :
  __init__ solve R1 R2 Y K pa pv pp tol = Some s -> wf s.
Proof.
  intros H. destruct (@init_inversion R1 R2 Y K pa pv pp tol s H) as (Sol & RS & _ & _ & ->).
  unfold wf, dK, dT. cbn.
  rewrite !length_tab. repeat split; auto;
    intros t Ht; rewrite nth_tab by auto; apply length_tab.
Qed.

Lemma init_prior_precision R1 R2 Y K pa pv pp tol s t k :
  __init__ solve R1 R2 Y K pa pv pp tol = Some s ->
  (t < length Y)%nat -> (k < K)%nat ->
  mget (prior_precision s) t k = pv /\
  vget (prior_component_precision s) k = 1.
Proof.
  intros H Ht Hk.
  destruct (@init_inversion R1 R2 Y K pa pv pp tol s H) as (Sol & RS & _ & _ & ->).
  cbn [prior_precision prior_component_precision].
  rewrite mget_tab by auto. unfold vget. rewrite nth_tab by auto. split; lra.
Qed.


Lemma init_weights R1 R2 Y K pa pv pp tol s t k n :
  __init__ solve R1 R2 Y K pa pv pp tol = Some s ->
  (t < length Y)%nat -> (k < K)%nat -> (n < length (hd [] Y))%nat ->
  tget (weight_means s) t k n = 0 /\
  tget (weight_vars s) t k n = 1 / pv / (1 / pv + 1).
Proof.
  intros H Ht Hk Hn.
  destruct (@init_inversion R1 R2 Y K pa pv pp tol s H) as (Sol & RS & _ & _ & ->).
  cbn [weight_means weight_vars]. rewrite !tget_tab by auto.
  split; [reflexivity|]. cbv zeta.
  rewrite mget_tab by auto. unfold vget. rewrite nth_tab by auto.
  replace (1 * pv * 1) with pv by ring. unfold Rdiv. ring.
Qed.

End Init.

End CAFEH2_construction.

(* ================================================================== *)
(** * Further facts about the sample-based engine *)
(* ================================================================== *)

(** ** The expected residual sum of squares is a sum of squares *)

Module SER_variance.
Import IndependentFactorSER IndependentFactorSER_facts.

(** For weights [p] that sum to one, the square of a mean is at most the
    mean of the squares. *)
Lemma mean_square n (p a : nat -> R) :
  (forall i, (i < n)%nat -> 0 <= p i) -> sumn n p = 1 ->
  sumn n (fun i => p i * a i) * sumn n (fun i => p i * a i)
  <= sumn n (fun i => p i * (a i * a i)).
Proof.
  intros Hp Hs. set (mu := sumn n (fun i => p i * a i)).
  assert (H : 0 <= sumn n (fun i => p i * ((a i - mu) * (a i - mu)))).
  { apply sumn_nonneg. intros i Hi.
    apply Rmult_le_pos; [auto | apply Rle_0_sqr]. }
  assert (E : sumn n (fun i => p i * ((a i - mu) * (a i - mu))) =
              sumn n (fun i => p i * (a i * a i))
              - 2 * mu * sumn n (fun i => p i * a i) + mu * mu * sumn n p).
  { rewrite <- !sumn_scal, <- sumn_minus, <- sumn_plus.
    apply sumn_ext. intros i _. ring. }
  rewrite E, Hs in H. fold mu in H. lra.
Qed.

(** The assignment rows are probability vectors and the weight variances of
    channel [t] are non-negative. *)
Definition proper (s : model) (t : nat) : Prop :=
  (forall k n, (k < dK s)%nat -> (n < dN s)%nat -> 0 <= rpi s k n) /\
  (forall k, (k < dK s)%nat -> sumn (dN s) (rpi s k) = 1) /\
  (forall k n, (k < dK s)%nat -> (n < dN s)%nat -> 0 <= rwv s t k n).

Lemma moment_gap s t k m :
  proper s t -> (k < dK s)%nat ->
  rfm (dN s) (rX s) (rpi s) (rwm s t) k m
  * rfm (dN s) (rX s) (rpi s) (rwm s t) k m
  <= rsm (dN s) (rX s) (rpi s) (rwm s t) (rwv s t) k m.
Proof.
  intros (Hp & Hs & Hv) Hk. unfold rfm, rsm.
  apply Rle_trans with
    (sumn (dN s) (fun n => rpi s k n * ((rwm s t k n * rX s n m)
                                        * (rwm s t k n * rX s n m)))).
  - rewrite (sumn_ext (fun n => rpi s k n * rwm s t k n * rX s n m)
               (fun n => rpi s k n * (rwm s t k n * rX s n m)))
      by (intros; ring).
    apply mean_square; auto.
  - assert (G : 0 <= sumn (dN s) (fun n =>
                  rpi s k n * (rwm s t k n * rwm s t k n + rwv s t k n)
                  * (rX s n m * rX s n m)
                  - rpi s k n * ((rwm s t k n * rX s n m)
                                 * (rwm s t k n * rX s n m)))).
    { apply sumn_nonneg. intros n Hn.
      replace (rpi s k n * (rwm s t k n * rwm s t k n + rwv s t k n)
               * (rX s n m * rX s n m)
               - rpi s k n * ((rwm s t k n * rX s n m)
                              * (rwm s t k n * rX s n m)))
        with (rpi s k n * rwv s t k n * (rX s n m * rX s n m)) by ring.
      apply Rmult_le_pos; [apply Rmult_le_pos; auto | apply Rle_0_sqr]. }
    rewrite sumn_minus in G. lra.
Qed.

Lemma corr_nonneg s t : proper s t -> 0 <= corr s t.
Proof.
  intros H. unfold corr, rcorrection. apply sumn_nonneg. intros m _.
  apply Rmult_le_pos; [|destruct (nth m (_get_mask s t) false); lra].
  rewrite <- sumn_minus. apply sumn_nonneg. intros k Hk.
  pose proof (moment_gap m H Hk). lra.
Qed.

Lemma fsum_squares_nonneg (l : list nat) (f : nat -> fl) b :
  fsum (map (fun m => fsq (f m)) l) = Some b -> 0 <= b.
Proof.
  revert b. induction l as [|m l IH]; intros b H; cbn in H.
  - injection H as <-. lra.
  - fold (fsum (map (fun m => fsq (f m)) l)) in H.
    destruct (f m) as [a|]; [|discriminate].
    destruct (fsum (map (fun m => fsq (f m)) l)) as [b'|]; [|discriminate].
    cbn in H. injection H as <-. specialize (IH b' eq_refl).
    pose proof (Rle_0_sqr a) as Ha. unfold Rsqr in Ha. lra.
Qed.

Lemma residual_ss_nonneg s r t base :
  residual_ss s r t = Some base -> 0 <= base.
Proof. unfold residual_ss, fmsum. apply fsum_squares_nonneg. Qed.

Lemma self_collect_first ks w :
  self (snd (collect compute_first_moment ks w)) = self w.
Proof.
  revert w. induction ks as [|k ks IH]; intros w; cbn [collect]; [reflexivity|].
  destruct (compute_first_moment k w) as [v w1] eqn:E.
  specialize (IH w1). destruct (collect compute_first_moment ks w1) as [vs w2].
  cbn [snd] in *. rewrite IH. change w1 with (snd (v, w1)). now rewrite <- E.
Qed.

Lemma self_collect_second ks w :
  self (snd (collect compute_second_moment ks w)) = self w.
Proof.
  revert w. induction ks as [|k ks IH]; intros w; cbn [collect]; [reflexivity|].
  destruct (compute_second_moment k w) as [v w1] eqn:E.
  specialize (IH w1). destruct (collect compute_second_moment ks w1) as [vs w2].
  cbn [snd] in *. rewrite IH. change w1 with (snd (v, w1)). now rewrite <- E.
Qed.

Lemma self_compute_ERSS residual w :
  self (snd (_compute_ERSS residual w)) = self w.
Proof.
  unfold _compute_ERSS.
  destruct (residual_world_ERSS residual w) as [w0 [-> [Hs _]]].
  pose proof (self_collect_first (seq 0 (dK (self w))) w0) as H1.
  destruct (collect compute_first_moment _ w0) as [fms w1].
  pose proof (self_collect_second (seq 0 (dK (self w))) w1) as H2.
  destruct (collect compute_second_moment _ w1) as [sms w2].
  cbn [snd] in *. congruence.
Qed.

(** [_compute_ERSS] at channel [t]: the residual sum of squares plus the
    summed variances of the components' predictions. *)
Lemma ERSS_decomposition residual w t base :
  regular (self w) -> caches_current w -> (t < dT (self w))%nat ->
  proper (self w) t ->
  residual_ss (self w) (residual_given residual w) t = Some base ->
  fget (fst (_compute_ERSS residual w)) t = Some (base + corr (self w) t) /\
  0 <= base /\ 0 <= corr (self w) t.
Proof.
  intros H Hc Ht Hp Hb. unfold fget.
  rewrite ERSS_entry, Hb by auto.
  split; [reflexivity|]. split; [eapply residual_ss_nonneg; eauto|].
  now apply corr_nonneg.
Qed.

(** ** [update_tissue_variance] *)

Lemma tissue_variance_entry residual w t base :
  regular (self w) -> caches_current w -> (t < dT (self w))%nat ->
  residual_ss (self w) (residual_given residual w) t = Some base ->
  let s := self w in
  let s' := self (update_tissue_variance residual w) in
  let n_t := INR (length (filter (fun x => x) (_get_mask s t))) in
  fget (tissue_precision_a s') t = Some (c s + n_t / 2) /\
  fget (tissue_precision_b s') t = Some (d s + (base + corr s t) / 2).
Proof.
  intros H Hc Ht Hb s s' n_t. subst s'. unfold update_tissue_variance.
  destruct (residual_world_ERSS residual w) as [w0 [-> [Hs Hc0]]].
  specialize (Hc0 Hc).
  assert (H0 : regular (self w0)) by now rewrite Hs.
  assert (Ht0 : (t < dT (self w0))%nat) by now rewrite Hs.
  pose proof (@ERSS_entry (Some (residual_given residual w)) w0 t H0 Hc0 Ht0) as E.
  pose proof (self_compute_ERSS (Some (residual_given residual w)) w0) as Hs1.
  destruct (_compute_ERSS (Some (residual_given residual w)) w0) as [ERSS w1].
  cbn [fst snd] in *. unfold with_self. cbn [self tissue_precision_a
    tissue_precision_b set_tissue_precision].
  rewrite Hs1, Hs. fold s. unfold fget. rewrite !nth_tab by auto.
  split; [reflexivity|].
  rewrite E. cbn [residual_given]. rewrite Hs, Hb. fold s.
  cbn. destruct (Req_dec_T 2 0); [lra | reflexivity].
Qed.

End SER_variance.

Module SER_precisions.
Import IndependentFactorSER IndependentFactorSER_facts SER_variance.

Lemma fget_mapi (f : nat -> fl -> fl) (l : fvec) t :
  (t < length l)%nat -> fget (mapi f l) t = f t (fget l t).
Proof. intros Ht. unfold fget. now rewrite (nth_mapi _ _ None None). Qed.

Lemma fget2_mapi2 (f : nat -> nat -> fl -> fl) (a : fmat) t k :
  (t < length a)%nat -> (k < length (nth t a []))%nat ->
  fget2 (mapi (fun t row => mapi (f t) row) a) t k = f t k (fget2 a t k).
Proof.
  intros Ht Hk. unfold fget2.
  rewrite (nth_mapi _ _ [] []) by auto.
  now rewrite (nth_mapi _ _ None None).
Qed.

Lemma tissue_variance_shape residual w :
  length (tissue_precision_a (self (update_tissue_variance residual w)))
    = dT (self w).
Proof.
  unfold update_tissue_variance.
  destruct (residual_world_ERSS residual w) as [w0 [-> [Hs _]]].
  pose proof (self_compute_ERSS (Some (residual_given residual w)) w0) as Hs1.
  destruct (_compute_ERSS (Some (residual_given residual w)) w0) as [ERSS w1].
  cbn [snd] in Hs1. unfold with_self.
  cbn [self tissue_precision_a set_tissue_precision].
  rewrite length_tab. now rewrite Hs1, Hs.
Qed.

(** After [update_tissue_variance] the expected noise precision of a
    channel is a positive number. *)
Lemma tissue_precision_positive residual w t base :
  regular (self w) -> caches_current w -> (t < dT (self w))%nat ->
  proper (self w) t ->
  residual_ss (self w) (residual_given residual w) t = Some base ->
  0 < c (self w) -> 0 < d (self w) ->
  let s := self w in
  let n_t := INR (length (filter (fun x => x) (_get_mask s t))) in
  let tau := (c s + n_t / 2) / (d s + (base + corr s t) / 2) in
  fget (expected_tissue_precision (self (update_tissue_variance residual w))) t
    = Some tau /\ 0 < tau.
Proof.
  intros H Hc Ht Hp Hb Hcpos Hdpos s n_t tau.
  destruct (@tissue_variance_entry residual w t base H Hc Ht Hb) as [Ea Eb].
  cbv zeta in Ea, Eb. fold s n_t in Ea, Eb.
  change (0 < c s) in Hcpos. change (0 < d s) in Hdpos.
  assert (Hn : 0 <= n_t) by apply pos_INR.
  assert (Hbase : 0 <= base) by (eapply residual_ss_nonneg; eauto).
  assert (Hcorr : 0 <= corr s t) by now apply corr_nonneg.
  unfold expected_tissue_precision.
  rewrite fget_mapi by (rewrite tissue_variance_shape; auto).
  rewrite Ea, Eb. unfold fdiv.
  destruct (Req_dec_T (d s + (base + corr s t) / 2) 0) as [E0|_]; [lra|].
  split; [reflexivity|]. unfold tau. apply Rdiv_lt_0_compat; lra.
Qed.

(** ** [update_ARD_weights] *)

(** The Gamma parameters of the weight precisions have the shape T x K. *)
Definition precisions_shaped (s : model) : Prop :=
  length (weight_precision_a s) = dT s /\
  length (weight_precision_b s) = dT s /\
  (forall t, (t < dT s)%nat -> length (nth t (weight_precision_a s) []) = dK s) /\
  (forall t, (t < dT s)%nat -> length (nth t (weight_precision_b s) []) = dK s).

(** [(weight_vars[:, k] + weight_means[:, k]**2) @ pi[k]] at channel [t]. *)
Definition second_moment (s : model) (k t : nat) : R :=
  sumn (dN s) (fun n =>
    (rwv s t k n + rwm s t k n * rwm s t k n) * rpi s k n).

Lemma fget2_mapi_upd (a : fmat) (f : nat -> fl) k t :
  (t < length a)%nat -> (k < length (nth t a []))%nat ->
  fget2 (mapi (fun t row => upd k (f t) row) a) t k = f t.
Proof.
  intros Ht Hk. unfold fget2.
  rewrite (nth_mapi _ _ [] []) by auto. now rewrite nth_upd_same.
Qed.

Lemma fget2_mapi_upd_other (a : fmat) (f : nat -> fl) k t j :
  j <> k -> fget2 (mapi (fun t row => upd k (f t) row) a) t j = fget2 a t j.
Proof.
  intros Hj. unfold fget2.
  destruct (Nat.lt_ge_cases t (length a)) as [Ht|Ht].
  - rewrite (nth_mapi _ _ [] []) by auto. now rewrite nth_upd_other by auto.
  - rewrite (@nth_overflow _ (mapi _ _) t []), (@nth_overflow _ _ t []);
      rewrite ?length_mapi; auto.
Qed.

Lemma ARD_weights_entry s k t :
  regular s -> precisions_shaped s -> (k < dK s)%nat -> (t < dT s)%nat ->
  fget2 (weight_precision_a (update_ARD_weights k s)) t k = Some (a s + 0.5) /\
  fget2 (weight_precision_b (update_ARD_weights k s)) t k
    = Some (b s + second_moment s k t / 2).
Proof.
  intros H (Ha & Hb & Har & Hbr) Hk Ht. unfold update_ARD_weights.
  cbn [weight_precision_a weight_precision_b set_weight_precision].
  rewrite !fget2_mapi_upd by (rewrite ?Ha, ?Hb, ?Har, ?Hbr; auto).
  split; [reflexivity|].
  assert (E : fsumn (dN s) (fun n =>
                fmul (fadd (fget3 (weight_vars s) t k n)
                           (fsq (fget3 (weight_means s) t k n)))
                     (fget2 (pi s) k n))
              = Some (second_moment s k t)).
  { unfold second_moment, rwv, rwm, rpi. reflect H. }
  rewrite E. cbn. destruct (Req_dec_T 2 0); [lra | reflexivity].
Qed.

Lemma ARD_weights_other s k t j :
  j <> k ->
  fget2 (weight_precision_a (update_ARD_weights k s)) t j
    = fget2 (weight_precision_a s) t j /\
  fget2 (weight_precision_b (update_ARD_weights k s)) t j
    = fget2 (weight_precision_b s) t j.
Proof.
  intros Hj. unfold update_ARD_weights.
  cbn [weight_precision_a weight_precision_b set_weight_precision].
  now rewrite !fget2_mapi_upd_other.
Qed.

Lemma second_moment_nonneg s k t :
  proper s t -> (k < dK s)%nat -> 0 <= second_moment s k t.
Proof.
  intros (Hp & _ & Hv) Hk. unfold second_moment. apply sumn_nonneg.
  intros n Hn. apply Rmult_le_pos; [|auto].
  pose proof (Rle_0_sqr (rwm s t k n)) as Hsq. unfold Rsqr in Hsq.
  specialize (Hv k n Hk Hn). lra.
Qed.

Lemma ARD_weights_positive s k t :
  regular s -> precisions_shaped s -> proper s t ->
  (k < dK s)%nat -> (t < dT s)%nat -> 0 <= a s -> 0 < b s ->
  let alpha := (a s + 0.5) / (b s + second_moment s k t / 2) in
  fget2 (expected_weight_precision (update_ARD_weights k s)) t k = Some alpha /\
  0 < alpha.
Proof.
  intros H Hsh Hp Hk Ht Ha Hb alpha.
  destruct (ARD_weights_entry H Hsh Hk Ht) as [Ea Eb].
  pose proof (second_moment_nonneg Hp Hk) as Hm.
  destruct Hsh as (La & Lb & Lar & Lbr).
  unfold expected_weight_precision.
  rewrite fget2_mapi2.
  - rewrite Ea, Eb. unfold fdiv.
    destruct (Req_dec_T (b s + second_moment s k t / 2) 0) as [E0|_]; [lra|].
    split; [reflexivity|]. unfold alpha. apply Rdiv_lt_0_compat; lra.
  - unfold update_ARD_weights. cbn [weight_precision_a set_weight_precision].
    rewrite length_mapi. now rewrite La.
  - unfold update_ARD_weights. cbn [weight_precision_a set_weight_precision].
    rewrite (nth_mapi _ _ [] []) by (rewrite La; auto).
    rewrite length_upd. now rewrite Lar.
Qed.

End SER_precisions.

(** ** Construction, frames and the total prediction *)

Module SER_state.
Import IndependentFactorSER IndependentFactorSER_facts SER_variance
  SER_precisions.






End SER_state.

Module SER_frames.
Import IndependentFactorSER IndependentFactorSER_facts.

Lemma heap_take_residual k w :
  heap (snd (take_residual k None w)) = heap w.
Proof.
  unfold take_residual, compute_residual, compute_prediction.
  destruct (compute_first_moment k w) as [fm w1] eqn:E. cbn [snd].
  change w1 with (snd (fm, w1)). rewrite <- E. reflexivity.
Qed.

Lemma weight_update_writes k residual w w' :
  _update_weight_component k residual w = Some w' ->
  (k < dK (self w))%nat /\
  (exists wm wv, self w' = set_weights wm wv (self w)) /\
  (residual = None -> heap w' = heap w) /\
  (forall l l', residual = Some l -> l' <> l -> read w' l' = read w l') /\
  (forall j t n, j <> k ->
     fget3 (weight_vars (self w')) t j n = fget3 (weight_vars (self w)) t j n /\
     fget3 (weight_means (self w')) t j n = fget3 (weight_means (self w)) t j n).
Proof.
  intros H.
  assert (Hfr : forall j t n, j <> k ->
     fget3 (weight_vars (self w')) t j n = fget3 (weight_vars (self w)) t j n /\
     fget3 (weight_means (self w')) t j n = fget3 (weight_means (self w)) t j n)
    by (intros j t n Hj;
        exact (@ser_update_weight_frame k residual w w' j t n H Hj)).
  assert (Hk : (k < dK (self w))%nat).
  { unfold _update_weight_component in H.
    destruct (k <? dK (self w))%nat eqn:E; [now apply Nat.ltb_lt|discriminate]. }
  split; [exact Hk|].
  rewrite ser_update_weight_runs in H by auto. injection H as <-.
  split; [|split; [|split; [|exact Hfr]]].
  - unfold with_self, store_weights. cbn [self]. eauto.
  - intros ->. unfold with_self. cbn [heap]. apply heap_take_residual.
  - intros l l' -> Hl. unfold with_self, take_residual, read, write.
    cbn [snd heap]. now apply nth_upd_other.
Qed.

Section Assignment.

Variable normal_kl : fl -> fl -> fl -> fl -> fl.

Lemma pi_update_writes k residual w w' :
  _update_pi_component normal_kl k residual w = Some w' ->
  (k < dK (self w))%nat /\ (0 < dN (self w))%nat /\
  (exists row, self w' = set_pi (upd k row (pi (self w))) (self w)) /\
  (residual = None -> heap w' = heap w) /\
  (forall l l', residual = Some l -> l' <> l -> read w' l' = read w l') /\
  (forall j, j <> k -> nth j (pi (self w')) [] = nth j (pi (self w)) []).
Proof.
  intros H.
  assert (Hk : (k < dK (self w))%nat).
  { unfold _update_pi_component in H.
    destruct (k <? dK (self w))%nat eqn:E; [now apply Nat.ltb_lt|discriminate]. }
  assert (HN : (0 < dN (self w))%nat).
  { unfold _update_pi_component in H. apply Nat.ltb_lt in Hk. rewrite Hk in H.
    pose proof (take_residual_self k residual w) as Hs.
    destruct (take_residual k residual w) as [r w1]. cbn [snd] in Hs.
    rewrite Hs in H.
    destruct (dN (self w) =? 0)%nat eqn:E; [discriminate|].
    apply Nat.eqb_neq in E. lia. }
  split; [exact Hk|]. split; [exact HN|].
  rewrite (@update_pi_runs normal_kl k residual w Hk HN) in H. injection H as <-.
  split; [|split; [|split]].
  - unfold with_self. cbn [self]. eauto.
  - intros ->. unfold with_self. cbn [heap]. apply heap_take_residual.
  - intros l l' -> Hl. unfold with_self, take_residual, read, write.
    cbn [snd heap]. now apply nth_upd_other.
  - intros j Hj. unfold with_self. cbn [self pi set_pi].
    now apply nth_upd_other.
Qed.

End Assignment.

(** ** The total prediction *)

Lemma prediction_total w t m :
  regular (self w) -> no_covariate_effect (self w) ->
  (t < dT (self w))%nat -> (m < dM (self w))%nat ->
  let s := self w in
  let total := rFt (dN s) (dK s) (rX s) (rpi s) (rwm s t) m in
  fget2 (fst (compute_prediction None true w)) t m = Some total /\
  fsumn (dK s) (fun k => fget2 (_compute_first_moment_hash s k) t m)
    = Some total.
Proof.
  intros H H0 Ht Hm s total. subst s total. split.
  - unfold compute_prediction. cbn [fst]. rewrite H0.
    rewrite fget2_fmadd
      by (rewrite ?length_fzeros_like, ?row_fzeros_like, ?length_map,
            ?(reg_Y_rows H), ?(reg_Y_cols H); auto).
    rewrite fget2_fzeros_like by (rewrite (reg_Y_cols H); auto).
    rewrite fget2_tab by auto.
    rewrite <- rpred_Ft. unfold rpred, ree, rX, rpi, rwm.
    apply fadd_Some; [reflexivity|].
    apply fsumn_Some. intros n Hn.
    apply fmul_Some; [|reflect H].
    unfold expected_effects. rewrite fget2_tab by auto.
    reflect H.
  - unfold rFt. apply fsumn_Some. intros k Hk.
    now apply first_moment_entry.
Qed.

Lemma prediction_without w k t m :
  regular (self w) -> no_covariate_effect (self w) -> caches_current w ->
  (k < dK (self w))%nat -> (t < dT (self w))%nat -> (m < dM (self w))%nat ->
  let s := self w in
  fget2 (fst (compute_prediction (Some k) true w)) t m =
  Some (rFt (dN s) (dK s) (rX s) (rpi s) (rwm s t) m
        - rfm (dN s) (rX s) (rpi s) (rwm s t) k m).
Proof.
  intros H H0 Hc Hk Ht Hm s. subst s.
  destruct (@prediction_total w t m H H0 Ht Hm) as [E _]. cbv zeta in E.
  unfold compute_prediction in *. cbn [fst] in E.
  destruct (@compute_first_moment_current k w Hc) as (Hv & _).
  destruct (compute_first_moment k w) as [fm w1]. cbn [fst] in *. subst fm.
  rewrite fget2_fmsub.
  - rewrite E. now rewrite first_moment_entry.
  - unfold fmadd. rewrite length_mapi. rewrite H0, length_fzeros_like.
    now rewrite (reg_Y_rows H).
  - unfold fmadd. rewrite H0.
    rewrite (nth_mapi _ _ [] [])
      by (rewrite length_fzeros_like, (reg_Y_rows H); auto).
    rewrite length_mapi, row_fzeros_like, length_map.
    now rewrite (reg_Y_cols H).
Qed.

End SER_frames.

(* ================================================================== *)
(** * Further reporting helpers ([coloc/misc.py]) *)
(* ================================================================== *)

Module MiscTools.

(** [flip = lambda x: (x-1)*-1 + 1]: the recoding of an allele count. *)
Definition flip (x : R) : R := (x - 1) * -1 + 1.

Section Comparison.

(** [categorical_kl] of [coloc/kls.py], a file that is not part of the
    sources at hand: taken as a parameter. *)
Variable categorical_kl : vec -> vec -> R.

(** [kl_components(m1, m2)]: the symmetrised divergence between the
    assignment rows of two models, one row per component of [m2]. *)
Definition kl_components (m1 m2 : CAFEH2.model) : mat :=
  tab (CAFEH2.dK m2) (fun k2 =>
    tab (CAFEH2.dK m1) (fun k1 =>
      categorical_kl (nth k1 (CAFEH2.pi m1) []) (nth k2 (CAFEH2.pi m2) [])
      + categorical_kl (nth k2 (CAFEH2.pi m2) []) (nth k1 (CAFEH2.pi m1) []))).

(** [np.stack([m.active, 1 - m.active])[:, t, k]]. *)
Definition activity_pair (m : CAFEH2.model) (t k : nat) : vec :=
  [mget (CAFEH2.active m) t k; 1 - mget (CAFEH2.active m) t k].

(** [kl_sum(A1, A2, k1, k2)]; the range of [t] is the number of rows of the
    first argument. *)
Definition kl_sum (m1 m2 : CAFEH2.model) (k1 k2 : nat) : R :=
  sumn (length (CAFEH2.active m1)) (fun t =>
    categorical_kl (activity_pair m1 t k1) (activity_pair m2 t k2)).

(** [active_kl(m1, m2)]. *)
Definition active_kl (m1 m2 : CAFEH2.model) : mat :=
  tab (CAFEH2.dK m2) (fun k2 =>
    tab (CAFEH2.dK m1) (fun k1 =>
      kl_sum m1 m2 k1 k2 + kl_sum m2 m1 k2 k1)).

Lemma kl_components_entry m1 m2 k1 k2 :
  (k1 < CAFEH2.dK m1)%nat -> (k2 < CAFEH2.dK m2)%nat ->
  mget (kl_components m1 m2) k2 k1 =
  categorical_kl (nth k1 (CAFEH2.pi m1) []) (nth k2 (CAFEH2.pi m2) [])
  + categorical_kl (nth k2 (CAFEH2.pi m2) []) (nth k1 (CAFEH2.pi m1) []).
Proof.
  intros H1 H2. unfold kl_components, mget. now rewrite !nth_tab.
Qed.

Lemma active_kl_entry m1 m2 k1 k2 :
  (k1 < CAFEH2.dK m1)%nat -> (k2 < CAFEH2.dK m2)%nat ->
  mget (active_kl m1 m2) k2 k1 = kl_sum m1 m2 k1 k2 + kl_sum m2 m1 k2 k1.
Proof.
  intros H1 H2. unfold active_kl, mget. now rewrite !nth_tab.
Qed.

Lemma comparison_shape (f : nat -> nat -> R) K1 K2 k2 :
  length (tab K2 (fun k2 => tab K1 (f k2))) = K2 /\
  ((k2 < K2)%nat -> length (nth k2 (tab K2 (fun k2 => tab K1 (f k2))) []) = K1).
Proof.
  split; [apply length_tab|]. intros H. rewrite nth_tab by auto.
  apply length_tab.
Qed.

End Comparison.

(** Facts about the product of [compute_pip]. *)
Lemma prodn_pos n f :
  (forall k, (k < n)%nat -> 0 < f k) -> 0 < Misc.prodn n f.
Proof.
  induction n as [|n IH]; intros H; cbn; [lra|].
  apply Rmult_lt_0_compat; auto.
Qed.

Lemma prodn_ge_1 n f :
  (forall k, (k < n)%nat -> 1 <= f k) -> 1 <= Misc.prodn n f.
Proof.
  induction n as [|n IH]; intros H; cbn; [lra|].
  assert (1 <= Misc.prodn n f) by (apply IH; auto).
  assert (1 <= f n) by (apply H; lia). nra.
Qed.

Lemma prodn_gt_1 n f :
  (0 < n)%nat -> (forall k, (k < n)%nat -> 1 < f k) -> 1 < Misc.prodn n f.
Proof.
  intros Hn H. destruct n as [|n]; [lia|]. cbn.
  assert (1 <= Misc.prodn n f) by (apply prodn_ge_1; intros; apply Rlt_le, H; lia).
  assert (1 < f n) by (apply H; lia). nra.
Qed.

Lemma prodn_le_1 n f :
  (forall k, (k < n)%nat -> 0 <= f k <= 1) -> 0 <= Misc.prodn n f <= 1.
Proof.
  induction n as [|n IH]; intros H; cbn; [lra|].
  assert (0 <= Misc.prodn n f <= 1) by (apply IH; auto).
  assert (0 <= f n <= 1) by (apply H; lia). nra.
Qed.

Lemma compute_pip_entry (model : Misc.fitted) r n :
  Misc.records model = Some r ->
  (forall k, (k < length (Misc.pi model))%nat -> mget (Misc.pi model) k n <= 1) ->
  (n < length (hd [] (Misc.pi model)))%nat ->
  exists v,
    Misc.compute_pip model = Some v /\
    vget v n = 1 - Misc.prodn (length (Misc.pi model))
                     (fun k => 1 - mget (Misc.pi model) k n + 1e-10).
Proof.
  intros Hr Hp Hn. unfold Misc.compute_pip. rewrite Hr.
  eexists. split; [reflexivity|]. unfold vget. rewrite nth_tab by auto.
  f_equal. apply (Misc.exp_sum_ln (fun k => 1 - mget (Misc.pi model) k n + 1e-10)).
  intros k Hk. specialize (Hp k Hk). lra.
Qed.

End MiscTools.

(** ** Variant identifiers *)

From Stdlib Require Ascii String.

Module Variants.
Import Ascii String.

(** A Python [str] whose characters are code points below 256. *)
Abbreviation str := (list ascii).

(** The characters [str.strip()] removes: those [str.isspace()] accepts. *)
Definition is_space (c : ascii) : bool :=
  let n := nat_of_ascii c in
  ((9 <=? n)%nat && (n <=? 13)%nat) || ((28 <=? n)%nat && (n <=? 32)%nat)
  || (n =? 133)%nat || (n =? 160)%nat.

Fixpoint lstrip (s : str) : str :=
  match s with
  | [] => []
  | c :: s' => if is_space c then lstrip s' else s
  end.

(** [s.strip()]. *)
Definition strip (s : str) : str := rev (lstrip (rev (lstrip s))).

(** [s.split(sep)] for a one-character separator: one more piece than
    there are separators, empty pieces included. *)
Fixpoint split (sep : ascii) (s : str) : list str :=
  match s with
  | [] => [[]]
  | c :: s' =>
      if Ascii.eqb c sep then [] :: split sep s'
      else match split sep s' with
           | h :: t => (c :: h) :: t
           | [] => [[c]]
           end
  end.

(** [sep.join(fields)]. *)
Fixpoint join (sep : ascii) (fields : list str) : str :=
  match fields with
  | [] => []
  | f :: rest =>
      match rest with
      | [] => f
      | _ :: _ => f ++ sep :: join sep rest
      end
  end.

Definition str_eq_dec : forall a b : str, {a = b} + {a <> b} :=
  list_eq_dec ascii_dec.

(** [need_to_flip(variant_id)].  [None] is the [ValueError] of unpacking a
    list that does not have exactly six elements. *)
Definition need_to_flip (variant_id : str) : option bool :=
  match split "_" (strip variant_id) with
  | [_; _; major; minor; _; ref] =>
      Some (if str_eq_dec minor ref then false else true)
  | _ => None
  end.

Lemma split_nonempty sep s : split sep s <> [].
Proof.
  destruct s as [|c s]; cbn; [discriminate|].
  destruct (Ascii.eqb c sep); [discriminate|].
  destruct (split sep s); discriminate.
Qed.

Lemma split_length sep s :
  List.length (split sep s) = S (count_occ ascii_dec s sep).
Proof.
  induction s as [|c s IH]; [reflexivity|]. cbn [split count_occ].
  destruct (Ascii.eqb c sep) eqn:E.
  - apply Ascii.eqb_eq in E. subst c.
    destruct (ascii_dec sep sep); [|congruence]. cbn. now rewrite IH.
  - apply Ascii.eqb_neq in E.
    destruct (ascii_dec c sep); [congruence|].
    destruct (split sep s) as [|h t] eqn:Es; [now apply split_nonempty in Es|].
    cbn in *. exact IH.
Qed.

Lemma split_field sep f :
  ~ In sep f -> split sep f = [f].
Proof.
  induction f as [|c f IH]; intros H; [reflexivity|]. cbn [split].
  destruct (Ascii.eqb c sep) eqn:E.
  - apply Ascii.eqb_eq in E. subst c. exfalso. apply H. now left.
  - rewrite IH; [reflexivity|]. intros Hin. apply H. now right.
Qed.

Lemma split_app sep f s :
  ~ In sep f -> split sep (f ++ sep :: s) = f :: split sep s.
Proof.
  induction f as [|c f IH]; intros H; cbn [app split].
  - now rewrite Ascii.eqb_refl.
  - destruct (Ascii.eqb c sep) eqn:E.
    + apply Ascii.eqb_eq in E. subst c. exfalso. apply H. now left.
    + rewrite IH; [reflexivity|]. intros Hin. apply H. now right.
Qed.

(** Splitting a joined list of separator-free fields gives the fields. *)
Lemma split_join sep fields :
  fields <> [] -> (forall f, In f fields -> ~ In sep f) ->
  split sep (join sep fields) = fields.
Proof.
  induction fields as [|f rest IH]; intros Hne H; [congruence|].
  cbn [join]. destruct rest as [|g rest].
  - apply split_field. apply H. now left.
  - rewrite split_app by (apply H; now left).
    rewrite IH; [reflexivity | discriminate |].
    intros f' Hf'. apply H. now right.
Qed.

Lemma lstrip_head s c rest :
  lstrip s = c :: rest -> is_space c = false.
Proof.
  induction s as [|a s IH]; cbn; [discriminate|].
  destruct (is_space a) eqn:E; [exact IH|].
  intros H. injection H as <- _. exact E.
Qed.

Definition underscore : ascii := "_"%char.

Definition example_id : str :=
  list_ascii_of_string "  chr1_1000_A_G_b38_G
"%string.

Definition example_fields : list str :=
  map list_ascii_of_string
    ["chr1"; "1000"; "A"; "G"; "b38"; "G"]%string.

Definition short_id : str := list_ascii_of_string "chr1_1000_A_G"%string.

End Variants.

(** ** Compact records of a fitted model *)

Module Records.

(** The dictionary [compute_records] attaches to a model. *)
Record records_t := {
  active : list bool;
  purity : vec;
  credible_sets : list (list nat);
  EXz : mat;
  mini_wm : ten;
  mini_wv : ten;
  snp_subset : list bool
}.

(** The attributes of a fitted sample-based model that [compute_records],
    [rehydrate_model] and [compute_pip] read or write; the parameters are
    finite. *)
Record model := {
  dim_T : nat;
  dim_K : nat;
  dim_N : nat;
  X : mat;                    (* N x M *)
  pi : mat;                   (* K x N *)
  weight_means : ten;         (* T x K x N *)
  weight_vars : ten;          (* T x K x N *)
  records : option records_t
}.

(** [1 - np.exp(np.log(1 - model.pi + 1e-10).sum(0))]. *)
Definition PIP (p : mat) : vec :=
  tab (length (hd [] p)) (fun n =>
    1 - exp (sumn (length p) (fun k => ln (1 - mget p k n + 1e-10)))).

Definition gt (x y : R) : bool := if Rlt_dec y x then true else false.

(** [row[mask]] for a boolean mask. *)
Fixpoint compress (mask : list bool) (row : vec) : vec :=
  match mask, row with
  | true :: mask', x :: row' => x :: compress mask' row'
  | false :: mask', _ :: row' => compress mask' row'
  | _, _ => []
  end.

(** [base[mask] = vals]. *)
Fixpoint scatter (mask : list bool) (vals base : vec) : vec :=
  match base, mask with
  | [], _ => []
  | x :: base', [] => x :: base'
  | x :: base', true :: mask' => hd 0 vals :: scatter mask' (tl vals) base'
  | x :: base', false :: mask' => x :: scatter mask' vals base'
  end.

Section Credible.

(** [model.get_credible_sets(a)] of [coloc/model_queries.py], a file that
    is not part of the sources at hand: taken as a parameter, returning the
    credible sets and the purity of each component. *)
Variable get_credible_sets : model -> R -> list (list nat) * vec.

(** [compute_records(model)]. *)
Definition compute_records (m : model) : model :=
  let pip := PIP (pi m) in
  let mask := map (fun x => gt x 0.01) pip in
  let wv := map (map (compress mask)) (weight_vars m) in
  let wm := map (map (compress mask)) (weight_means m) in
  let (cs, pur) := get_credible_sets m 0.99 in
  let act := tab (dim_K m) (fun k => gt (vget pur k) 0.5) in
  Build_model (dim_T m) (dim_K m) (dim_N m) (X m) (pi m)
    (weight_means m) (weight_vars m)
    (Some (Build_records_t act pur cs
             (tab (length (pi m)) (fun k =>
                tab (length (hd [] (X m))) (fun j =>
                  sumn (length (X m)) (fun n => mget (pi m) k n * mget (X m) n j))))
             wm wv mask)).

End Credible.

(** [rehydrate_model(model)].  [None] is the exception raised by
    [model.records] on a model without records. *)
Definition rehydrate_model (m : model) : option model :=
  match records m with
  | None => None
  | Some r =>
      let zeros := tab (dim_N m) (fun _ => 0) in
      let ones := tab (dim_N m) (fun _ => 1) in
      Some (Build_model (dim_T m) (dim_K m) (dim_N m) (X m) (pi m)
              (tab (dim_T m) (fun t => tab (dim_K m) (fun k =>
                 scatter (snp_subset r) (nth k (nth t (mini_wm r) []) []) zeros)))
              (tab (dim_T m) (fun t => tab (dim_K m) (fun k =>
                 scatter (snp_subset r) (nth k (nth t (mini_wv r) []) []) ones)))
              (records m))
  end.

(** What [compute_pip] sees of the model. *)
Definition as_fitted (m : model) : Misc.fitted :=
  Misc.Build_fitted (pi m)
    (match records m with
     | Some r => Some (Misc.Build_records_t (active r))
     | None => None
     end).

Lemma scatter_compress mask row base n :
  length mask = length row -> length base = length row ->
  nth n (scatter mask (compress mask row) base) 0 =
  if nth n mask false then nth n row 0 else nth n base 0.
Proof.
  revert row base n.
  induction mask as [|b mask IH]; intros [|x row] [|y base] n Hm Hb;
    cbn in Hm, Hb; try discriminate.
  - now destruct n.
  - injection Hm as Hm. injection Hb as Hb.
    destruct b; cbn [compress scatter hd tl]; destruct n as [|n]; cbn [nth];
      auto.
Qed.

Lemma nth_map_map (f : vec -> vec) (a : ten) t k :
  (t < length a)%nat -> (k < length (nth t a []))%nat ->
  nth k (nth t (map (map f) a) []) [] = f (nth k (nth t a []) []).
Proof.
  intros Ht Hk.
  rewrite (nth_indep _ [] (map f [])) by now rewrite length_map.
  rewrite (map_nth (map f) a [] t).
  rewrite (nth_indep _ [] (f [])) by now rewrite length_map.
  apply (map_nth f).
Qed.

End Records.

Module Records_facts.
Import Records.

(** The arrays have the shapes of the recorded dimensions. *)
Definition shaped (m : model) : Prop :=
  length (hd [] (pi m)) = dim_N m /\
  length (weight_means m) = dim_T m /\
  length (weight_vars m) = dim_T m /\
  (forall t, (t < dim_T m)%nat ->
     length (nth t (weight_means m) []) = dim_K m /\
     length (nth t (weight_vars m) []) = dim_K m) /\
  (forall t k, (t < dim_T m)%nat -> (k < dim_K m)%nat ->
     length (nth k (nth t (weight_means m) []) []) = dim_N m /\
     length (nth k (nth t (weight_vars m) []) []) = dim_N m).

Section Credible.

Variable get_credible_sets : model -> R -> list (list nat) * vec.

Lemma records_computed m :
  exists act pur cs,
    compute_records get_credible_sets m =
    Build_model (dim_T m) (dim_K m) (dim_N m) (X m) (pi m)
      (weight_means m) (weight_vars m)
      (Some (Build_records_t act pur cs
               (tab (length (pi m)) (fun k =>
                  tab (length (hd [] (X m))) (fun j =>
                    sumn (length (X m)) (fun n =>
                      mget (pi m) k n * mget (X m) n j))))
               (map (map (compress (map (fun x => gt x 0.01) (PIP (pi m)))))
                  (weight_means m))
               (map (map (compress (map (fun x => gt x 0.01) (PIP (pi m)))))
                  (weight_vars m))
               (map (fun x => gt x 0.01) (PIP (pi m))))).
Proof.
  unfold compute_records. destruct (get_credible_sets m 0.99) as [cs pur].
  eexists _, _, _. reflexivity.
Qed.

Lemma rehydrated_entry m t k n :
  shaped m -> (t < dim_T m)%nat -> (k < dim_K m)%nat -> (n < dim_N m)%nat ->
  exists m',
    rehydrate_model (compute_records get_credible_sets m) = Some m' /\
    tget (weight_means m') t k n =
      (if gt (vget (PIP (pi m)) n) 0.01 then tget (weight_means m) t k n else 0) /\
    tget (weight_vars m') t k n =
      (if gt (vget (PIP (pi m)) n) 0.01 then tget (weight_vars m) t k n else 1) /\
    pi m' = pi m /\ X m' = X m /\
    records m' = records (compute_records get_credible_sets m).
Proof.
  intros (Hpi & Hwm & Hwv & Hrows & Hcols) Ht Hk Hn.
  destruct (records_computed m) as (act & pur & cs & ->).
  unfold rehydrate_model.
  cbn [records dim_T dim_K dim_N X pi mini_wm mini_wv snp_subset].
  eexists. split; [reflexivity|].
  cbn [weight_means weight_vars pi X records].
  destruct (Hrows t Ht) as [Rm Rv]. destruct (Hcols t k Ht Hk) as [Cm Cv].
  assert (Hmask : length (map (fun x => gt x 0.01) (PIP (pi m))) = dim_N m).
  { rewrite length_map. unfold PIP. now rewrite length_tab. }
  assert (Emask : nth n (map (fun x => gt x 0.01) (PIP (pi m))) false
                  = gt (vget (PIP (pi m)) n) 0.01).
  { unfold vget.
    rewrite (nth_indep _ false (gt 0 0.01)) by (rewrite Hmask; auto).
    apply (map_nth (fun x => gt x 0.01)). }
  split; [|split; [|repeat split]].
  - unfold tget at 1. rewrite !nth_tab by auto.
    rewrite nth_map_map by (rewrite ?Hwm, ?Rm; auto).
    rewrite scatter_compress by (rewrite ?Hmask, ?Cm, ?length_tab; auto).
    rewrite Emask. rewrite nth_tab by auto. reflexivity.
  - unfold tget at 1. rewrite !nth_tab by auto.
    rewrite nth_map_map by (rewrite ?Hwv, ?Rv; auto).
    rewrite scatter_compress by (rewrite ?Hmask, ?Cv, ?length_tab; auto).
    rewrite Emask. rewrite nth_tab by auto. reflexivity.
Qed.

End Credible.

Definition example : model :=
  Build_model 1 1 2 [[1]; [1]] [[1; 0]] [[[3; 4]]] [[[5; 6]]] None.

Lemma example_shaped : shaped example.
Proof.
  unfold shaped. cbn. repeat split; auto;
    intros; repeat match goal with
    | H : (?n < _)%nat |- _ => is_var n; destruct n
    end; cbn; auto; lia.
Qed.

End Records_facts.

(** ** More facts about the states used to instantiate the theorems *)

Module MoreStates.

Lemma partly_missing_proper t :
  SER_variance.proper (IndependentFactorSER.self States.partly_missing) t.
Proof.
  unfold SER_variance.proper. cbn [IndependentFactorSER.self States.partly_missing
    IndependentFactorSER.dK IndependentFactorSER.dN IndependentFactorSER.dims
    IndependentFactorSER.dim_K IndependentFactorSER.dim_N].
  unfold IndependentFactorSER_facts.rpi, IndependentFactorSER_facts.rwv,
    fget2, fget3.
  split; [|split].
  - intros k n Hk Hn. destruct k as [|k]; [|lia]. destruct n as [|n]; [|lia].
    cbn. lra.
  - intros k Hk. destruct k as [|k]; [|lia]. cbn. lra.
  - intros k n Hk Hn. destruct k as [|k]; [|lia]. destruct n as [|n]; [|lia].
    destruct t as [|[|t]]; cbn; try lra. destruct t; cbn; lra.
Qed.

Lemma partly_missing_precisions :
  SER_precisions.precisions_shaped
    (IndependentFactorSER.self States.partly_missing).
Proof.
  unfold SER_precisions.precisions_shaped. cbn.
  repeat split; auto; intros t Ht; destruct t as [|[|t]]; cbn; auto; lia.
Qed.

Lemma two_start_wf : CAFEH2_facts.wf (CAFEH2.self CAFEH2_runs.two_start).
Proof. unfold CAFEH2_facts.wf. repeat split; States.bounded. Qed.

End MoreStates.

(* ================================================================== *)
(** * Further properties of the code *)
(* ================================================================== *)

(** ** The covariance-based engine *)



(** X2.  The constructor stores its [prior_variance] argument as the prior
    precision: on the fresh model [prior_variance()] is the reciprocal of
    the argument, and every initial weight variance is that reciprocal
    divided by itself plus one. *)
Theorem X2_prior_variance_argument_is_stored_as_precision
  (solve : mat -> mat -> option mat) (R1 R2 Y : mat) (K : nat)
  (prior_activity prior_variance : R) (prior_pi : option vec) (tolerance : R)
  (s : CAFEH2.model) (t k n : nat) :
  CAFEH2.__init__ solve R1 R2 Y K prior_activity prior_variance prior_pi
    tolerance = Some s ->
  (t < length Y)%nat -> (k < K)%nat -> (n < length (hd [] Y))%nat ->
  mget (CAFEH2.prior_precision s) t k = prior_variance /\
  mget (CAFEH2.prior_variance s) t k = 1 / prior_variance /\
  tget (CAFEH2.weight_vars s) t k n
    = 1 / prior_variance / (1 / prior_variance + 1).
Proof.
  intros H Ht Hk Hn.
  pose proof (@CAFEH2_construction.init_wf solve R1 R2 Y K prior_activity
                prior_variance prior_pi tolerance s H) as Hwf.
  destruct (@CAFEH2_construction.init_inversion solve R1 R2 Y K prior_activity
              prior_variance prior_pi tolerance s H) as (Sol & RS & _ & _ & E).
  assert (Ed : CAFEH2.dims s
               = CAFEH2.Build_dims_t (length (hd [] Y)) (length Y) K)
    by (rewrite E; reflexivity).
  destruct (@CAFEH2_construction.init_prior_precision solve R1 R2 Y K
              prior_activity prior_variance prior_pi tolerance s t k
              H Ht Hk) as [Ep Ec].
  split; [exact Ep|]. split.
  - rewrite CAFEH2_facts.mget_prior_variance; auto;
      unfold CAFEH2.dT, CAFEH2.dK; rewrite ?Ed; auto.
    rewrite Ep, Ec. f_equal. ring.
  - exact (proj2 (@CAFEH2_construction.init_weights solve R1 R2 Y K
                    prior_activity prior_variance prior_pi tolerance s t k n
                    H Ht Hk Hn)).
Qed.

Lemma X2_prior_variance_argument_is_stored_as_precision_witness :
  mget (CAFEH2.prior_precision (CAFEH2.self CAFEH2_runs.one_start)) 0 0 = 1 /\
  mget (CAFEH2.prior_variance (CAFEH2.self CAFEH2_runs.one_start)) 0 0 = 1 / 1 /\
  tget (CAFEH2.weight_vars (CAFEH2.self CAFEH2_runs.one_start)) 0 0 0
    = 1 / 1 / (1 / 1 + 1).
Proof.
  apply (@X2_prior_variance_argument_is_stored_as_precision
           (fun _ B => Some B) CAFEH2_runs.I2 CAFEH2_runs.I2 [[0; 0]] 1
           1 1 None 1e-5 (CAFEH2.self CAFEH2_runs.one_start) 0 0 0
           (CAFEH2_runs.demo_is_constructed (or_introl eq_refl)));
    cbn; lia.
Defined.

(** X3.  On a memo table that is current for the state,
    [compute_prediction_component(k)] returns what a direct evaluation of
    its body returns, leaves the object alone and keeps the table current;
    an immediate second call returns the same array. *)
Theorem X3_memoised_component_on_current_table
  (w : CAFEH2.world) (k : nat) :
  CAFEH2_memo.current w ->
  fst (CAFEH2.compute_prediction_component k w)
    = CAFEH2._compute_prediction_component_hash (CAFEH2.self w) k /\
  CAFEH2.self (snd (CAFEH2.compute_prediction_component k w)) = CAFEH2.self w /\
  CAFEH2_memo.current (snd (CAFEH2.compute_prediction_component k w)) /\
  fst (CAFEH2.compute_prediction_component k
         (snd (CAFEH2.compute_prediction_component k w)))
    = fst (CAFEH2.compute_prediction_component k w).
Proof.
  intros Hc.
  destruct (@CAFEH2_memo.component_current k w Hc) as [Hv Hc1].
  destruct (@CAFEH2_memo.component_current k
              (snd (CAFEH2.compute_prediction_component k w)) Hc1) as [Hv2 _].
  split; [exact Hv|]. split; [reflexivity|]. split; [exact Hc1|].
  rewrite Hv2, Hv. reflexivity.
Qed.

Lemma X3_memoised_component_on_current_table_witness :
  fst (CAFEH2.compute_prediction_component 0 CAFEH2_runs.one_start)
    = CAFEH2._compute_prediction_component_hash
        (CAFEH2.self CAFEH2_runs.one_start) 0 /\
  CAFEH2_memo.current
    (snd (CAFEH2.compute_prediction_component 0 CAFEH2_runs.one_start)).
Proof.
  destruct (@X3_memoised_component_on_current_table CAFEH2_runs.one_start 0
              (@CAFEH2_memo.current_empty
                 (CAFEH2.self CAFEH2_runs.one_start) []))
    as (H1 & _ & H3 & _).
  split; [exact H1 | exact H3].
Defined.

(** X4.  On a current memo table the entry [(t, j)] of
    [compute_prediction()] is the sum over the components of their direct
    contributions, [compute_prediction(k)] is that sum without the
    contribution of component [k], and [compute_residual()] is [Y] minus
    the sum. *)
Theorem X4_prediction_is_the_sum_of_the_components
  (w : CAFEH2.world) (t j : nat) :
  CAFEH2_memo.current w ->
  (t < length (CAFEH2.Y (CAFEH2.self w)))%nat ->
  (j < length (nth t (CAFEH2.Y (CAFEH2.self w)) []))%nat ->
  mget (fst (CAFEH2.compute_prediction None w)) t j
    = CAFEH2_memo.total_direct (CAFEH2.self w) t j /\
  (forall k,
     mget (fst (CAFEH2.compute_prediction (Some k) w)) t j
       = CAFEH2_memo.total_direct (CAFEH2.self w) t j
         - mget (CAFEH2._compute_prediction_component_hash (CAFEH2.self w) k)
             t j) /\
  mget (fst (CAFEH2.compute_residual None w)) t j
    = mget (CAFEH2.Y (CAFEH2.self w)) t j
      - CAFEH2_memo.total_direct (CAFEH2.self w) t j /\
  CAFEH2_memo.current (snd (CAFEH2.compute_residual None w)).
Proof.
  intros Hc Ht Hj.
  destruct (@CAFEH2_memo.prediction_current None w t j Hc Ht Hj) as [E0 Hc0].
  split; [exact E0|]. split.
  - intros k.
    exact (proj1 (@CAFEH2_memo.prediction_current (Some k) w t j Hc Ht Hj)).
  - unfold CAFEH2.compute_residual.
    destruct (CAFEH2.compute_prediction None w) as [p w1]. cbn [fst snd] in *.
    split; [|exact Hc0].
    rewrite CAFEH2_memo.mget_msub by auto. now rewrite E0.
Qed.

Lemma X4_prediction_is_the_sum_of_the_components_witness :
  mget (fst (CAFEH2.compute_prediction None CAFEH2_runs.two_start)) 0 1
    = CAFEH2_memo.total_direct (CAFEH2.self CAFEH2_runs.two_start) 0 1 /\
  mget (fst (CAFEH2.compute_residual None CAFEH2_runs.two_start)) 0 1
    = mget (CAFEH2.Y (CAFEH2.self CAFEH2_runs.two_start)) 0 1
      - CAFEH2_memo.total_direct (CAFEH2.self CAFEH2_runs.two_start) 0 1.
Proof.
  destruct (@X4_prediction_is_the_sum_of_the_components
              CAFEH2_runs.two_start 0 1
              (@CAFEH2_memo.current_empty
                 (CAFEH2.self CAFEH2_runs.two_start) []))
    as (H1 & _ & H3 & _); [cbn; lia | cbn; lia |].
  split; [exact H1 | exact H3].
Defined.

(** X5.  [sort_components] reorders [pi], [weight_means] and [active] by
    one and the same permutation of the component indices, along which the
    importance of the components does not increase.  It leaves
    [weight_vars] and [prior_precision] in the old order, keeps the memo
    table that [compute_prediction_component] reads and empties the other
    one. *)
Theorem X5_sort_components_applies_a_sorted_permutation (w : CAFEH2.world) :
  exists order,
    Permutation order (seq 0 (CAFEH2.dK (CAFEH2.self w))) /\
    StronglySorted
      (fun a b => CAFEH2.importance (CAFEH2.self w) b
                  <= CAFEH2.importance (CAFEH2.self w) a) order /\
    CAFEH2.pi (CAFEH2.self (CAFEH2.sort_components w))
      = CAFEH2.take [] order (CAFEH2.pi (CAFEH2.self w)) /\
    CAFEH2.weight_means (CAFEH2.self (CAFEH2.sort_components w))
      = map (CAFEH2.take [] order) (CAFEH2.weight_means (CAFEH2.self w)) /\
    CAFEH2.active (CAFEH2.self (CAFEH2.sort_components w))
      = map (CAFEH2.take 0 order) (CAFEH2.active (CAFEH2.self w)) /\
    CAFEH2.weight_vars (CAFEH2.self (CAFEH2.sort_components w))
      = CAFEH2.weight_vars (CAFEH2.self w) /\
    CAFEH2.prior_precision (CAFEH2.self (CAFEH2.sort_components w))
      = CAFEH2.prior_precision (CAFEH2.self w) /\
    CAFEH2.hash_cache (CAFEH2.sort_components w) = CAFEH2.hash_cache w /\
    CAFEH2.component_cache (CAFEH2.sort_components w) = [].
Proof.
  exists (CAFEH2_sorting.order (CAFEH2.self w)).
  split; [apply CAFEH2_sorting.order_perm|].
  split; [apply CAFEH2_sorting.order_sorted|].
  repeat split.
Qed.

(** X6.  The sum of the direct contributions of all components is the same
    before and after [sort_components]; so on a current memo table the
    prediction computed before the sort equals the prediction the sorted
    model computes from an empty table. *)
Theorem X6_sort_components_keeps_the_direct_prediction
  (w : CAFEH2.world) (t j : nat) :
  CAFEH2_memo.current w ->
  (t < length (CAFEH2.Y (CAFEH2.self w)))%nat ->
  (j < length (nth t (CAFEH2.Y (CAFEH2.self w)) []))%nat ->
  CAFEH2_memo.total_direct (CAFEH2.self (CAFEH2.sort_components w)) t j
    = CAFEH2_memo.total_direct (CAFEH2.self w) t j /\
  mget (fst (CAFEH2.compute_prediction None
               (CAFEH2.Build_world (CAFEH2.self (CAFEH2.sort_components w))
                  [] []))) t j
    = mget (fst (CAFEH2.compute_prediction None w)) t j.
Proof.
  intros Hc Ht Hj.
  pose proof (CAFEH2_sorting.total_direct_sorted w t j) as E.
  split; [exact E|].
  destruct (@CAFEH2_memo.prediction_current None w t j Hc Ht Hj) as [-> _].
  destruct (@CAFEH2_memo.prediction_current None
              (CAFEH2.Build_world (CAFEH2.self (CAFEH2.sort_components w)) [] [])
              t j
              (@CAFEH2_memo.current_empty
                 (CAFEH2.self (CAFEH2.sort_components w)) [])
              Ht Hj) as [-> _].
  exact E.
Qed.

Lemma X6_sort_components_keeps_the_direct_prediction_witness :
  CAFEH2_memo.total_direct
    (CAFEH2.self (CAFEH2.sort_components CAFEH2_runs.two_start)) 0 1
    = CAFEH2_memo.total_direct (CAFEH2.self CAFEH2_runs.two_start) 0 1 /\
  mget (fst (CAFEH2.compute_prediction None
               (CAFEH2.Build_world
                  (CAFEH2.self (CAFEH2.sort_components CAFEH2_runs.two_start))
                  [] []))) 0 1
    = mget (fst (CAFEH2.compute_prediction None CAFEH2_runs.two_start)) 0 1.
Proof.
  apply (@X6_sort_components_keeps_the_direct_prediction
           CAFEH2_runs.two_start 0 1
           (@CAFEH2_memo.current_empty (CAFEH2.self CAFEH2_runs.two_start) []));
    cbn; lia.
Defined.

(** X7.  [update_pi] over valid component indices (all of them when
    [components] is omitted) completes on a model with at least one
    variant; afterwards every row of [pi] it has visited is a probability
    vector, every other row is as before, and no weight or prior precision
    has changed. *)
Theorem X7_update_pi_makes_visited_rows_probability_vectors
  (normal_kl : R -> R -> R -> R -> R) (components : option (list nat))
  (w : CAFEH2.world) :
  (forall k,
     In k (match components with
           | Some c => c
           | None => seq 0 (CAFEH2.dK (CAFEH2.self w))
           end) -> (k < CAFEH2.dK (CAFEH2.self w))%nat) ->
  (0 < CAFEH2.dN (CAFEH2.self w))%nat ->
  length (CAFEH2.pi (CAFEH2.self w)) = CAFEH2.dK (CAFEH2.self w) ->
  exists w',
    CAFEH2.update_pi normal_kl components w = Some w' /\
    (forall k,
       In k (match components with
             | Some c => c
             | None => seq 0 (CAFEH2.dK (CAFEH2.self w))
             end) -> CAFEH2_passes.simplex_row (CAFEH2.self w') k) /\
    (forall k,
       ~ In k (match components with
               | Some c => c
               | None => seq 0 (CAFEH2.dK (CAFEH2.self w))
               end) ->
       nth k (CAFEH2.pi (CAFEH2.self w')) []
         = nth k (CAFEH2.pi (CAFEH2.self w)) []) /\
    CAFEH2.weight_means (CAFEH2.self w') = CAFEH2.weight_means (CAFEH2.self w) /\
    CAFEH2.weight_vars (CAFEH2.self w') = CAFEH2.weight_vars (CAFEH2.self w) /\
    CAFEH2.prior_precision (CAFEH2.self w')
      = CAFEH2.prior_precision (CAFEH2.self w).
Proof.
  intros Hks HN Hpi. unfold CAFEH2.update_pi.
  destruct (@CAFEH2_passes.update_pi_loop_simplex normal_kl _ w Hks HN Hpi)
    as (w' & E & _ & Hwm & Hwv & Hpp & _ & Hsim & Hout).
  exists w'. split; [exact E|].
  split; [intros k Hk; apply Hsim; now left|].
  split; [exact Hout|]. auto.
Qed.

Lemma X7_update_pi_makes_visited_rows_probability_vectors_witness :
  exists w',
    CAFEH2.update_pi (fun _ _ _ _ => 0) None CAFEH2_runs.two_start = Some w' /\
    CAFEH2_passes.simplex_row (CAFEH2.self w') 0 /\
    CAFEH2_passes.simplex_row (CAFEH2.self w') 1.
Proof.
  destruct (@X7_update_pi_makes_visited_rows_probability_vectors
              (fun _ _ _ _ => 0) None CAFEH2_runs.two_start)
    as (w' & E & Hsim & _).
  - intros k Hk. apply in_seq in Hk. cbn in *. lia.
  - cbn. lia.
  - reflexivity.
  - exists w'. split; [exact E|].
    split; apply Hsim; apply in_seq; cbn; lia.
Defined.

(** X8.  [update_weights] over all components completes on a well-shaped
    model.  Afterwards every weight variance is
    [1 / (diag(R1R2invR1)[n] + 1 / prior_variance()[t, k])], evaluated in
    the final state, whether or not the ARD step ran; the shapes and the
    range (0, 1e5] of the prior precisions are kept and [pi] is untouched;
    with a non-negative diagonal and positive component precisions every
    weight variance is strictly positive. *)
Theorem X8_update_weights_stores_the_closed_form_everywhere
  (ARD : bool) (w : CAFEH2.world) :
  CAFEH2_facts.wf (CAFEH2.self w) ->
  CAFEH2_facts.precision_ok (CAFEH2.self w) ->
  exists w',
    CAFEH2.update_weights None ARD w = Some w' /\
    CAFEH2_facts.wf (CAFEH2.self w') /\
    CAFEH2_facts.precision_ok (CAFEH2.self w') /\
    CAFEH2.dims (CAFEH2.self w') = CAFEH2.dims (CAFEH2.self w) /\
    CAFEH2.pi (CAFEH2.self w') = CAFEH2.pi (CAFEH2.self w) /\
    (forall t k n,
       (t < CAFEH2.dT (CAFEH2.self w))%nat ->
       (k < CAFEH2.dK (CAFEH2.self w))%nat ->
       (n < CAFEH2.dN (CAFEH2.self w))%nat ->
       tget (CAFEH2.weight_vars (CAFEH2.self w')) t k n =
         1 / (mget (CAFEH2.R1R2invR1 (CAFEH2.self w')) n n
              + 1 / mget (CAFEH2.prior_variance (CAFEH2.self w')) t k) /\
       (0 <= mget (CAFEH2.R1R2invR1 (CAFEH2.self w)) n n ->
        0 < vget (CAFEH2.prior_component_precision (CAFEH2.self w)) k ->
        0 < tget (CAFEH2.weight_vars (CAFEH2.self w')) t k n)).
Proof.
  intros Hwf Hok. unfold CAFEH2.update_weights.
  destruct (@CAFEH2_passes.update_weights_loop_formula
              (seq 0 (CAFEH2.dK (CAFEH2.self w))) ARD w Hwf Hok)
    as (w' & E & Hwf' & Hok' & Hd & Hpi & _ & Hall).
  { intros k Hk. apply in_seq in Hk. lia. }
  assert (Hdims : CAFEH2.dims (CAFEH2.self w') = CAFEH2.dims (CAFEH2.self w))
    by apply Hd.
  exists w'. split; [exact E|]. split; [exact Hwf'|]. split; [exact Hok'|].
  split; [exact Hdims|]. split; [exact Hpi|].
  intros t k n Ht Hk Hn.
  assert (HT : CAFEH2.dT (CAFEH2.self w') = CAFEH2.dT (CAFEH2.self w))
    by (unfold CAFEH2.dT; now rewrite Hdims).
  assert (HK : CAFEH2.dK (CAFEH2.self w') = CAFEH2.dK (CAFEH2.self w))
    by (unfold CAFEH2.dK; now rewrite Hdims).
  assert (HN : CAFEH2.dN (CAFEH2.self w') = CAFEH2.dN (CAFEH2.self w))
    by (unfold CAFEH2.dN; now rewrite Hdims).
  assert (Hf : CAFEH2_passes.var_formula (CAFEH2.self w') k).
  { apply Hall; [|exact Hk]. left. apply in_seq. lia. }
  assert (Ev := Hf t n). rewrite HT, HN in Ev. specialize (Ev Ht Hn).
  split; [exact Ev|].
  intros Hg Hc. rewrite Ev.
  assert (Hg' : CAFEH2.R1R2invR1 (CAFEH2.self w')
                = CAFEH2.R1R2invR1 (CAFEH2.self w)) by apply Hd.
  assert (Hc' : CAFEH2.prior_component_precision (CAFEH2.self w')
                = CAFEH2.prior_component_precision (CAFEH2.self w)) by apply Hd.
  destruct (@CAFEH2_facts.prior_variance_regular (CAFEH2.self w') t k Hwf' Hok')
    as [_ Hinv]; rewrite ?HT, ?HK, ?Hc'; auto.
  rewrite Hg'. apply Rdiv_lt_0_compat; lra.
Qed.

Lemma X8_update_weights_stores_the_closed_form_everywhere_witness :
  exists w',
    CAFEH2.update_weights None true CAFEH2_runs.one_start = Some w' /\
    tget (CAFEH2.weight_vars (CAFEH2.self w')) 0 0 1 =
      1 / (mget (CAFEH2.R1R2invR1 (CAFEH2.self w')) 1 1
           + 1 / mget (CAFEH2.prior_variance (CAFEH2.self w')) 0 0) /\
    0 < tget (CAFEH2.weight_vars (CAFEH2.self w')) 0 0 1.
Proof.
  destruct (@X8_update_weights_stores_the_closed_form_everywhere
              true CAFEH2_runs.one_start States.one_start_wf
              States.one_start_precision_ok)
    as (w' & E & _ & _ & _ & _ & Hall).
  exists w'. split; [exact E|].
  destruct (Hall 0%nat 0%nat 1%nat) as [Ev Hpos]; [cbn; lia | cbn; lia | cbn; lia |].
  split; [exact Ev|]. apply Hpos; unfold mget, vget; cbn; lra.
Defined.

(** X9.  A weight update of component [k] never writes the data, the
    dimensions, [pi], [active] or the weights of another component.
    Without the ARD step it leaves [prior_precision] as it is; with it,
    only column [k] of [prior_precision] can change. *)
Theorem X9_weight_update_writes_only_component_k
  (k : nat) (ARD : bool) (residual : option mat) (w w' : CAFEH2.world) :
  CAFEH2._update_weight_component k ARD residual w = Some w' ->
  CAFEH2_passes.same_data (CAFEH2.self w) (CAFEH2.self w') /\
  CAFEH2.pi (CAFEH2.self w') = CAFEH2.pi (CAFEH2.self w) /\
  (ARD = false ->
   CAFEH2.prior_precision (CAFEH2.self w')
     = CAFEH2.prior_precision (CAFEH2.self w)) /\
  (forall t j, j <> k ->
     mget (CAFEH2.prior_precision (CAFEH2.self w')) t j
       = mget (CAFEH2.prior_precision (CAFEH2.self w)) t j) /\
  (forall t j n, j <> k ->
     tget (CAFEH2.weight_vars (CAFEH2.self w')) t j n
       = tget (CAFEH2.weight_vars (CAFEH2.self w)) t j n /\
     tget (CAFEH2.weight_means (CAFEH2.self w')) t j n
       = tget (CAFEH2.weight_means (CAFEH2.self w)) t j n).
Proof.
  intros H. exact (@CAFEH2_passes.weight_update_frame k ARD residual w w' H).
Qed.

Lemma X9_weight_update_writes_only_component_k_witness :
  CAFEH2.pi (CAFEH2.self (CAFEH2_runs.demo 2 [CAFEH2_runs.half2; CAFEH2_runs.half2]
                            [[[0; 4]; [0; 0]]] []))
    = CAFEH2.pi (CAFEH2.self CAFEH2_runs.two_start) /\
  tget (CAFEH2.weight_means
          (CAFEH2.self (CAFEH2_runs.demo 2
                          [CAFEH2_runs.half2; CAFEH2_runs.half2]
                          [[[0; 4]; [0; 0]]] []))) 0 1 1
    = tget (CAFEH2.weight_means (CAFEH2.self CAFEH2_runs.two_start)) 0 1 1.
Proof.
  destruct (@X9_weight_update_writes_only_component_k 0 false (Some [[0; 8]])
              CAFEH2_runs.two_start _ CAFEH2_runs.two_update_a)
    as (_ & Hpi & _ & _ & Hfr).
  split; [exact Hpi|]. apply (Hfr 0%nat 1%nat 1%nat). lia.
Defined.

(** X10.  An assignment update of component [k] never writes the data, the
    dimensions, the weights or the prior precisions; it keeps the number of
    rows of [pi] and changes no row but row [k]. *)
Theorem X10_pi_update_writes_only_row_k
  (normal_kl : R -> R -> R -> R -> R) (k : nat) (residual : option mat)
  (w w' : CAFEH2.world) :
  CAFEH2._update_pi_component normal_kl k residual w = Some w' ->
  CAFEH2_passes.same_data (CAFEH2.self w) (CAFEH2.self w') /\
  CAFEH2.weight_means (CAFEH2.self w') = CAFEH2.weight_means (CAFEH2.self w) /\
  CAFEH2.weight_vars (CAFEH2.self w') = CAFEH2.weight_vars (CAFEH2.self w) /\
  CAFEH2.prior_precision (CAFEH2.self w')
    = CAFEH2.prior_precision (CAFEH2.self w) /\
  length (CAFEH2.pi (CAFEH2.self w')) = length (CAFEH2.pi (CAFEH2.self w)) /\
  (forall j, j <> k ->
     nth j (CAFEH2.pi (CAFEH2.self w')) [] = nth j (CAFEH2.pi (CAFEH2.self w)) []).
Proof.
  intros H. exact (@CAFEH2_passes.pi_update_frame normal_kl k residual w w' H).
Qed.

Lemma X10_pi_update_writes_only_row_k_witness :
  exists w',
    CAFEH2._update_pi_component (fun _ _ _ _ => 0) 0 None CAFEH2_runs.two_start
      = Some w' /\
    CAFEH2.weight_vars (CAFEH2.self w')
      = CAFEH2.weight_vars (CAFEH2.self CAFEH2_runs.two_start) /\
    nth 1 (CAFEH2.pi (CAFEH2.self w')) []
      = nth 1 (CAFEH2.pi (CAFEH2.self CAFEH2_runs.two_start)) [].
Proof.
  destruct (@CAFEH2_facts.update_pi_simplex (fun _ _ _ _ => 0) 0 None
              CAFEH2_runs.two_start) as (w' & E & _);
    [cbn; lia | cbn; lia | reflexivity |].
  exists w'. split; [exact E|].
  destruct (@X10_pi_update_writes_only_row_k (fun _ _ _ _ => 0) 0 None
              CAFEH2_runs.two_start w' E) as (_ & _ & Hwv & _ & _ & Hrows).
  split; [exact Hwv|]. apply Hrows. lia.
Defined.

(** X11.  One sweep of [fit] over valid component indices completes.  It
    keeps the shapes of the arrays and the range (0, 1e5] of the prior
    precisions and never writes the data; with [update_pi] every visited
    row of [pi] ends as a probability vector, and with [update_weights]
    every visited component ends with the weight variances
    [1 / (diag(R1R2invR1)[n] + 1 / prior_variance()[t, k])]. *)
Theorem X11_fit_sweep_completes_and_keeps_the_invariants
  (normal_kl : R -> R -> R -> R -> R)
  (update_weights update_pi ARD_weights : bool) (components : list nat)
  (residual : mat) (w : CAFEH2.world) :
  CAFEH2_facts.wf (CAFEH2.self w) ->
  CAFEH2_facts.precision_ok (CAFEH2.self w) ->
  (forall l, In l components -> (l < CAFEH2.dK (CAFEH2.self w))%nat) ->
  (0 < CAFEH2.dN (CAFEH2.self w))%nat ->
  exists residual' w',
    CAFEH2.fit_sweep normal_kl update_weights update_pi ARD_weights components
      (residual, w) = Some (residual', w') /\
    CAFEH2_facts.wf (CAFEH2.self w') /\
    CAFEH2_facts.precision_ok (CAFEH2.self w') /\
    CAFEH2_passes.same_data (CAFEH2.self w) (CAFEH2.self w') /\
    (update_pi = true -> forall l, In l components ->
       CAFEH2_passes.simplex_row (CAFEH2.self w') l) /\
    (update_weights = true -> forall l, In l components ->
       CAFEH2_passes.var_formula (CAFEH2.self w') l).
Proof.
  intros Hwf Hok Hks HN.
  destruct (@CAFEH2_sweep.fit_sweep_runs normal_kl update_weights update_pi
              ARD_weights components residual w Hwf Hok Hks HN)
    as (r' & w' & E & Hwf' & Hok' & Hd & Hs & Hv).
  exists r', w'. split; [exact E|]. split; [exact Hwf'|]. split; [exact Hok'|].
  split; [exact Hd|]. split.
  - intros Hu l Hl. apply Hs; [now apply Hks | now left].
  - intros Hu l Hl. apply Hv; [now apply Hks | now left].
Qed.

Lemma X11_fit_sweep_completes_and_keeps_the_invariants_witness :
  exists residual' w',
    CAFEH2.fit_sweep (fun _ _ _ _ => 0) true true true [0%nat]
      ([[0; 0]], CAFEH2_runs.one_start) = Some (residual', w') /\
    CAFEH2_facts.wf (CAFEH2.self w') /\
    CAFEH2_passes.simplex_row (CAFEH2.self w') 0 /\
    CAFEH2_passes.var_formula (CAFEH2.self w') 0.
Proof.
  destruct (@X11_fit_sweep_completes_and_keeps_the_invariants
              (fun _ _ _ _ => 0) true true true [0%nat] [[0; 0]]
              CAFEH2_runs.one_start States.one_start_wf
              States.one_start_precision_ok)
    as (r' & w' & E & Hwf' & _ & _ & Hs & Hv).
  - intros l [<-|[]]. cbn. lia.
  - cbn. lia.
  - exists r', w'. split; [exact E|]. split; [exact Hwf'|].
    split; [apply Hs | apply Hv]; auto; now left.
Defined.

(** ** The sample-based engine *)





(** X14.  On a state with finite parameters, current memo tables,
    probability rows in [pi] and non-negative weight variances, the entry
    of [_compute_ERSS] for a channel is the sum of squares of the residual
    over the observed samples plus a correction that is non-negative (the
    summed variances of the components' predictions): the expected
    residual sum of squares is finite and never negative. *)
Theorem X14_expected_residual_sum_of_squares_is_nonnegative
  (residual : option fmat) (w : IndependentFactorSER.world) (t : nat)
  (base : R) :
  IndependentFactorSER_facts.regular (IndependentFactorSER.self w) ->
  IndependentFactorSER_facts.caches_current w ->
  (t < IndependentFactorSER.dT (IndependentFactorSER.self w))%nat ->
  SER_variance.proper (IndependentFactorSER.self w) t ->
  IndependentFactorSER.residual_ss (IndependentFactorSER.self w)
    (IndependentFactorSER_facts.residual_given residual w) t = Some base ->
  fget (fst (IndependentFactorSER._compute_ERSS residual w)) t
    = Some (base + IndependentFactorSER_facts.corr (IndependentFactorSER.self w) t) /\
  0 <= base /\
  0 <= IndependentFactorSER_facts.corr (IndependentFactorSER.self w) t /\
  0 <= base + IndependentFactorSER_facts.corr (IndependentFactorSER.self w) t.
Proof.
  intros H Hc Ht Hp Hb.
  destruct (@SER_variance.ERSS_decomposition residual w t base H Hc Ht Hp Hb)
    as (E & H1 & H2).
  split; [exact E|]. split; [exact H1|]. split; [exact H2 | lra].
Qed.

Lemma X14_expected_residual_sum_of_squares_is_nonnegative_witness :
  exists base,
    fget (fst (IndependentFactorSER._compute_ERSS None States.partly_missing)) 0
      = Some (base + IndependentFactorSER_facts.corr
                       (IndependentFactorSER.self States.partly_missing) 0) /\
    0 <= base + IndependentFactorSER_facts.corr
                  (IndependentFactorSER.self States.partly_missing) 0.
Proof.
  eexists.
  destruct (@X14_expected_residual_sum_of_squares_is_nonnegative None
              States.partly_missing 0 _ States.partly_missing_regular
              States.partly_missing_current (Nat.lt_0_succ 1)
              (MoreStates.partly_missing_proper 0)
              (@IndependentFactorSER_facts.residual_ss_own
                 States.partly_missing 0 States.partly_missing_regular
                 States.partly_missing_no_covariates (Nat.lt_0_succ 1)))
    as (E & _ & _ & Hpos).
  split; [exact E | exact Hpos].
Defined.

(** X15.  After [update_tissue_variance] the Gamma parameters of a channel
    are [c + n/2] and [d + ERSS/2], with [n] the number of observed samples
    of the channel; on a state as in X14 and with positive [c] and [d] the
    expected noise precision of the channel is their quotient, a positive
    number. *)
Theorem X15_update_tissue_variance_gives_a_positive_precision
  (residual : option fmat) (w : IndependentFactorSER.world) (t : nat)
  (base : R) :
  IndependentFactorSER_facts.regular (IndependentFactorSER.self w) ->
  IndependentFactorSER_facts.caches_current w ->
  (t < IndependentFactorSER.dT (IndependentFactorSER.self w))%nat ->
  SER_variance.proper (IndependentFactorSER.self w) t ->
  IndependentFactorSER.residual_ss (IndependentFactorSER.self w)
    (IndependentFactorSER_facts.residual_given residual w) t = Some base ->
  0 < IndependentFactorSER.c (IndependentFactorSER.self w) ->
  0 < IndependentFactorSER.d (IndependentFactorSER.self w) ->
  exists n_t ERSS_t tau,
    n_t = INR (length (filter (fun x => x)
                 (IndependentFactorSER._get_mask (IndependentFactorSER.self w) t))) /\
    fget (fst (IndependentFactorSER._compute_ERSS residual w)) t = Some ERSS_t /\
    fget (IndependentFactorSER.tissue_precision_a
            (IndependentFactorSER.self
               (IndependentFactorSER.update_tissue_variance residual w))) t
      = Some (IndependentFactorSER.c (IndependentFactorSER.self w) + n_t / 2) /\
    fget (IndependentFactorSER.tissue_precision_b
            (IndependentFactorSER.self
               (IndependentFactorSER.update_tissue_variance residual w))) t
      = Some (IndependentFactorSER.d (IndependentFactorSER.self w) + ERSS_t / 2) /\
    fget (IndependentFactorSER.expected_tissue_precision
            (IndependentFactorSER.self
               (IndependentFactorSER.update_tissue_variance residual w))) t
      = Some tau /\
    tau = (IndependentFactorSER.c (IndependentFactorSER.self w) + n_t / 2)
          / (IndependentFactorSER.d (IndependentFactorSER.self w) + ERSS_t / 2) /\
    0 < tau.
Proof.
  intros H Hc Ht Hp Hb Hcpos Hdpos.
  destruct (@SER_variance.ERSS_decomposition residual w t base H Hc Ht Hp Hb)
    as (E & _).
  destruct (@SER_variance.tissue_variance_entry residual w t base H Hc Ht Hb)
    as [Ea Eb].
  destruct (@SER_precisions.tissue_precision_positive residual w t base
              H Hc Ht Hp Hb Hcpos Hdpos) as [Etau Hpos].
  cbv zeta in *.
  eexists _, _, _. split; [reflexivity|]. split; [exact E|].
  split; [exact Ea|]. split; [exact Eb|]. split; [exact Etau|].
  split; [reflexivity | exact Hpos].
Qed.

Lemma X15_update_tissue_variance_gives_a_positive_precision_witness :
  exists tau,
    fget (IndependentFactorSER.expected_tissue_precision
            (IndependentFactorSER.self
               (IndependentFactorSER.update_tissue_variance None
                  States.partly_missing))) 0 = Some tau /\
    0 < tau.
Proof.
  destruct (@X15_update_tissue_variance_gives_a_positive_precision None
              States.partly_missing 0 _ States.partly_missing_regular
              States.partly_missing_current (Nat.lt_0_succ 1)
              (MoreStates.partly_missing_proper 0)
              (@IndependentFactorSER_facts.residual_ss_own
                 States.partly_missing 0 States.partly_missing_regular
                 States.partly_missing_no_covariates (Nat.lt_0_succ 1)))
    as (n_t & e & tau & _ & _ & _ & _ & Etau & _ & Hpos); [cbn; lra | cbn; lra |].
  exists tau. split; [exact Etau | exact Hpos].
Defined.

(** X16.  [update_ARD_weights(k)] sets the Gamma parameters of the weight
    precision of component [k] to [a + 1/2] and [b + second_moment / 2] in
    every channel and leaves the parameters of the other components as
    they are.  On a state with finite parameters, probability rows in [pi]
    and non-negative weight variances the second moment is non-negative,
    so with [a >= 0] and [b > 0] the expected weight precision of the
    component is a positive number. *)
Theorem X16_update_ARD_weights_gives_a_positive_precision
  (s : IndependentFactorSER.model) (k t : nat) :
  IndependentFactorSER_facts.regular s ->
  SER_precisions.precisions_shaped s ->
  SER_variance.proper s t ->
  (k < IndependentFactorSER.dK s)%nat -> (t < IndependentFactorSER.dT s)%nat ->
  0 <= IndependentFactorSER.a s -> 0 < IndependentFactorSER.b s ->
  fget2 (IndependentFactorSER.weight_precision_a
           (IndependentFactorSER.update_ARD_weights k s)) t k
    = Some (IndependentFactorSER.a s + 0.5) /\
  fget2 (IndependentFactorSER.weight_precision_b
           (IndependentFactorSER.update_ARD_weights k s)) t k
    = Some (IndependentFactorSER.b s + SER_precisions.second_moment s k t / 2) /\
  0 <= SER_precisions.second_moment s k t /\
  fget2 (IndependentFactorSER.expected_weight_precision
           (IndependentFactorSER.update_ARD_weights k s)) t k
    = Some ((IndependentFactorSER.a s + 0.5)
            / (IndependentFactorSER.b s
               + SER_precisions.second_moment s k t / 2)) /\
  0 < (IndependentFactorSER.a s + 0.5)
      / (IndependentFactorSER.b s + SER_precisions.second_moment s k t / 2) /\
  (forall j u, j <> k ->
     fget2 (IndependentFactorSER.weight_precision_a
              (IndependentFactorSER.update_ARD_weights k s)) u j
       = fget2 (IndependentFactorSER.weight_precision_a s) u j /\
     fget2 (IndependentFactorSER.weight_precision_b
              (IndependentFactorSER.update_ARD_weights k s)) u j
       = fget2 (IndependentFactorSER.weight_precision_b s) u j).
Proof.
  intros H Hsh Hp Hk Ht Ha Hb.
  destruct (@SER_precisions.ARD_weights_entry s k t H Hsh Hk Ht) as [Ea Eb].
  destruct (@SER_precisions.ARD_weights_positive s k t H Hsh Hp Hk Ht Ha Hb)
    as [Ealpha Hpos].
  split; [exact Ea|]. split; [exact Eb|].
  split; [exact (@SER_precisions.second_moment_nonneg s k t Hp Hk)|].
  split; [exact Ealpha|]. split; [exact Hpos|].
  intros j u Hj. exact (@SER_precisions.ARD_weights_other s k u j Hj).
Qed.

Lemma X16_update_ARD_weights_gives_a_positive_precision_witness :
  fget2 (IndependentFactorSER.weight_precision_a
           (IndependentFactorSER.update_ARD_weights 0
              (IndependentFactorSER.self States.partly_missing))) 1 0
    = Some (1e-6 + 0.5) /\
  0 < (1e-6 + 0.5)
      / (1e-6 + SER_precisions.second_moment
                  (IndependentFactorSER.self States.partly_missing) 0 1 / 2).
Proof.
  destruct (@X16_update_ARD_weights_gives_a_positive_precision
              (IndependentFactorSER.self States.partly_missing) 0 1
              States.partly_missing_regular MoreStates.partly_missing_precisions
              (MoreStates.partly_missing_proper 1))
    as (Ea & _ & _ & _ & Hpos & _); [cbn; lia | cbn; lia | cbn; lra | cbn; lra |].
  split; [exact Ea | exact Hpos].
Defined.

(** X17.  A weight update of component [k] in the sample-based engine
    succeeds exactly on a component index; it writes the two weight arrays
    and nothing else of the object, leaves the weights of every other
    component as they are, and of the caller's arrays it touches only the
    one passed as residual (none when the residual is computed afresh). *)
Theorem X17_ser_weight_update_writes_only_component_k
  (k : nat) (residual : option nat) (w w' : IndependentFactorSER.world) :
  IndependentFactorSER._update_weight_component k residual w = Some w' ->
  (k < IndependentFactorSER.dK (IndependentFactorSER.self w))%nat /\
  (exists wm wv,
     IndependentFactorSER.self w'
       = IndependentFactorSER.set_weights wm wv (IndependentFactorSER.self w)) /\
  (residual = None ->
   IndependentFactorSER.heap w' = IndependentFactorSER.heap w) /\
  (forall l l', residual = Some l -> l' <> l ->
     IndependentFactorSER.read w' l' = IndependentFactorSER.read w l') /\
  (forall j t n, j <> k ->
     fget3 (IndependentFactorSER.weight_vars (IndependentFactorSER.self w')) t j n
       = fget3 (IndependentFactorSER.weight_vars (IndependentFactorSER.self w))
           t j n /\
     fget3 (IndependentFactorSER.weight_means (IndependentFactorSER.self w')) t j n
       = fget3 (IndependentFactorSER.weight_means (IndependentFactorSER.self w))
           t j n).
Proof.
  intros H. exact (@SER_frames.weight_update_writes k residual w w' H).
Qed.

Lemma X17_ser_weight_update_writes_only_component_k_witness :
  exists w',
    IndependentFactorSER._update_weight_component 0 (Some 0%nat)
      IndependentFactorSER_runs.start = Some w' /\
    IndependentFactorSER.read w' 1
      = IndependentFactorSER.read IndependentFactorSER_runs.start 1.
Proof.
  eexists. split; [exact IndependentFactorSER_runs.first_update|].
  destruct (@X17_ser_weight_update_writes_only_component_k 0 (Some 0%nat)
              IndependentFactorSER_runs.start _
              IndependentFactorSER_runs.first_update)
    as (_ & _ & _ & Hr & _).
  apply (Hr 0%nat 1%nat); [reflexivity | lia].
Defined.

(** X18.  An assignment update of component [k] in the sample-based engine
    succeeds only on a component index of a model with at least one
    variant; it writes row [k] of [pi] and nothing else of the object, and
    of the caller's arrays it touches only the one passed as residual. *)
Theorem X18_ser_pi_update_writes_only_row_k
  (normal_kl : fl -> fl -> fl -> fl -> fl) (k : nat) (residual : option nat)
  (w w' : IndependentFactorSER.world) :
  IndependentFactorSER._update_pi_component normal_kl k residual w = Some w' ->
  (k < IndependentFactorSER.dK (IndependentFactorSER.self w))%nat /\
  (0 < IndependentFactorSER.dN (IndependentFactorSER.self w))%nat /\
  (exists row,
     IndependentFactorSER.self w'
       = IndependentFactorSER.set_pi
           (upd k row (IndependentFactorSER.pi (IndependentFactorSER.self w)))
           (IndependentFactorSER.self w)) /\
  (residual = None ->
   IndependentFactorSER.heap w' = IndependentFactorSER.heap w) /\
  (forall l l', residual = Some l -> l' <> l ->
     IndependentFactorSER.read w' l' = IndependentFactorSER.read w l') /\
  (forall j, j <> k ->
     nth j (IndependentFactorSER.pi (IndependentFactorSER.self w')) []
       = nth j (IndependentFactorSER.pi (IndependentFactorSER.self w)) []).
Proof.
  intros H. exact (@SER_frames.pi_update_writes normal_kl k residual w w' H).
Qed.

Lemma X18_ser_pi_update_writes_only_row_k_witness :
  exists w',
    IndependentFactorSER._update_pi_component (fun _ _ _ _ => Some 0) 0
      (Some 0%nat) States.partly_missing = Some w' /\
    IndependentFactorSER.read w' 1 = IndependentFactorSER.read States.partly_missing 1.
Proof.
  eexists. split.
  - apply (@IndependentFactorSER_facts.update_pi_runs (fun _ _ _ _ => Some 0)
             0 (Some 0%nat) States.partly_missing); cbn; lia.
  - destruct (@X18_ser_pi_update_writes_only_row_k (fun _ _ _ _ => Some 0) 0
                (Some 0%nat) States.partly_missing _
                (@IndependentFactorSER_facts.update_pi_runs
                   (fun _ _ _ _ => Some 0) 0 (Some 0%nat) States.partly_missing
                   (Nat.lt_0_succ 0) (Nat.lt_0_succ 0)))
      as (_ & _ & _ & _ & Hr & _).
    apply (Hr 0%nat 1%nat); [reflexivity | lia].
Defined.

(** X19.  On a state with finite parameters and no covariate effect the
    total prediction [compute_prediction()] is, entry by entry, the sum of
    the direct first moments of the components, and it is computed without
    the memo tables; on current tables [compute_prediction(k)] is that sum
    without the first moment of component [k]. *)
Theorem X19_ser_prediction_is_the_sum_of_first_moments
  (w : IndependentFactorSER.world) (k t m : nat) :
  IndependentFactorSER_facts.regular (IndependentFactorSER.self w) ->
  IndependentFactorSER_facts.no_covariate_effect (IndependentFactorSER.self w) ->
  IndependentFactorSER_facts.caches_current w ->
  (k < IndependentFactorSER.dK (IndependentFactorSER.self w))%nat ->
  (t < IndependentFactorSER.dT (IndependentFactorSER.self w))%nat ->
  (m < IndependentFactorSER.dM (IndependentFactorSER.self w))%nat ->
  exists total fm_k,
    fsumn (IndependentFactorSER.dK (IndependentFactorSER.self w))
      (fun l => fget2 (IndependentFactorSER._compute_first_moment_hash
                         (IndependentFactorSER.self w) l) t m) = Some total /\
    fget2 (IndependentFactorSER._compute_first_moment_hash
             (IndependentFactorSER.self w) k) t m = Some fm_k /\
    fget2 (fst (IndependentFactorSER.compute_prediction None true w)) t m
      = Some total /\
    snd (IndependentFactorSER.compute_prediction None true w) = w /\
    fget2 (fst (IndependentFactorSER.compute_prediction (Some k) true w)) t m
      = Some (total - fm_k).
Proof.
  intros H H0 Hc Hk Ht Hm.
  destruct (@SER_frames.prediction_total w t m H H0 Ht Hm) as [E1 E2].
  pose proof (@SER_frames.prediction_without w k t m H H0 Hc Hk Ht Hm) as E3.
  cbv zeta in *.
  eexists _, _. split; [exact E2|].
  split; [exact (@IndependentFactorSER_facts.first_moment_entry
                   (IndependentFactorSER.self w) k t m H Hk Ht Hm)|].
  split; [exact E1|]. split; [reflexivity | exact E3].
Qed.

Lemma X19_ser_prediction_is_the_sum_of_first_moments_witness :
  exists total,
    fsumn 1 (fun l => fget2 (IndependentFactorSER._compute_first_moment_hash
                               (IndependentFactorSER.self States.partly_missing)
                               l) 0 0) = Some total /\
    fget2 (fst (IndependentFactorSER.compute_prediction None true
                  States.partly_missing)) 0 0 = Some total.
Proof.
  destruct (@X19_ser_prediction_is_the_sum_of_first_moments
              States.partly_missing 0 0 0 States.partly_missing_regular
              States.partly_missing_no_covariates States.partly_missing_current)
    as (total & fm & E1 & _ & E2 & _); [cbn; lia | cbn; lia | cbn; lia |].
  exists total. split; [exact E1 | exact E2].
Defined.

(** ** The reporting helpers *)

(** X20.  For a model with records whose assignment entries for variant
    [n] lie in [0, 1], [compute_pip] returns a value strictly below 1 for
    that variant; and if no component puts any mass on the variant (and
    there is at least one component) the value is negative. *)
Theorem X20_compute_pip_is_below_one
  (model : Misc.fitted) (r : Misc.records_t) (n : nat) :
  Misc.records model = Some r ->
  (forall k, (k < length (Misc.pi model))%nat ->
     0 <= mget (Misc.pi model) k n <= 1) ->
  (n < length (hd [] (Misc.pi model)))%nat ->
  exists v,
    Misc.compute_pip model = Some v /\
    vget v n < 1 /\
    ((0 < length (Misc.pi model))%nat ->
     (forall k, (k < length (Misc.pi model))%nat ->
        mget (Misc.pi model) k n = 0) ->
     vget v n < 0).
Proof.
  intros Hr Hp Hn.
  destruct (@MiscTools.compute_pip_entry model r n Hr) as (v & E & Ev); auto.
  { intros k Hk. apply Hp, Hk. }
  exists v. split; [exact E|]. rewrite Ev. split.
  - assert (0 < Misc.prodn (length (Misc.pi model))
                  (fun k => 1 - mget (Misc.pi model) k n + 1e-10)).
    { apply MiscTools.prodn_pos. intros k Hk. specialize (Hp k Hk). lra. }
    lra.
  - intros HK Hz.
    assert (1 < Misc.prodn (length (Misc.pi model))
                  (fun k => 1 - mget (Misc.pi model) k n + 1e-10)).
    { apply MiscTools.prodn_gt_1; [exact HK|].
      intros k Hk. rewrite (Hz k Hk). lra. }
    lra.
Qed.

Lemma X20_compute_pip_is_below_one_witness :
  exists v,
    Misc.compute_pip
      (Misc.Build_fitted [[1; 0]] (Some (Misc.Build_records_t [true])))
      = Some v /\
    vget v 1 < 1 /\ vget v 1 < 0.
Proof.
  destruct (@X20_compute_pip_is_below_one
              (Misc.Build_fitted [[1; 0]] (Some (Misc.Build_records_t [true])))
              (Misc.Build_records_t [true]) 1 eq_refl)
    as (v & E & H1 & H0).
  - intros k Hk. cbn in Hk. destruct k as [|k]; [|lia]. unfold mget. cbn. lra.
  - cbn. lia.
  - exists v. split; [exact E|]. split; [exact H1|]. apply H0.
    + cbn. lia.
    + intros k Hk. cbn in Hk. destruct k as [|k]; [|lia]. reflexivity.
Defined.


(** X22.  [flip] is the reflection [x -> 2 - x] of an allele count: it
    exchanges 0 and 2, fixes 1, and applying it twice gives the count
    back. *)
Theorem X22_flip_is_an_involution :
  (forall x, MiscTools.flip (MiscTools.flip x) = x) /\
  (forall x, MiscTools.flip x = 2 - x) /\
  MiscTools.flip 0 = 2 /\ MiscTools.flip 1 = 1 /\ MiscTools.flip 2 = 0.
Proof. unfold MiscTools.flip. repeat split; intros; lra. Qed.

(** X23.  If the identifier, stripped of surrounding whitespace, is six
    fields joined by underscores, none of which contains an underscore,
    [need_to_flip] answers whether the fourth field (the minor allele)
    differs from the sixth (the reference allele). *)
Theorem X23_need_to_flip_compares_minor_and_reference
  (variant_id chrom pos major minor build ref : Variants.str) :
  Variants.strip variant_id
    = Variants.join Variants.underscore [chrom; pos; major; minor; build; ref] ->
  (forall f, In f [chrom; pos; major; minor; build; ref] ->
     ~ In Variants.underscore f) ->
  Variants.need_to_flip variant_id
    = Some (if Variants.str_eq_dec minor ref then false else true).
Proof.
  intros Hs Hf. unfold Variants.need_to_flip.
  fold Variants.underscore. rewrite Hs.
  rewrite Variants.split_join; [reflexivity | discriminate | exact Hf].
Qed.

Lemma X23_need_to_flip_compares_minor_and_reference_witness :
  Variants.need_to_flip Variants.example_id = Some false.
Proof.
  apply (@X23_need_to_flip_compares_minor_and_reference Variants.example_id
           (nth 0 Variants.example_fields []) (nth 1 Variants.example_fields [])
           (nth 2 Variants.example_fields []) (nth 3 Variants.example_fields [])
           (nth 4 Variants.example_fields []) (nth 5 Variants.example_fields [])).
  - reflexivity.
  - intros f Hf Hin. cbn in Hf.
    repeat (destruct Hf as [<-|Hf];
            [cbn in Hin; unfold Variants.underscore in Hin;
             repeat (destruct Hin as [Hin|Hin]; [discriminate|]); exact Hin|]).
    exact Hf.
Defined.

(** X24.  [need_to_flip] raises exactly when the identifier, stripped of
    surrounding whitespace, does not contain exactly five underscores. *)
Theorem X24_need_to_flip_needs_exactly_six_fields
  (variant_id : Variants.str) :
  Variants.need_to_flip variant_id = None <->
  count_occ Ascii.ascii_dec (Variants.strip variant_id) Variants.underscore
    <> 5%nat.
Proof.
  unfold Variants.need_to_flip. fold Variants.underscore.
  pose proof (Variants.split_length Variants.underscore
                (Variants.strip variant_id)) as Hl.
  destruct (Variants.split Variants.underscore (Variants.strip variant_id))
    as [|f1 [|f2 [|f3 [|f4 [|f5 [|f6 [|f7 l]]]]]]]; cbn in Hl;
    split; intros H; try reflexivity; try discriminate; lia.
Qed.

(** X25.  Rehydrating a model from the records [compute_records] has just
    attached restores, in arrays of the recorded shape, every weight mean
    and variance of the variants whose PIP exceeds 0.01, and sets the
    weight mean to 0 and the weight variance to 1 at every other variant;
    [pi], [X] and the records are kept. *)
Theorem X25_rehydrate_restores_the_recorded_weights
  (get_credible_sets : Records.model -> R -> list (list nat) * vec)
  (m : Records.model) (t k n : nat) :
  Records_facts.shaped m ->
  (t < Records.dim_T m)%nat -> (k < Records.dim_K m)%nat ->
  (n < Records.dim_N m)%nat ->
  exists m',
    Records.rehydrate_model (Records.compute_records get_credible_sets m)
      = Some m' /\
    tget (Records.weight_means m') t k n =
      (if Records.gt (vget (Records.PIP (Records.pi m)) n) 0.01
       then tget (Records.weight_means m) t k n else 0) /\
    tget (Records.weight_vars m') t k n =
      (if Records.gt (vget (Records.PIP (Records.pi m)) n) 0.01
       then tget (Records.weight_vars m) t k n else 1) /\
    Records.pi m' = Records.pi m /\ Records.X m' = Records.X m /\
    Records.records m'
      = Records.records (Records.compute_records get_credible_sets m).
Proof.
  intros Hsh Ht Hk Hn.
  exact (@Records_facts.rehydrated_entry get_credible_sets m t k n Hsh Ht Hk Hn).
Qed.

Lemma X25_rehydrate_restores_the_recorded_weights_witness :
  exists m',
    Records.rehydrate_model
      (Records.compute_records (fun _ _ => ([], [1])) Records_facts.example)
      = Some m' /\
    tget (Records.weight_means m') 0 0 1 =
      (if Records.gt (vget (Records.PIP (Records.pi Records_facts.example)) 1) 0.01
       then tget (Records.weight_means Records_facts.example) 0 0 1 else 0).
Proof.
  destruct (@X25_rehydrate_restores_the_recorded_weights
              (fun _ _ => ([], [1])) Records_facts.example 0 0 1
              Records_facts.example_shaped)
    as (m' & E & Hm & _); [cbn; lia | cbn; lia | cbn; lia |].
  exists m'. split; [exact E | exact Hm].
Defined.

(** X26.  After [compute_records] the model has records, [compute_pip]
    succeeds on it and returns the PIP vector the records were computed
    from; [snp_subset] marks exactly the variants whose PIP exceeds 0.01,
    and the parameters of the model are left as they were. *)
Theorem X26_records_mark_the_variants_above_the_threshold
  (get_credible_sets : Records.model -> R -> list (list nat) * vec)
  (m : Records.model) :
  exists r,
    Records.records (Records.compute_records get_credible_sets m) = Some r /\
    Misc.compute_pip
      (Records.as_fitted (Records.compute_records get_credible_sets m))
      = Some (Records.PIP (Records.pi m)) /\
    length (Records.snp_subset r) = length (hd [] (Records.pi m)) /\
    (forall n, (n < length (hd [] (Records.pi m)))%nat ->
       (nth n (Records.snp_subset r) false = true <->
        0.01 < vget (Records.PIP (Records.pi m)) n)) /\
    Records.pi (Records.compute_records get_credible_sets m) = Records.pi m /\
    Records.weight_means (Records.compute_records get_credible_sets m)
      = Records.weight_means m /\
    Records.weight_vars (Records.compute_records get_credible_sets m)
      = Records.weight_vars m.
Proof.
  destruct (@Records_facts.records_computed get_credible_sets m)
    as (act & pur & cs & ->).
  eexists. split; [reflexivity|]. split; [reflexivity|].
  cbn [Records.snp_subset Records.pi Records.weight_means Records.weight_vars].
  assert (Hl : length (map (fun x => Records.gt x 0.01) (Records.PIP (Records.pi m)))
               = length (hd [] (Records.pi m))).
  { rewrite length_map. unfold Records.PIP. now rewrite length_tab. }
  split; [exact Hl|]. split; [|repeat split].
  intros n Hn. unfold vget.
  rewrite (nth_indep _ false (Records.gt 0 0.01)) by (rewrite Hl; auto).
  rewrite (map_nth (fun x => Records.gt x 0.01)). unfold Records.gt.
  destruct (Rlt_dec 0.01 (nth n (Records.PIP (Records.pi m)) 0));
    split; intros H; auto; discriminate.
Qed.

(** X27.  [kl_components(m1, m2)] has one row per component of [m2] and
    one column per component of [m1], and exchanging the two models
    transposes it: the divergence it reports is symmetric. *)
Theorem X27_kl_components_is_symmetric
  (categorical_kl : vec -> vec -> R) (m1 m2 : CAFEH2.model) (k1 k2 : nat) :
  (k1 < CAFEH2.dK m1)%nat -> (k2 < CAFEH2.dK m2)%nat ->
  length (MiscTools.kl_components categorical_kl m1 m2) = CAFEH2.dK m2 /\
  length (nth k2 (MiscTools.kl_components categorical_kl m1 m2) [])
    = CAFEH2.dK m1 /\
  mget (MiscTools.kl_components categorical_kl m1 m2) k2 k1
    = mget (MiscTools.kl_components categorical_kl m2 m1) k1 k2.
Proof.
  intros H1 H2.
  destruct (@MiscTools.comparison_shape
              (fun k2 k1 =>
                 categorical_kl (nth k1 (CAFEH2.pi m1) []) (nth k2 (CAFEH2.pi m2) [])
                 + categorical_kl (nth k2 (CAFEH2.pi m2) []) (nth k1 (CAFEH2.pi m1) []))
              (CAFEH2.dK m1) (CAFEH2.dK m2) k2) as [L1 L2].
  split; [exact L1|]. split; [exact (L2 H2)|].
  rewrite !MiscTools.kl_components_entry by auto. lra.
Qed.

Lemma X27_kl_components_is_symmetric_witness :
  mget (MiscTools.kl_components (fun p q => Rsum p - Rsum q)
          (CAFEH2.self CAFEH2_runs.one_start)
          (CAFEH2.self CAFEH2_runs.two_start)) 1 0
    = mget (MiscTools.kl_components (fun p q => Rsum p - Rsum q)
              (CAFEH2.self CAFEH2_runs.two_start)
              (CAFEH2.self CAFEH2_runs.one_start)) 0 1.
Proof.
  apply (@X27_kl_components_is_symmetric (fun p q => Rsum p - Rsum q)
           (CAFEH2.self CAFEH2_runs.one_start)
           (CAFEH2.self CAFEH2_runs.two_start) 0 1); cbn; lia.
Defined.

(** X28.  For two models with the same number of outcome channels,
    [active_kl(m1, m2)] has one row per component of [m2] and one column
    per component of [m1], and exchanging the two models transposes it. *)
Theorem X28_active_kl_is_symmetric
  (categorical_kl : vec -> vec -> R) (m1 m2 : CAFEH2.model) (k1 k2 : nat) :
  length (CAFEH2.active m1) = length (CAFEH2.active m2) ->
  (k1 < CAFEH2.dK m1)%nat -> (k2 < CAFEH2.dK m2)%nat ->
  length (MiscTools.active_kl categorical_kl m1 m2) = CAFEH2.dK m2 /\
  length (nth k2 (MiscTools.active_kl categorical_kl m1 m2) []) = CAFEH2.dK m1 /\
  mget (MiscTools.active_kl categorical_kl m1 m2) k2 k1
    = mget (MiscTools.active_kl categorical_kl m2 m1) k1 k2.
Proof.
  intros _ H1 H2.
  destruct (@MiscTools.comparison_shape
              (fun k2 k1 =>
                 MiscTools.kl_sum categorical_kl m1 m2 k1 k2
                 + MiscTools.kl_sum categorical_kl m2 m1 k2 k1)
              (CAFEH2.dK m1) (CAFEH2.dK m2) k2) as [L1 L2].
  split; [exact L1|]. split; [exact (L2 H2)|].
  rewrite !MiscTools.active_kl_entry by auto. lra.
Qed.

Lemma X28_active_kl_is_symmetric_witness :
  mget (MiscTools.active_kl (fun p q => Rsum p - Rsum q)
          (CAFEH2.self CAFEH2_runs.one_start)
          (CAFEH2.self CAFEH2_runs.two_start)) 1 0
    = mget (MiscTools.active_kl (fun p q => Rsum p - Rsum q)
              (CAFEH2.self CAFEH2_runs.two_start)
              (CAFEH2.self CAFEH2_runs.one_start)) 0 1.
Proof.
  apply (@X28_active_kl_is_symmetric (fun p q => Rsum p - Rsum q)
           (CAFEH2.self CAFEH2_runs.one_start)
           (CAFEH2.self CAFEH2_runs.two_start) 0 1); cbn; lia.
Defined.

(** ** When the update rules raise *)


